(** * code.sajari.com/env: environment-variable registry, resolver and error aggregate

    A shallow embedding of [env.go] together with the parts of the Go
    standard library it calls ([strconv], [strings], [unicode/utf8],
    [time], [fmt]'s two verbs), followed by the properties of the
    package's specification.

    Conventions.
    - A Go [string] is a sequence of bytes: [string] of [ascii].
    - Go's [int], [int64], [uint64] and [rune] are [Z]; wrap-around is
      written out where the code can reach it.  [strconv.IntSize] is 64.
    - A pointer returned by [new(T)] is an index into a store of cells.
    - A method with a pointer receiver is a function from the state before
      the call to the result and the state after it. *)

From Stdlib Require Import ZArith String Ascii List Lia Bool.
From Stdlib Require Import Floats.SpecFloat.
From stdpp Require Import base tactics option list.

Local Open Scope string_scope.
Local Open Scope Z_scope.

(** ** Bytes *)

Definition ord (c : ascii) : Z := Z.of_N (N_of_ascii c).

(** [byte(n)]: conversion to a byte keeps the low eight bits. *)
Definition chr (n : Z) : ascii := ascii_of_N (Z.to_N (n mod 256)).

Definition dquote : ascii := chr 34.

Definition len (s : string) : Z := Z.of_nat (String.length s).

(** [s[n:]] *)
Fixpoint drop_bytes (n : nat) (s : string) : string :=
  match n, s with
  | O, _ => s
  | S n', String _ s' => drop_bytes n' s'
  | S _, EmptyString => EmptyString
  end.

(** [s[:n]] *)
Fixpoint take_bytes (n : nat) (s : string) : string :=
  match n, s with
  | O, _ => EmptyString
  | S n', String c s' => String c (take_bytes n' s')
  | S _, EmptyString => EmptyString
  end.

(** The Unicode tables of the Go distribution are data outside this
    package; the two functions that consult them are taken as given
    beyond the range the standard library decides without a table. *)
Class UnicodeTables := {
  (** [strconv.IsPrint r] for [r > 0xFF] *)
  isPrintTable : Z -> bool;
  (** [unicode.ToUpper r] for [r > unicode.MaxASCII] *)
  toUpperTable : Z -> Z
}.

(** ** unicode/utf8 *)
Module utf8.

Definition RuneError : Z := 0xFFFD.
Definition RuneSelf : Z := 0x80.
Definition MaxRune : Z := 0x10FFFF.
Definition surrogateMin : Z := 0xD800.
Definition surrogateMax : Z := 0xDFFF.
Definition locb : Z := 0x80.
Definition hicb : Z := 0xBF.

(** The [first] table with its [acceptRanges] entry resolved. *)
Inductive firstInfo :=
| ascii1
| invalid1
| lead (size : nat) (lo hi : Z).

Definition first (b : Z) : firstInfo :=
  if b <? 0x80 then ascii1
  else if b <? 0xC2 then invalid1
  else if b <? 0xE0 then lead 2 locb hicb
  else if b =? 0xE0 then lead 3 0xA0 hicb
  else if b <? 0xED then lead 3 locb hicb
  else if b =? 0xED then lead 3 locb 0x9F
  else if b <? 0xF0 then lead 3 locb hicb
  else if b =? 0xF0 then lead 4 0x90 hicb
  else if b <? 0xF4 then lead 4 locb hicb
  else if b =? 0xF4 then lead 4 locb 0x8F
  else invalid1.

Definition cont (b : Z) : bool := (locb <=? b) && (b <=? hicb).

Definition DecodeRuneInString (s : string) : Z * nat :=
  match s with
  | EmptyString => (RuneError, 0%nat)
  | String c0 t0 =>
    let s0 := ord c0 in
    match first s0 with
    | ascii1 => (s0, 1%nat)
    | invalid1 => (RuneError, 1%nat)
    | lead sz lo hi =>
      if (String.length s <? sz)%nat then (RuneError, 1%nat) else
      match t0 with
      | EmptyString => (RuneError, 1%nat)
      | String c1 t1 =>
        let s1 := ord c1 in
        if (s1 <? lo) || (hi <? s1) then (RuneError, 1%nat) else
        if (sz <=? 2)%nat
        then (Z.lor (Z.shiftl (Z.land s0 0x1F) 6) (Z.land s1 0x3F), 2%nat) else
        match t1 with
        | EmptyString => (RuneError, 1%nat)
        | String c2 t2 =>
          let s2 := ord c2 in
          if negb (cont s2) then (RuneError, 1%nat) else
          if (sz <=? 3)%nat
          then (Z.lor (Z.lor (Z.shiftl (Z.land s0 0x0F) 12)
                             (Z.shiftl (Z.land s1 0x3F) 6))
                      (Z.land s2 0x3F), 3%nat) else
          match t2 with
          | EmptyString => (RuneError, 1%nat)
          | String c3 _ =>
            let s3 := ord c3 in
            if negb (cont s3) then (RuneError, 1%nat) else
            (Z.lor (Z.lor (Z.lor (Z.shiftl (Z.land s0 0x07) 18)
                                 (Z.shiftl (Z.land s1 0x3F) 12))
                          (Z.shiftl (Z.land s2 0x3F) 6))
                   (Z.land s3 0x3F), 4%nat)
          end
        end
      end
    end
  end.

Definition tx (r : Z) : ascii := chr (Z.lor 0x80 (Z.land r 0x3F)).

Definition encode3 (r : Z) : string :=
  String (chr (Z.lor 0xE0 (Z.shiftr r 12)))
    (String (tx (Z.shiftr r 6)) (String (tx r) EmptyString)).

(** [AppendRune(nil, r)]; [i] is [uint32(r)]. *)
Definition AppendRune (r : Z) : string :=
  let i := r mod 2 ^ 32 in
  if i <=? 0x7F then String (chr r) EmptyString
  else if i <=? 0x7FF then
    String (chr (Z.lor 0xC0 (Z.shiftr r 6))) (String (tx r) EmptyString)
  else if (MaxRune <? i) || ((surrogateMin <=? i) && (i <=? surrogateMax))
  then encode3 RuneError
  else if i <=? 0xFFFF then encode3 r
  else
    String (chr (Z.lor 0xF0 (Z.shiftr r 18)))
      (String (tx (Z.shiftr r 12))
         (String (tx (Z.shiftr r 6)) (String (tx r) EmptyString))).

Definition ValidRune (r : Z) : bool :=
  ((0 <=? r) && (r <? surrogateMin)) || ((surrogateMax <? r) && (r <=? MaxRune)).

End utf8.

(** Iteration [for ... ; len(s) > 0; s = s[width:]] over the runes of a
    string: [step] sees the undecoded rest and answers with the bytes it
    emits and the number of bytes it consumed.  [skip] counts bytes of
    the current rune that are still to be passed over. *)
Fixpoint rune_loop (step : string -> string * nat) (skip : nat) (s : string) : string :=
  match s with
  | EmptyString => EmptyString
  | String _ t =>
    match skip with
    | S k => rune_loop step k t
    | O => let '(out, width) := step s in out ++ rune_loop step (Nat.pred width) t
    end
  end.

(** ** errors, strconv *)

(** The error values the package meets: [errors.New] and [fmt.Errorf]
    results, which carry a message, and [*strconv.NumError]. *)
Inductive error :=
| errorString (s : string)
| NumError (Func Num : string) (Err : error).

Module strconv.

Definition IntSize : Z := 64.

Definition ErrRange : error := errorString "value out of range".
Definition ErrSyntax : error := errorString "invalid syntax".

Definition syntaxError (fn str : string) : error := NumError fn str ErrSyntax.
Definition rangeError (fn str : string) : error := NumError fn str ErrRange.

(** [lowerhex[n]] *)
Definition lowerhex (n : Z) : ascii :=
  match String.get (Z.to_nat n) "0123456789abcdef" with
  | Some c => c
  | None => "0"%char
  end.

Fixpoint hex_digits (count : nat) (r : Z) : string :=
  match count with
  | O => EmptyString
  | S k => String (lowerhex (Z.land (Z.shiftr r (4 * Z.of_nat k)) 0xF)) (hex_digits k r)
  end.

Section Quoting.
Context `{UnicodeTables}.

Definition IsPrint (r : Z) : bool :=
  if r <=? 0xFF then
    if (0x20 <=? r) && (r <=? 0x7E) then true
    else if (0xA1 <=? r) && (r <=? 0xFF) then negb (r =? 0xAD)
    else false
  else isPrintTable r.

(** [appendEscapedRune] with the double quote as [quote] and both
    flags off. *)
Definition appendEscapedRune (r : Z) : string :=
  if (r =? ord dquote) || (r =? ord "\"%char) then String "\"%char (String (chr r) EmptyString)
  else if IsPrint r then utf8.AppendRune r
  else if r =? 7 then "\a"
  else if r =? 8 then "\b"
  else if r =? 12 then "\f"
  else if r =? 10 then "\n"
  else if r =? 13 then "\r"
  else if r =? 9 then "\t"
  else if r =? 11 then "\v"
  else if (r <? 32) || (r =? 0x7F) then "\x" ++ hex_digits 2 (r mod 256)
  else if negb (utf8.ValidRune r) then "\u" ++ hex_digits 4 0xFFFD
  else if r <? 0x10000 then "\u" ++ hex_digits 4 r
  else "\U" ++ hex_digits 8 r.

(** One turn of the loop of [appendQuotedWith]. *)
Definition quote_step (s : string) : string * nat :=
  match s with
  | EmptyString => (EmptyString, 0%nat)
  | String c _ =>
    let '(r, width) :=
      if utf8.RuneSelf <=? ord c then utf8.DecodeRuneInString s else (ord c, 1%nat) in
    if (width =? 1)%nat && (r =? utf8.RuneError)
    then ("\x" ++ hex_digits 2 (ord c), 1%nat)
    else (appendEscapedRune r, width)
  end.

Definition Quote (s : string) : string :=
  String dquote (rune_loop quote_step 0 s ++ String dquote EmptyString).

(** [e.Error()] *)
Fixpoint Error (e : error) : string :=
  match e with
  | errorString s => s
  | NumError fn num err =>
    "strconv." ++ fn ++ ": parsing " ++ Quote num ++ ": " ++ Error err
  end.

End Quoting.

(** [c | ('x' - 'X')] *)
Definition lower (c : Z) : Z := Z.lor c 0x20.

(** The digit value of a byte in [ParseUint], when it has one. *)
Definition digit_val (c : Z) : option Z :=
  if (48 <=? c) && (c <=? 57) then Some (c - 48)
  else if (97 <=? lower c) && (lower c <=? 122) then Some (lower c - 97 + 10)
  else None.

Fixpoint ParseUint_loop (base cutoff maxVal : Z) (s0 s : string) (n : Z)
  : Z * option error :=
  match s with
  | EmptyString => (n, None)
  | String c t =>
    match digit_val (ord c) with
    | None => (0, Some (syntaxError "ParseUint" s0))
    | Some d =>
      if base <=? d then (0, Some (syntaxError "ParseUint" s0))
      else if cutoff <=? n then (maxVal, Some (rangeError "ParseUint" s0))
      else
        let n' := n * base in
        let n1 := (n' + d) mod 2 ^ 64 in
        if (n1 <? n') || (maxVal <? n1) then (maxVal, Some (rangeError "ParseUint" s0))
        else ParseUint_loop base cutoff maxVal s0 t n1
    end
  end.

(** [ParseUint(s, base, bitSize)] for [2 <= base <= 36] and
    [0 <= bitSize <= 64], the only way the package reaches it. *)
Definition ParseUint (s : string) (base bitSize : Z) : Z * option error :=
  if (s =? "")%string then (0, Some (syntaxError "ParseUint" s))
  else
    let bitSize := if bitSize =? 0 then IntSize else bitSize in
    let cutoff := (2 ^ 64 - 1) / base + 1 in
    let maxVal := 2 ^ bitSize - 1 in
    ParseUint_loop base cutoff maxVal s s 0.

(** [err == ErrRange] *)
Definition is_ErrRange (e : error) : bool :=
  match e with
  | errorString m => (m =? "value out of range")%string
  | NumError _ _ _ => false
  end.

(** The range check that ends [ParseInt], on the magnitude [un]. *)
Definition ParseInt_range (s0 : string) (neg : bool) (un bitSize : Z) : Z * option error :=
  let bitSize := if bitSize =? 0 then IntSize else bitSize in
  let cutoff := 2 ^ (bitSize - 1) in
  if negb neg && (cutoff <=? un) then (cutoff - 1, Some (rangeError "ParseInt" s0))
  else if neg && (cutoff <? un) then (- cutoff, Some (rangeError "ParseInt" s0))
  else (if neg then - un else un, None).

Definition ParseInt (s : string) (base bitSize : Z) : Z * option error :=
  match s with
  | EmptyString => (0, Some (syntaxError "ParseInt" s))
  | String c t =>
    let s0 := s in
    let '(neg, s) :=
      if Ascii.eqb c "+" then (false, t)
      else if Ascii.eqb c "-" then (true, t)
      else (false, s) in
    let '(un, err) := ParseUint s base bitSize in
    match err with
    | Some (NumError _ _ e) =>
      if negb (is_ErrRange e) then (0, Some (NumError "ParseInt" s0 e))
      else ParseInt_range s0 neg un bitSize
    | Some (errorString _) => (0, err)
    | None => ParseInt_range s0 neg un bitSize
    end
  end.

(** The fast path of [Atoi]: at most eighteen bytes, no overflow. *)
Fixpoint Atoi_fast (s : string) (n : Z) : option Z :=
  match s with
  | EmptyString => Some n
  | String c t =>
    let ch := (ord c - 48) mod 256 in
    if 9 <? ch then None else Atoi_fast t (n * 10 + ch)
  end.

Definition Atoi (s : string) : Z * option error :=
  let sLen := len s in
  if (0 <? sLen) && (sLen <? 19) then
    match s with
    | EmptyString => (0, Some (syntaxError "Atoi" s))
    | String c t =>
      let signed := Ascii.eqb c "-" || Ascii.eqb c "+" in
      let body := if signed then t else s in
      if signed && (len body <? 1) then (0, Some (syntaxError "Atoi" s))
      else
        match Atoi_fast body 0 with
        | None => (0, Some (syntaxError "Atoi" s))
        | Some n => (if Ascii.eqb c "-" then - n else n, None)
        end
    end
  else
    let '(i64, err) := ParseInt s 10 0 in
    match err with
    | Some (NumError _ num e) => (i64, Some (NumError "Atoi" num e))
    | _ => (i64, err)
    end.

(** The decimal digits of [u], most significant first, in front of
    [acc]; [formatBits] and [time.fmtInt] fill their buffers from the
    right in the same way.  Twenty digits hold every [uint64]. *)
Fixpoint format_digits (fuel : nat) (u : Z) (acc : string) : string :=
  match fuel with
  | O => acc
  | S k =>
    let acc' := String (chr (u mod 10 + 48)) acc in
    if u / 10 =? 0 then acc' else format_digits k (u / 10) acc'
  end.

(** [FormatInt(i, 10)] *)
Definition FormatInt (i : Z) : string :=
  if i <? 0 then String "-" (format_digits 20 (- i) EmptyString)
  else format_digits 20 i EmptyString.

Definition Itoa (i : Z) : string := FormatInt i.

Definition ParseBool (str : string) : bool * option error :=
  if existsb (String.eqb str) ["1"; "t"; "T"; "true"; "TRUE"; "True"] then (true, None)
  else if existsb (String.eqb str) ["0"; "f"; "F"; "false"; "FALSE"; "False"] then (false, None)
  else (false, Some (syntaxError "ParseBool" str)).

Definition FormatBool (b : bool) : string := if b then "true" else "false".

End strconv.

(** ** strings *)
Module strings.

Fixpoint map_bytes (f : ascii -> ascii) (s : string) : string :=
  match s with
  | EmptyString => EmptyString
  | String c t => String (f c) (map_bytes f t)
  end.

Fixpoint all_bytes (p : ascii -> bool) (s : string) : bool :=
  match s with
  | EmptyString => true
  | String c t => p c && all_bytes p t
  end.

Definition is_lower (c : ascii) : bool := (97 <=? ord c) && (ord c <=? 122).

(** [c -= 'a' - 'A'] on a lower-case letter *)
Definition upper_byte (c : ascii) : ascii :=
  if is_lower c then chr (ord c - 32) else c.

(** [Map(mapping, s)]: every rune of [s] (an invalid byte reads as
    [RuneError] of width one) is replaced by the encoding of its image,
    or dropped when the image is negative.  The unchanged prefix that
    the library copies verbatim is the encoding of its own runes. *)
Definition Map (mapping : Z -> Z) (s : string) : string :=
  rune_loop (fun rest =>
               let '(c, width) := utf8.DecodeRuneInString rest in
               let r := mapping c in
               (if 0 <=? r then utf8.AppendRune r else EmptyString, width)) 0 s.

Section Case.
Context `{UnicodeTables}.

(** [unicode.ToUpper] *)
Definition unicode_ToUpper (r : Z) : Z :=
  if r <=? 0x7F then (if (97 <=? r) && (r <=? 122) then r - 32 else r)
  else toUpperTable r.

Definition ToUpper (s : string) : string :=
  let isASCII := all_bytes (fun c => ord c <? utf8.RuneSelf) s in
  let hasLower := negb (all_bytes (fun c => negb (is_lower c)) s) in
  if isASCII then (if hasLower then map_bytes upper_byte s else s)
  else Map unicode_ToUpper s.

End Case.

(** [Index(s, substr)]: the first position at which [substr] occurs, or -1. *)
Fixpoint Index (s substr : string) : Z :=
  if String.prefix substr s then 0
  else
    match s with
    | EmptyString => -1
    | String _ t => let i := Index t substr in if i <? 0 then -1 else i + 1
    end.

(** [Count(s, substr)] for a non-empty [substr]: the loop stops at the
    first failed search, after at most [len(s)] hits. *)
Fixpoint Count_loop (fuel : nat) (s substr : string) (n : Z) : Z :=
  match fuel with
  | O => n
  | S k =>
    let i := Index s substr in
    if i =? -1 then n
    else Count_loop k (drop_bytes (Z.to_nat (i + len substr)) s) substr (n + 1)
  end.

Definition Count (s substr : string) : Z :=
  Count_loop (S (String.length s)) s substr 0.

(** The replacement loop of [Replace]; [rest] is [s[start:]]. *)
Fixpoint Replace_loop (n : nat) (rest old new : string) : string :=
  match n with
  | O => rest
  | S k =>
    let j := Index rest old in
    take_bytes (Z.to_nat j) rest ++ new
      ++ Replace_loop k (drop_bytes (Z.to_nat (j + len old)) rest) old new
  end.

(** [Replace(s, old, new, n)] for a non-empty [old]. *)
Definition Replace (s old new : string) (n : Z) : string :=
  if (old =? new)%string || (n =? 0) then s
  else
    let m := Count s old in
    if m =? 0 then s
    else
      let n := if (n <? 0) || (m <? n) then m else n in
      Replace_loop (Z.to_nat n) s old new.

End strings.

(** ** fmt: the verbs the package uses *)
Module fmt.

(** [%d] of an [int] *)
Definition verb_d (n : Z) : string := strconv.FormatInt n.

End fmt.

(** ** float64

    IEEE 754 binary64 as the standard library's executable
    specification of it: 53 bits of precision, round to nearest even. *)
Module float64.

Definition t := spec_float.

Definition prec : Z := 53.
Definition emax : Z := 1024.

(** [float64(n)] for an integer [n] *)
Definition of_int (n : Z) : t := binary_normalize prec emax n 0 false.

Definition mul (x y : t) : t := SFmul prec emax x y.
Definition div (x y : t) : t := SFdiv prec emax x y.

(** [uint64(x)]: truncation toward zero.  The conversion of a negative
    number, an infinity or a NaN is left to the platform by the language;
    [time.ParseDuration] converts only finite numbers between zero and
    the number of nanoseconds in an hour. *)
Definition to_uint64 (x : t) : Z :=
  match x with
  | S754_zero _ => 0
  | S754_finite false m e => if 0 <=? e then Zpos m * 2 ^ e else Zpos m / 2 ^ (- e)
  | _ => 2 ^ 63
  end.

End float64.

(** ** time

    [Duration.String] and [ParseDuration] as the library has them since
    Go 1.17, where the parser accumulates in a [uint64] and so accepts
    the rendering of the most negative duration. *)
Module time.

Definition Nanosecond : Z := 1.
Definition Microsecond : Z := 1000 * Nanosecond.
Definition Millisecond : Z := 1000 * Microsecond.
Definition Second : Z := 1000 * Millisecond.
Definition Minute : Z := 60 * Second.
Definition Hour : Z := 60 * Minute.

(** The micro sign U+00B5 and the Greek letter mu U+03BC in UTF-8. *)
Definition micro : string := String (chr 0xC2) (String (chr 0xB5) EmptyString).
Definition mu : string := String (chr 0xCE) (String (chr 0xBC) EmptyString).

(** [fmtFrac(buf[:w], v, prec)]: the text written in front of [acc], and
    [v / 10^prec]. *)
Fixpoint fmtFrac (prec : nat) (v : Z) (print : bool) (acc : string) : string * Z :=
  match prec with
  | O => (if print then String "." acc else acc, v)
  | S k =>
    let digit := v mod 10 in
    let print := print || negb (digit =? 0) in
    fmtFrac k (v / 10) print (if print then String (chr (digit + 48)) acc else acc)
  end.

(** [fmtInt(buf[:w], v)]: the decimal digits of [v] in front of [acc],
    a single zero for zero. *)
Definition fmtInt (v : Z) (acc : string) : string := strconv.format_digits 20 v acc.

(** [d.String()]; the buffer is filled from its end, so each step puts
    its text in front of what is already there. *)
Definition Duration_String (d : Z) : string :=
  let neg := d <? 0 in
  let u := if neg then (- d) mod 2 ^ 64 else d mod 2 ^ 64 in
  if u <? Second then
    if u =? 0 then "0s"
    else
      let '(prec, suffix) :=
        if u <? Microsecond then (0%nat, "ns")
        else if u <? Millisecond then (3%nat, micro ++ "s")
        else (6%nat, "ms") in
      let '(acc, u) := fmtFrac prec u false suffix in
      let acc := fmtInt u acc in
      if neg then String "-" acc else acc
  else
    let '(acc, u) := fmtFrac 9 u false "s" in
    let acc := fmtInt (u mod 60) acc in
    let u := u / 60 in
    let acc :=
      if 0 <? u then
        let acc := fmtInt (u mod 60) (String "m" acc) in
        let u := u / 60 in
        if 0 <? u then fmtInt u (String "h" acc) else acc
      else acc in
    if neg then String "-" acc else acc.

(** [quote(s)] of package time; byte by byte it does what the library's
    loop over runes does, since a rune at or above [runeSelf] is written
    as the escapes of all its bytes. *)
Definition quote_byte (c : ascii) : string :=
  if (0x80 <=? ord c) || (ord c <? 32) then "\x" ++ strconv.hex_digits 2 (ord c)
  else if Ascii.eqb c dquote || Ascii.eqb c "\" then String "\" (String c EmptyString)
  else String c EmptyString.

Fixpoint quote_bytes (s : string) : string :=
  match s with
  | EmptyString => EmptyString
  | String c t => quote_byte c ++ quote_bytes t
  end.

Definition quote (s : string) : string :=
  String dquote (quote_bytes s ++ String dquote EmptyString).

Definition is_digit (c : ascii) : bool := (48 <=? ord c) && (ord c <=? 57).

(** [leadingInt(s)] continued from the value [x]; [None] is
    [errLeadingInt]. *)
Fixpoint leadingInt (s : string) (x : Z) : option (Z * string) :=
  match s with
  | EmptyString => Some (x, s)
  | String c t =>
    if negb (is_digit c) then Some (x, s)
    else if 2 ^ 63 / 10 <? x then None
    else
      let x := x * 10 + ord c - 48 in
      if 2 ^ 63 <? x then None else leadingInt t x
  end.

(** [leadingFraction(s)] continued from [x], [scale] and [overflow]. *)
Fixpoint leadingFraction (s : string) (x : Z) (scale : float64.t) (overflow : bool)
  : Z * float64.t * string :=
  match s with
  | EmptyString => (x, scale, s)
  | String c t =>
    if negb (is_digit c) then (x, scale, s)
    else if overflow then leadingFraction t x scale overflow
    else if (2 ^ 63 - 1) / 10 <? x then leadingFraction t x scale true
    else
      let y := x * 10 + ord c - 48 in
      if 2 ^ 63 <? y then leadingFraction t x scale true
      else leadingFraction t y (float64.mul scale (float64.of_int 10)) false
  end.

(** The length of the unit: the bytes up to the next ['.'] or digit. *)
Fixpoint unit_length (s : string) : nat :=
  match s with
  | EmptyString => O
  | String c t => if Ascii.eqb c "." || is_digit c then O else S (unit_length t)
  end.

Definition unitMap (u : string) : option Z :=
  if (u =? "ns")%string then Some Nanosecond
  else if (u =? "us")%string then Some Microsecond
  else if (u =? micro ++ "s")%string then Some Microsecond
  else if (u =? mu ++ "s")%string then Some Microsecond
  else if (u =? "ms")%string then Some Millisecond
  else if (u =? "s")%string then Some Second
  else if (u =? "m")%string then Some Minute
  else if (u =? "h")%string then Some Hour
  else None.

Definition invalid (orig : string) : error :=
  errorString ("time: invalid duration " ++ quote orig).

(** The optional fraction after the integer part: a ['.'] and digits.
    The answer is the digits' value, the scale, the rest, and whether a
    digit was consumed. *)
Definition fraction (s1 : string) : Z * float64.t * string * bool :=
  match s1 with
  | EmptyString => (0, float64.of_int 1, s1, false)
  | String c t =>
    if Ascii.eqb c "." then
      let '(f, scale, s2) := leadingFraction t 0 (float64.of_int 1) false in
      (f, scale, s2, negb (String.length t =? String.length s2)%nat)
    else (0, float64.of_int 1, s1, false)
  end.

(** One turn of the loop of [ParseDuration]: the next group of digits,
    optional fraction and unit of [s], added to [d]. *)
Definition ParseDuration_step (orig s : string) (d : Z) : error + (string * Z) :=
  match s with
  | EmptyString => inl (invalid orig)
  | String c _ =>
    if negb (Ascii.eqb c "." || is_digit c) then inl (invalid orig)
    else
      match leadingInt s 0 with
      | None => inl (invalid orig)
      | Some (v, s1) =>
        let pre := negb (String.length s =? String.length s1)%nat in
        let '(f, scale, s2, post) := fraction s1 in
        if negb pre && negb post then inl (invalid orig)
        else
          let i := unit_length s2 in
          if (i =? 0)%nat
          then inl (errorString ("time: missing unit in duration " ++ quote orig))
          else
            let u := take_bytes i s2 in
            let s3 := drop_bytes i s2 in
            match unitMap u with
            | None =>
              inl (errorString ("time: unknown unit " ++ quote u
                                ++ " in duration " ++ quote orig))
            | Some unit =>
              if 2 ^ 63 / unit <? v then inl (invalid orig)
              else
                let v := v * unit in
                let v' :=
                  if 0 <? f
                  then (v + float64.to_uint64
                              (float64.mul (float64.of_int f)
                                 (float64.div (float64.of_int unit) scale))) mod 2 ^ 64
                  else v in
                if (0 <? f) && (2 ^ 63 <? v') then inl (invalid orig)
                else
                  let d := (d + v') mod 2 ^ 64 in
                  if 2 ^ 63 <? d then inl (invalid orig) else inr (s3, d)
            end
      end
  end.

(** The loop [for s != ""]; every turn consumes at least the unit, so
    [len(s)] turns are enough. *)
Fixpoint ParseDuration_loop (fuel : nat) (orig s : string) (d : Z) : error + Z :=
  match s with
  | EmptyString => inr d
  | String _ _ =>
    match fuel with
    | O => inl (invalid orig)
    | S k =>
      match ParseDuration_step orig s d with
      | inl e => inl e
      | inr (s', d') => ParseDuration_loop k orig s' d'
      end
    end
  end.

Definition ParseDuration (s : string) : Z * option error :=
  let orig := s in
  let '(neg, s) :=
    match s with
    | String c t =>
      if Ascii.eqb c "-" || Ascii.eqb c "+" then (Ascii.eqb c "-", t) else (false, s)
    | EmptyString => (false, s)
    end in
  if (s =? "0")%string then (0, None)
  else if (s =? "")%string then (0, Some (invalid orig))
  else
    match ParseDuration_loop (String.length s) orig s 0 with
    | inl e => (0, Some e)
    | inr d =>
      if neg then (- d, None)
      else if 2 ^ 63 - 1 <? d then (0, Some (invalid orig))
      else (d, None)
    end.

End time.

(** ** path *)
Module path.

(** [bytealg.LastIndexByteString(s, c)] with the scan at [i]: the
    positions below [i] are still to be looked at, from the last. *)
Fixpoint LastIndexByteString_from (i : nat) (s : string) (c : ascii) : Z :=
  match i with
  | O => -1
  | S k =>
    match String.get k s with
    | Some b => if Ascii.eqb b c then Z.of_nat k else LastIndexByteString_from k s c
    | None => LastIndexByteString_from k s c
    end
  end.

Definition LastIndexByteString (s : string) (c : ascii) : Z :=
  LastIndexByteString_from (String.length s) s c.

(** The loop of [Base] that strips trailing slashes, with [path] cut
    down to its first [n] bytes so far. *)
Fixpoint strip_slashes (n : nat) (path : string) : string :=
  match n with
  | O => take_bytes 0 path
  | S k =>
    match String.get k path with
    | Some b => if Ascii.eqb b "/" then strip_slashes k path else take_bytes n path
    | None => take_bytes n path
    end
  end.

(** [Base(path)]: the last element of [path]. *)
Definition Base (path : string) : string :=
  if (path =? "")%string then "."
  else
    let path := strip_slashes (String.length path) path in
    let i := LastIndexByteString path "/" in
    let path := if 0 <=? i then drop_bytes (Z.to_nat (i + 1)) path else path in
    if (path =? "")%string then "/" else path.

End path.

(** ** Package env: data *)

(** The storage cells handed out by the typed factories. *)
Inductive cell :=
| CString (s : string)
| CInt (n : Z)
| CDuration (d : Z)
| CBool (b : bool).

Abbreviation loc := nat (only parsing).
Abbreviation store := (list cell) (only parsing).

(** The interface [Value]: a method set over the store. *)
Record Value := {
  Value_String : store -> string;
  Value_Set : string -> store -> store * option error
}.

Record Var := {
  Name : string;
  Usage : string;
  Var_Value : Value
}.

Record VarSet := {
  name : string;
  prefix : string;
  vars : list Var
}.

(** [v.vars = xs] *)
Definition set_vars (v : VarSet) (xs : list Var) : VarSet :=
  {| name := name v; prefix := prefix v; vars := xs |}.

(** [Errors]: a slice of errors, whose entries may be nil. *)
Definition Errors := list (option error).

(** The interface [Getter]. *)
Definition Getter := string -> string * bool.

(** What a pass did to its collaborators, in order: the [i]-th variable's
    name was looked up, the [i]-th variable's [Set] was called.  The
    record is kept beside the state to state what was and was not called;
    nothing reads it. *)
Inductive event :=
| EvGet (i : nat) (key : string)
| EvSet (i : nat) (text : string).

(** The state a method of [*VarSet] runs in: the receiver, the cells, and
    the record of calls. *)
Record world := {
  registry : VarSet;
  heap : store;
  calls : list event
}.

Definition M (A : Type) : Type := world -> A * world.

Definition ret {A} (a : A) : M A := fun w => (a, w).

Definition bind {A B} (m : M A) (k : A -> M B) : M B :=
  fun w => let '(a, w') := m w in k a w'.

Notation "x <- m ;; k" := (bind m (fun x => k))
  (at level 100, m at level 99, k at level 200, right associativity).
Notation "m ;;; k" := (bind m (fun _ => k))
  (at level 100, k at level 200, right associativity).

(** [new(T)] with the zero value [c] of [T] *)
Definition new (c : cell) : M loc :=
  fun w => (List.length (heap w),
            {| registry := registry w; heap := (heap w ++ [c])%list; calls := calls w |}).

(** [*p = c] *)
Definition assign (p : loc) (c : cell) : M unit :=
  fun w => (tt, {| registry := registry w; heap := <[p := c]> (heap w); calls := calls w |}).

Definition on_store {A} (f : store -> store * A) : M A :=
  fun w => let '(h, a) := f (heap w) in
           (a, {| registry := registry w; heap := h; calls := calls w |}).

Definition this : M VarSet := fun w => (registry w, w).

Definition set_this (v : VarSet) : M unit :=
  fun w => (tt, {| registry := v; heap := heap w; calls := calls w |}).

Definition record (e : event) : M unit :=
  fun w => (tt, {| registry := registry w; heap := heap w; calls := (calls w ++ [e])%list |}).

Definition read_string (p : loc) (h : store) : string :=
  match h !! p with Some (CString s) => s | _ => EmptyString end.
Definition read_int (p : loc) (h : store) : Z :=
  match h !! p with Some (CInt n) => n | _ => 0 end.
Definition read_duration (p : loc) (h : store) : Z :=
  match h !! p with Some (CDuration d) => d | _ => 0 end.
Definition read_bool (p : loc) (h : store) : bool :=
  match h !! p with Some (CBool b) => b | _ => false end.

(** Modelled from the spec: the parts of the package's validation file,
    which is not among the sources, that the specification leaves open:
    the error a failed non-empty check carries, and the three address and
    path predicates. *)
Class Checks := {
  emptyError : error;
  isBindAddr : string -> option error;
  isDialAddr : string -> option error;
  isPath : string -> option error
}.

(** Modelled from the spec: the non-empty predicate, which fails with an
    error when the input string has zero length. *)
Definition isNonEmpty `{Checks} (x : string) : option error :=
  if len x =? 0 then Some emptyError else None.

(** Modelled from the spec: [checkedValue], a predicate [fn] beside an
    embedded [Value]. *)
Record checkedValue := {
  fn : string -> option error;
  checked : Value
}.

(** Modelled from the spec: [checkedValue.Set] runs the predicate on the
    raw text; on an error it returns it without touching the underlying
    value, otherwise it delegates and returns the result verbatim. *)
Definition checkedValue_Set (v : checkedValue) (x : string) (h : store)
  : store * option error :=
  match fn v x with
  | Some err => (h, Some err)
  | None => Value_Set (checked v) x h
  end.

(** Modelled from the spec: rendering delegates unchanged. *)
Definition checkedValue_String (v : checkedValue) (h : store) : string :=
  Value_String (checked v) h.

Definition checkedValue_Value (v : checkedValue) : Value :=
  {| Value_String := checkedValue_String v; Value_Set := checkedValue_Set v |}.

(** ** Package env: the value types *)
Section Env.
Context `{UnicodeTables} `{Checks}.

Definition stringValue_Set (v : loc) (x : string) (h : store) : store * option error :=
  (<[v := CString x]> h, None).

Definition stringValue_String (v : loc) (h : store) : string := read_string v h.

Definition stringValue (p : loc) : Value :=
  {| Value_String := stringValue_String p; Value_Set := stringValue_Set p |}.

Definition newStringValue (x : string) (p : loc) : M Value :=
  assign p (CString x) ;;; ret (stringValue p).

Definition intValue_Set (v : loc) (x : string) (h : store) : store * option error :=
  let '(n, err) := strconv.Atoi x in
  let h := <[v := CInt n]> h in
  match err with
  | Some (NumError _ num e) =>
    (h, Some (errorString ("parsing " ++ strconv.Quote num ++ ": " ++ strconv.Error e)))
  | _ => (h, err)
  end.

Definition intValue_String (v : loc) (h : store) : string :=
  strconv.Itoa (read_int v h).

Definition intValue (p : loc) : Value :=
  {| Value_String := intValue_String p; Value_Set := intValue_Set p |}.

Definition newIntValue (x : Z) (p : loc) : M Value :=
  assign p (CInt x) ;;; ret (intValue p).

Definition durationValue_Set (v : loc) (x : string) (h : store) : store * option error :=
  let '(d, err) := time.ParseDuration x in
  (<[v := CDuration d]> h, err).

Definition durationValue_String (v : loc) (h : store) : string :=
  time.Duration_String (read_duration v h).

Definition durationValue (p : loc) : Value :=
  {| Value_String := durationValue_String p; Value_Set := durationValue_Set p |}.

Definition newDurationValue (x : Z) (p : loc) : M Value :=
  assign p (CDuration x) ;;; ret (durationValue p).

Definition boolValue_Set (v : loc) (x : string) (h : store) : store * option error :=
  let '(b, err) := strconv.ParseBool x in
  let h := <[v := CBool b]> h in
  match err with
  | Some (NumError _ num e) =>
    (h, Some (errorString ("parsing " ++ strconv.Quote num ++ ": " ++ strconv.Error e)))
  | _ => (h, err)
  end.

Definition boolValue_String (v : loc) (h : store) : string :=
  strconv.FormatBool (read_bool v h).

Definition boolValue (p : loc) : Value :=
  {| Value_String := boolValue_String p; Value_Set := boolValue_Set p |}.

Definition newBoolValue (x : bool) (p : loc) : M Value :=
  assign p (CBool x) ;;; ret (boolValue p).

(** ** Package env: the registry *)

Definition NewVarSet (name : string) : VarSet :=
  {| name := name;
     prefix := strings.Replace (strings.ToUpper name) "-" "_" (-1);
     vars := [] |}.

Definition VarSet_Var (value : Value) (name usage : string) : M unit :=
  v <- this ;;
  let prefix' := if negb (prefix v =? "")%string then prefix v ++ "_" else "" in
  let x := {| Var_Value := value; Name := prefix' ++ name; Usage := usage |} in
  set_this (set_vars v (vars v ++ [x])%list).

Definition VarSet_Name : M string := v <- this ;; ret (name v).

Definition VarSet_Prefix : M string := v <- this ;; ret (prefix v).

Fixpoint Visit_loop (fn : Var -> M unit) (xs : list Var) : M unit :=
  match xs with
  | [] => ret tt
  | x :: xs' => fn x ;;; Visit_loop fn xs'
  end.

Definition VarSet_Visit (fn : Var -> M unit) : M unit :=
  v <- this ;; Visit_loop fn (vars v).

Definition VarSet_String (name usage : string) : M loc :=
  p <- new (CString "") ;;
  value <- newStringValue "" p ;;
  VarSet_Var value name usage ;;;
  ret p.

Definition VarSet_StringRequired (name usage : string) : M loc :=
  p <- new (CString "") ;;
  value <- newStringValue "" p ;;
  VarSet_Var (checkedValue_Value {| fn := isNonEmpty; checked := value |}) name usage ;;;
  ret p.

Definition VarSet_Int (name usage : string) : M loc :=
  p <- new (CInt 0) ;;
  value <- newIntValue 0 p ;;
  VarSet_Var value name usage ;;;
  ret p.

Definition VarSet_Bool (name usage : string) : M loc :=
  p <- new (CBool false) ;;
  value <- newBoolValue false p ;;
  VarSet_Var value name usage ;;;
  ret p.

Definition VarSet_Duration (name usage : string) : M loc :=
  p <- new (CDuration 0) ;;
  value <- newDurationValue 0 p ;;
  VarSet_Var value name usage ;;;
  ret p.

Definition VarSet_BindAddr (name usage : string) : M loc :=
  p <- new (CString "") ;;
  value <- newStringValue "" p ;;
  VarSet_Var (checkedValue_Value {| fn := isBindAddr; checked := value |}) name usage ;;;
  ret p.

Definition VarSet_DialAddr (name usage : string) : M loc :=
  p <- new (CString "") ;;
  value <- newStringValue "" p ;;
  VarSet_Var (checkedValue_Value {| fn := isDialAddr; checked := value |}) name usage ;;;
  ret p.

Definition VarSet_Path (name usage : string) : M loc :=
  p <- new (CString "") ;;
  value <- newStringValue "" p ;;
  VarSet_Var (checkedValue_Value {| fn := isPath; checked := value |}) name usage ;;;
  ret p.

(** ** Package env: the error aggregate *)

(** The loop of [Errors.Error]: the count of non-nil entries and the
    message of the first of them. *)
Fixpoint Errors_scan (me : Errors) (n : Z) (msg : string) : Z * string :=
  match me with
  | [] => (n, msg)
  | Some e :: me' => Errors_scan me' (n + 1) (if n =? 0 then strconv.Error e else msg)
  | None :: me' => Errors_scan me' n msg
  end.

Definition Errors_Error (me : Errors) : string :=
  let '(n, msg) := Errors_scan me 0 "" in
  if n =? 0 then "(0 errors)"
  else if n =? 1 then msg
  else if n =? 2 then msg ++ " (and 1 other error)"
  else msg ++ " (and " ++ fmt.verb_d n ++ " other errors)".

(** ** Package env: the resolver *)

(** [g.Get(key)] for the [i]-th variable *)
Definition call_Get (g : Getter) (i : nat) (key : string) : M (string * bool) :=
  record (EvGet i key) ;;; ret (g key).

(** [x.Value.Set(z)] for the [i]-th variable [x] *)
Definition call_Set (i : nat) (x : Var) (z : string) : M (option error) :=
  record (EvSet i z) ;;; on_store (Value_Set (Var_Value x) z).

(** The loop of [Parse] over [v.vars], from the [i]-th variable on. *)
Fixpoint Parse_loop (g : Getter) (i : nat) (xs : list Var) (errs : Errors) : M Errors :=
  match xs with
  | [] => ret errs
  | x :: xs' =>
    r <- call_Get g i (Name x) ;;
    let '(z, ok) := r in
    if negb ok then
      Parse_loop g (S i) xs'
        (errs ++ [Some (errorString ("missing env " ++ Name x)%string)])%list
    else
      e <- call_Set i x z ;;
      match e with
      | Some err =>
        Parse_loop g (S i) xs'
          (errs ++ [Some (errorString ("could not set env " ++ Name x ++ ": "
                                       ++ strconv.Error err)%string)])%list
      | None => Parse_loop g (S i) xs' errs
      end
  end.

(** [v.Parse(g)]: nil, or the errors of the pass as an [Errors]. *)
Definition VarSet_Parse (g : Getter) : M (option Errors) :=
  v <- this ;;
  errs <- Parse_loop g 0 (vars v) [] ;;
  if (List.length errs =? 0)%nat then ret None else ret (Some errs).

End Env.

(** ** Package env: the default registry *)

(** [CmdName()] as the package sets it, for the program path
    [os.Args[0]]. *)
Definition CmdName (args0 : string) : string := path.Base args0.

(** [CmdVar]: the registry the package-level functions work on. *)
Definition CmdVar `{UnicodeTables} (args0 : string) : VarSet := NewVarSet (CmdName args0).

(** ** Reference points for the statements *)

(** The fully-qualified name of a variable declared as [N] under the
    prefix [P]. *)
Definition qualified (P N : string) : string :=
  if (P =? "")%string then N else P ++ "_" ++ N.

(** The byte map that turns a hyphen into an underscore. *)
Definition dash_to_underscore (c : ascii) : ascii :=
  if Ascii.eqb c "-" then "_"%char else c.

(** The non-nil entries of an aggregate, in order. *)
Definition non_nil (me : Errors) : list error := omap id me.

(** The error [Parse] records for a variable that was not found, and for
    one whose [Set] failed with [err]. *)
Definition missing_error (x : Var) : error :=
  errorString ("missing env " ++ Name x).

Definition set_error `{UnicodeTables} (x : Var) (err : error) : error :=
  errorString ("could not set env " ++ Name x ++ ": " ++ strconv.Error err).

(** What one variable contributes to a pass, after the specification's
    steps 1 to 3: the calls made, the error recorded if any, and the
    store afterwards. *)
Definition attempt `{UnicodeTables} (g : Getter) (i : nat) (x : Var) (h : store)
  : list event * option error * store :=
  let '(z, ok) := g (Name x) in
  if ok then
    let '(h', r) := Value_Set (Var_Value x) z h in
    ([EvGet i (Name x); EvSet i z], option_map (set_error x) r, h')
  else ([EvGet i (Name x)], Some (missing_error x), h).

(** A pass after the specification: every variable attempted once, in
    order, whatever the outcome of the ones before it. *)
Fixpoint pass `{UnicodeTables} (g : Getter) (i : nat) (xs : list Var) (h : store)
  : list event * list (option error) * store :=
  match xs with
  | [] => ([], [], h)
  | x :: xs' =>
    let '(evs, r, h') := attempt g i x h in
    let '(evs', rs, h'') := pass g (S i) xs' h' in
    ((evs ++ evs')%list, r :: rs, h'')
  end.

(** The lookups among the calls of a pass, and the indices of the
    variables whose [Set] was called. *)
Definition lookups (evs : list event) : list (nat * string) :=
  omap (fun e => match e with EvGet i key => Some (i, key) | EvSet _ _ => None end) evs.

Definition set_calls (evs : list event) : list nat :=
  omap (fun e => match e with EvSet i _ => Some i | EvGet _ _ => None end) evs.

(** The store after the [Set] calls of a pass and nothing else. *)
Definition after_sets (g : Getter) (xs : list Var) (h : store) : store :=
  fold_left (fun h x => let '(z, ok) := g (Name x) in
                        if ok then fst (Value_Set (Var_Value x) z h) else h) xs h.

(** The method [m] declares one variable: it leaves the name and the
    prefix of the registry alone and appends one variable, whose name is
    [N] qualified by the prefix and whose usage text is [usage]. *)
Definition registers {A} (m : M A) (N usage : string) : Prop :=
  forall w : world, exists value : Value,
    registry (snd (m w)) =
      {| name := name (registry w);
         prefix := prefix (registry w);
         vars := (vars (registry w)
                  ++ [{| Name := qualified (prefix (registry w)) N;
                         Usage := usage;
                         Var_Value := value |}])%list |}.

(** The number of hyphens of a string. *)
Fixpoint hyphens (s : string) : nat :=
  match s with
  | EmptyString => O
  | String c t => if Ascii.eqb c "-" then S (hyphens t) else hyphens t
  end.

(** [k] decimal digits of [f], zeros included, in front of [acc]. *)
Fixpoint frac_digits (k : nat) (f : Z) (acc : string) : string :=
  match k with
  | O => acc
  | S k' => frac_digits k' (f / 10) (String (chr (f mod 10 + 48)) acc)
  end.

(** The scale after [k] digits of a fraction. *)
Definition scale_after (k : nat) (scale : float64.t) : float64.t :=
  Nat.iter k (fun s => float64.mul s (float64.of_int 10)) scale.

(** A byte that ends a unit: a digit or the decimal point. *)
Definition ends_unit (c : ascii) : bool := Ascii.eqb c "." || time.is_digit c.

(** The text after a unit: nothing, or the next number. *)
Definition after_unit (rest : string) : bool :=
  match rest with
  | EmptyString => true
  | String c _ => ends_unit c
  end.

(** One group of a rendered duration: an integer [v], an optional
    fraction of [k] digits worth [f], the unit, and what follows. *)
Definition group (v : Z) (fr : option (nat * Z)) (ustr rest : string) : string :=
  time.fmtInt v
    match fr with
    | None => ustr ++ rest
    | Some (k, f) => String "." (frac_digits k f (ustr ++ rest))
    end.

Definition group_value (v unit : Z) (p : nat) (fr : option (nat * Z)) : Z :=
  v * unit
  + match fr with
    | None => 0
    | Some (k, f) => f * 10 ^ (Z.of_nat p - Z.of_nat k)
    end.

(** A body that [fmtInt] wrote in front of a unit: it starts with a
    digit and has more than one byte. *)
Definition rendered (body : string) : Prop :=
  exists d0 t, 0 <= d0 < 10 /\ body = String (chr (d0 + 48)) t /\ t <> EmptyString.

(** Tables and predicates for the closed examples, which use ASCII text
    only and never reach a table. *)
Definition example_tables : UnicodeTables :=
  {| isPrintTable := fun _ => false; toUpperTable := fun r => r |}.

Definition example_checks : Checks :=
  {| emptyError := errorString "empty";
     isBindAddr := fun _ => None;
     isDialAddr := fun _ => None;
     isPath := fun _ => None |}.

Definition empty_world (v : VarSet) : world :=
  {| registry := v; heap := []; calls := [] |}.

(** A lookup source that reports every key absent. *)
Definition no_keys (junk : string -> string) : Getter := fun key => (junk key, false).

(** A registry without prefix in which one text variable, PORT, has been
    declared, and that variable. *)
Definition example_world : world :=
  snd (VarSet_String "PORT" "listen port" (empty_world (@NewVarSet example_tables ""))).

Definition example_var : Var :=
  {| Name := "PORT"; Usage := "listen port"; Var_Value := stringValue 0 |}.

(** The reading of the specification's step 2 in which the recorded
    error carries the text [text name]: every registered variable that
    the source does not find has that error among those of the pass. *)
Definition records_missing_as `{UnicodeTables} (text : string -> string)
           (g : Getter) (w : world) : Prop :=
  forall (i : nat) (x : Var),
    vars (registry w) !! i = Some x ->
    snd (g (Name x)) = false ->
    exists errs : Errors,
      fst (VarSet_Parse g w) = Some errs
      /\ In (Some (errorString (text (Name x)))) errs.

(** ** Reference points for the further properties *)

(** A callback for [Visit] that only records what it is shown. *)
Definition observe (ev : Var -> event) (x : Var) : M unit := record (ev x).

(** The calls a pass makes for one variable: the lookup, and the [Set]
    with the text found, if any. *)
Definition calls_for (g : Getter) (i : nat) (x : Var) : list event :=
  let '(z, ok) := g (Name x) in
  if ok then [EvGet i (Name x); EvSet i z] else [EvGet i (Name x)].

(** The value [v] keeps its state in the cell [p] and nowhere else: what
    [Set] writes, if anything, goes to [p], and both that and the error
    depend on the text alone. *)
Definition owns (v : Value) (p : loc) : Prop :=
  exists (f : string -> option cell) (e : string -> option error),
    forall (x : string) (h : store),
      Value_Set v x h = (match f x with Some c => <[p := c]> h | None => h end, e x).

(** [ps] are the handles of the variables of [w], in order: each
    variable owns its cell, the cells exist and no two are the same. *)
Definition handles (w : world) (ps : list loc) : Prop :=
  Forall2 (fun x p => owns (Var_Value x) p /\ (p < List.length (heap w))%nat)
          (vars (registry w)) ps
  /\ NoDup ps.

(** What a pass records for a variable whose [Set] does not read the
    store: it depends on the text the source has for it alone. *)
Definition outcome `{UnicodeTables} (g : Getter) (x : Var) : option error :=
  let '(z, ok) := g (Name x) in
  if ok then option_map (set_error x) (snd (Value_Set (Var_Value x) z []))
  else Some (missing_error x).

(** The words after the first message in the summary of [n] errors. *)
Definition others (n : nat) : string :=
  match n with
  | 0%nat | 1%nat => ""
  | 2%nat => " (and 1 other error)"
  | _ => " (and " ++ strconv.Itoa (Z.of_nat n) ++ " other errors)"
  end.

(** Decimal texts: the bytes are digits, and the number they write. *)
Definition all_digits (s : string) : bool := strings.all_bytes time.is_digit s.

Fixpoint digits_value (s : string) (n : Z) : Z :=
  match s with
  | EmptyString => n
  | String c t => digits_value t (n * 10 + (ord c - 48))
  end.

(** An optional sign in front of at least one digit, and the number
    written, whatever its size. *)
Definition signed_decimal (s : string) : option Z :=
  match s with
  | EmptyString => None
  | String c t =>
    if Ascii.eqb c "-" || Ascii.eqb c "+" then
      if all_digits t && negb (t =? "")%string
      then Some (if Ascii.eqb c "-" then - digits_value t 0 else digits_value t 0)
      else None
    else if all_digits s then Some (digits_value s 0) else None
  end.

(** The states that the typed factories and passes reach from a new
    registry named [nm], with the handles the factories returned and
    the names the variables were declared with, both in the order of
    declaration. *)
Inductive built `{UnicodeTables} `{Checks} (nm : string)
  : world -> list loc -> list string -> Prop :=
| built_new (h : store) (evs : list event) :
    built nm {| registry := NewVarSet nm; heap := h; calls := evs |} [] []
| built_String N usage w ps Ns :
    built nm w ps Ns ->
    built nm (snd (VarSet_String N usage w)) (ps ++ [fst (VarSet_String N usage w)])
          (Ns ++ [N])
| built_StringRequired N usage w ps Ns :
    built nm w ps Ns ->
    built nm (snd (VarSet_StringRequired N usage w)) (ps ++ [fst (VarSet_StringRequired N usage w)])
          (Ns ++ [N])
| built_Int N usage w ps Ns :
    built nm w ps Ns ->
    built nm (snd (VarSet_Int N usage w)) (ps ++ [fst (VarSet_Int N usage w)])
          (Ns ++ [N])
| built_Bool N usage w ps Ns :
    built nm w ps Ns ->
    built nm (snd (VarSet_Bool N usage w)) (ps ++ [fst (VarSet_Bool N usage w)])
          (Ns ++ [N])
| built_Duration N usage w ps Ns :
    built nm w ps Ns ->
    built nm (snd (VarSet_Duration N usage w)) (ps ++ [fst (VarSet_Duration N usage w)])
          (Ns ++ [N])
| built_BindAddr N usage w ps Ns :
    built nm w ps Ns ->
    built nm (snd (VarSet_BindAddr N usage w)) (ps ++ [fst (VarSet_BindAddr N usage w)])
          (Ns ++ [N])
| built_DialAddr N usage w ps Ns :
    built nm w ps Ns ->
    built nm (snd (VarSet_DialAddr N usage w)) (ps ++ [fst (VarSet_DialAddr N usage w)])
          (Ns ++ [N])
| built_Path N usage w ps Ns :
    built nm w ps Ns ->
    built nm (snd (VarSet_Path N usage w)) (ps ++ [fst (VarSet_Path N usage w)])
          (Ns ++ [N])
| built_Parse g w ps Ns :
    built nm w ps Ns ->
    built nm (snd (VarSet_Parse g w)) ps Ns.

(** What a typed factory does to the cells: the handle it returns is the
    place of a new cell after the existing ones, holding [zero]; the
    calls are as before. *)
Definition allocates (m : M loc) (zero : cell) : Prop :=
  forall w : world,
    fst (m w) = List.length (heap w)
    /\ heap (snd (m w)) = (heap w ++ [zero])%list
    /\ calls (snd (m w)) = calls w.

(** One step of [after_sets]: the store after the [Set] of one variable,
    if the source has a text for it. *)
Definition set_found (g : Getter) (h : store) (x : Var) : store :=
  let '(z, ok) := g (Name x) in
  if ok then fst (Value_Set (Var_Value x) z h) else h.

(** The factory [m] declares a variable named [N] whose value is [val]
    at a new cell holding [zero]. *)
Definition declares (m : M loc) (val : loc -> Value) (zero : cell) (N usage : string) : Prop :=
  forall w : world,
    m w = (List.length (heap w),
           {| registry :=
                set_vars (registry w)
                  (vars (registry w)
                   ++ [{| Name := qualified (prefix (registry w)) N; Usage := usage;
                          Var_Value := val (List.length (heap w)) |}])%list;
              heap := (heap w ++ [zero])%list;
              calls := calls w |}).

(** A variable of one of the four plain types whose cell holds a value
    of its type, the numbers within the 64-bit range. *)
Inductive typed `{UnicodeTables} : Value -> store -> Prop :=
| typed_string (p : loc) (h : store) (s : string) :
    h !! p = Some (CString s) -> typed (stringValue p) h
| typed_int (p : loc) (h : store) (n : Z) :
    h !! p = Some (CInt n) -> - 2 ^ 63 <= n < 2 ^ 63 -> typed (intValue p) h
| typed_bool (p : loc) (h : store) (b : bool) :
    h !! p = Some (CBool b) -> typed (boolValue p) h
| typed_duration (p : loc) (h : store) (d : Z) :
    h !! p = Some (CDuration d) -> - 2 ^ 63 <= d < 2 ^ 63 -> typed (durationValue p) h.

(** A text without a slash. *)
Definition slash_free (s : string) : bool :=
  strings.all_bytes (fun c => negb (Ascii.eqb c "/")) s.

(** A registry without prefix in which a text variable, HOST, and an
    integer variable, PORT, have been declared, and a source that has
    "localhost" for the first and "abc" for the second. *)
Definition example_pair : world :=
  snd (@VarSet_Int example_tables "PORT" "listen port"
         (snd (VarSet_String "HOST" "peer" (empty_world (@NewVarSet example_tables ""))))).

Definition example_source : Getter :=
  fun key => if (key =? "HOST")%string then ("localhost", true)
             else if (key =? "PORT")%string then ("abc", true)
             else ("", false).

(** A value from outside the package whose [Set] counts its calls in
    the cell [p]: what it writes depends on what the store holds.  And
    a registry in which one such variable has been declared with
    [Var]. *)
Definition counterValue (p : loc) : Value :=
  {| Value_String := fun h => strconv.Itoa (read_int p h);
     Value_Set := fun _ h => (<[p := CInt (read_int p h + 1)]> h, None) |}.

Definition example_counter : world :=
  snd (VarSet_Var (counterValue 0) "N" "calls"
         {| registry := @NewVarSet example_tables ""; heap := [CInt 0]; calls := [] |}).

(** The registry named my-service after [StringRequired] declared HOST
    and [Int] declared PORT. *)
Definition example_service : world :=
  snd (@VarSet_Int example_tables "PORT" "listen port"
         (snd (@VarSet_StringRequired example_checks "HOST" "peer"
                 (empty_world (@NewVarSet example_tables "my-service"))))).

(** The registry of the program [/usr/bin/my-app] after the
    package-level [String] declared PORT. *)
Definition example_default : world :=
  snd (VarSet_String "PORT" "listen port"
         (empty_world (@CmdVar example_tables "/usr/bin/my-app"))).

(** * Properties *)

Section Aggregate.
Context `{UnicodeTables}.

Lemma Errors_scan_spec (me : Errors) (n : Z) (msg : string) :
  0 <= n ->
  Errors_scan me n msg =
    (n + Z.of_nat (List.length (non_nil me)),
     match non_nil me with
     | e :: _ => if n =? 0 then strconv.Error e else msg
     | [] => msg
     end).
Proof.
  revert n msg. induction me as [|[e|] me IH]; intros n msg Hn; simpl.
  - f_equal. lia.
  - rewrite IH by lia. unfold non_nil; simpl. f_equal; [lia|].
    destruct (omap id me) eqn:E.
    + reflexivity.
    + destruct (Z.eqb_spec (n + 1) 0); [lia|reflexivity].
  - rewrite IH by lia. reflexivity.
Qed.

(** C1 (as the code has it): the summary counts the non-nil entries [n]
    and takes the message of the first of them; it renders "(0 errors)"
    for none, the message itself for one, the message and
    "(and 1 other error)" for two, and for [n > 2] the message and
    "(and n other errors)" -- the count itself, not [n - 1].  Five
    errors render "(and 5 other errors)". *)
Theorem Errors_Error_summary :
  (forall me : Errors,
     Errors_Error me =
       match non_nil me with
       | [] => "(0 errors)"
       | [e] => strconv.Error e
       | [e; _] => strconv.Error e ++ " (and 1 other error)"
       | e :: es =>
         strconv.Error e ++ " (and " ++ strconv.Itoa (Z.of_nat (S (List.length es)))
           ++ " other errors)"
       end)
  /\ (forall e1 e2 e3 e4 e5 : error,
        Errors_Error [Some e1; Some e2; Some e3; Some e4; Some e5]
        = strconv.Error e1 ++ " (and 5 other errors)")
  /\ (forall e1 e2 e3 : error,
        Errors_Error [None; Some e1; None; Some e2; Some e3]
        = strconv.Error e1 ++ " (and 3 other errors)").
Proof.
  split; [|split; reflexivity].
  intros me. unfold Errors_Error. rewrite Errors_scan_spec by lia.
  destruct (non_nil me) as [|e [|e' [|e'' es]]]; try reflexivity.
  cbn [List.length]. 
  replace (0 + Z.of_nat (S (S (S (List.length es))))) with (Z.of_nat (List.length es) + 3) by lia.
  destruct (Z.eqb_spec (Z.of_nat (List.length es) + 3) 0); [lia|].
  destruct (Z.eqb_spec (Z.of_nat (List.length es) + 3) 1); [lia|].
  destruct (Z.eqb_spec (Z.of_nat (List.length es) + 3) 2); [lia|].
  unfold fmt.verb_d, strconv.Itoa. do 3 f_equal. f_equal. lia.
Qed.

End Aggregate.

(** Running a method: unfold the plumbing of [M] and project the state. *)
Ltac run_M :=
  cbv beta iota zeta delta
    [bind ret call_Get call_Set record on_store this set_this new assign];
  cbn [heap registry calls negb fst snd].

Section Resolver.
Context `{UnicodeTables}.

Lemma Parse_loop_pass (g : Getter) (xs : list Var) :
  forall (i : nat) (errs : Errors) (w : world),
    Parse_loop g i xs errs w =
      let '(evs, rs, h') := pass g i xs (heap w) in
      ((errs ++ map Some (omap id rs))%list,
       {| registry := registry w; heap := h'; calls := (calls w ++ evs)%list |}).
Proof.
  induction xs as [|x xs IH]; intros i errs w.
  - simpl. unfold ret. rewrite !app_nil_r. destruct w; reflexivity.
  - cbn [Parse_loop pass]. unfold attempt. run_M.
    destruct (g (Name x)) as [z [|]]; run_M.
    + destruct (Value_Set (Var_Value x) z (heap w)) as [h' [err|]] eqn:E; run_M;
        rewrite IH; run_M;
        destruct (pass g (S i) xs h') as [[evs rs] h'']; cbn [option_map omap];
        rewrite <- !app_assoc; reflexivity.
    + rewrite IH; run_M.
      destruct (pass g (S i) xs (heap w)) as [[evs rs] h'']; cbn [omap].
      rewrite <- !app_assoc. reflexivity.
Qed.

Lemma VarSet_Parse_pass (g : Getter) (w : world) :
  VarSet_Parse g w =
    let '(evs, rs, h') := pass g 0 (vars (registry w)) (heap w) in
    (match omap id rs with [] => None | es => Some (map Some es) end,
     {| registry := registry w; heap := h'; calls := (calls w ++ evs)%list |}).
Proof.
  unfold VarSet_Parse, bind, this. rewrite Parse_loop_pass.
  destruct (pass g 0 (vars (registry w)) (heap w)) as [[evs rs] h'].
  cbn [app heap registry calls]. destruct (omap id rs); reflexivity.
Qed.

Lemma pass_length (g : Getter) (xs : list Var) :
  forall i h, List.length (snd (fst (pass g i xs h))) = List.length xs.
Proof.
  induction xs as [|x xs IH]; intros i h; [reflexivity|].
  cbn [pass]. destruct (attempt g i x h) as [[evs r] h'].
  specialize (IH (S i) h'). destruct (pass g (S i) xs h') as [[evs' rs] h''].
  simpl in *. now rewrite IH.
Qed.

Lemma lookups_app (evs evs' : list event) :
  lookups (evs ++ evs') = (lookups evs ++ lookups evs')%list.
Proof. unfold lookups. apply omap_app. Qed.

Lemma set_calls_app (evs evs' : list event) :
  set_calls (evs ++ evs') = (set_calls evs ++ set_calls evs')%list.
Proof. unfold set_calls. apply omap_app. Qed.

Lemma pass_lookups (g : Getter) (xs : list Var) :
  forall i h,
    lookups (fst (fst (pass g i xs h))) = imap (fun j x => ((i + j)%nat, Name x)) xs.
Proof.
  induction xs as [|x xs IH]; intros i h; [reflexivity|].
  cbn [pass imap]. unfold attempt.
  destruct (g (Name x)) as [z [|]].
  - destruct (Value_Set (Var_Value x) z h) as [h' r].
    specialize (IH (S i) h'). destruct (pass g (S i) xs h') as [[evs' rs] h''].
    cbn [fst snd] in *. rewrite lookups_app, IH. cbn. rewrite Nat.add_0_r. f_equal.
    apply imap_ext. intros j y _. simpl. f_equal. lia.
  - specialize (IH (S i) h). destruct (pass g (S i) xs h) as [[evs' rs] h''].
    cbn [fst snd] in *. rewrite lookups_app, IH. cbn. rewrite Nat.add_0_r. f_equal.
    apply imap_ext. intros j y _. simpl. f_equal. lia.
Qed.

Lemma pass_store (g : Getter) (xs : list Var) :
  forall i h, snd (pass g i xs h) = after_sets g xs h.
Proof.
  unfold after_sets.
  induction xs as [|x xs IH]; intros i h; [reflexivity|].
  cbn [pass fold_left]. unfold attempt.
  destruct (g (Name x)) as [z [|]].
  - destruct (Value_Set (Var_Value x) z h) as [h' r].
    specialize (IH (S i) h'). destruct (pass g (S i) xs h') as [[evs' rs] h''].
    cbn [fst snd] in *. exact IH.
  - specialize (IH (S i) h). destruct (pass g (S i) xs h) as [[evs' rs] h''].
    cbn [fst snd] in *. exact IH.
Qed.

Lemma pass_no_keys (junk : string -> string) (xs : list Var) :
  forall i h,
    pass (no_keys junk) i xs h =
      (imap (fun j x => EvGet (i + j) (Name x)) xs,
       map (fun x => Some (missing_error x)) xs, h).
Proof.
  induction xs as [|x xs IH]; intros i h; [reflexivity|].
  cbn [pass imap map]. unfold attempt. cbn [no_keys]. rewrite IH.
  cbn. rewrite Nat.add_0_r. do 3 f_equal.
  apply imap_ext. intros j y _. simpl. f_equal. lia.
Qed.

Lemma omap_id_map_Some {A} (l : list A) : omap id (map Some l) = l.
Proof. induction l as [|a l IH]; [reflexivity|]. cbn. f_equal. exact IH. Qed.

(** C3: a pass looks up every registered variable exactly once, in
    registration order, whatever the outcomes before it; it records one
    error per failing variable, in that order; it returns nil exactly
    when no error was recorded; and against a source that misses every
    key the errors are as many as the variables, each naming its own. *)
Theorem Parse_attempts_every_variable (g : Getter) (w : world) :
  let xs := vars (registry w) in
  let evs := fst (fst (pass g 0 xs (heap w))) in
  let rs := snd (fst (pass g 0 xs (heap w))) in
  VarSet_Parse g w =
    (match non_nil rs with [] => None | es => Some (map Some es) end,
     {| registry := registry w;
        heap := snd (pass g 0 xs (heap w));
        calls := (calls w ++ evs)%list |})
  /\ lookups evs = imap (fun i x => (i, Name x)) xs
  /\ List.length rs = List.length xs
  /\ (fst (VarSet_Parse g w) = None <-> non_nil rs = [])
  /\ (forall junk : string -> string,
        fst (VarSet_Parse (no_keys junk) w) =
          match xs with
          | [] => None
          | _ => Some (map (fun x => Some (missing_error x)) xs)
          end
        /\ List.length (map (fun x => Some (missing_error x)) xs) = List.length xs).
Proof.
  intros xs evs rs. subst xs evs rs.
  pose proof (VarSet_Parse_pass g w) as E.
  destruct (pass g 0 (vars (registry w)) (heap w)) as [[evs rs] h'] eqn:P.
  cbn [fst snd]. split; [exact E|]. split.
  - pose proof (pass_lookups g (vars (registry w)) 0 (heap w)) as L.
    rewrite P in L. exact L.
  - split.
    + pose proof (pass_length g (vars (registry w)) 0 (heap w)) as L.
      rewrite P in L. exact L.
    + split.
      * rewrite E. cbn [fst]. unfold non_nil. destruct (omap id rs); split.
        all: intros; try reflexivity; discriminate.
      * intros junk. rewrite VarSet_Parse_pass, pass_no_keys. cbn [fst].
        rewrite length_map. split; [|reflexivity].
        change (fun x : Var => Some (missing_error x)) with (Some ∘ missing_error).
        rewrite <- (map_map missing_error Some), omap_id_map_Some.
        destruct (vars (registry w)); reflexivity.
Qed.

Lemma pass_set_calls (g : Getter) (xs : list Var) :
  forall i h k,
    In k (set_calls (fst (fst (pass g i xs h)))) ->
    exists j x, k = (i + j)%nat /\ xs !! j = Some x /\ snd (g (Name x)) = true.
Proof.
  induction xs as [|x xs IH]; intros i h k; [intros []|].
  cbn [pass]. unfold attempt.
  destruct (g (Name x)) as [z ok] eqn:G. destruct ok.
  - destruct (Value_Set (Var_Value x) z h) as [h' r].
    specialize (IH (S i) h' k). destruct (pass g (S i) xs h') as [[evs' rs] h''].
    cbn [fst snd] in *. rewrite set_calls_app. cbn. intros [<-|Hk].
    + exists 0%nat, x. rewrite G. repeat split. lia.
    + destruct (IH Hk) as (j & y & -> & Hy & Hg). exists (S j), y. repeat split; [lia|assumption..].
  - specialize (IH (S i) h k). destruct (pass g (S i) xs h) as [[evs' rs] h''].
    cbn [fst snd] in *. rewrite set_calls_app. cbn. intros Hk.
    destruct (IH Hk) as (j & y & -> & Hy & Hg). exists (S j), y. repeat split; [lia|assumption..].
Qed.

Lemma pass_missing (g : Getter) (xs : list Var) :
  forall i h j x,
    xs !! j = Some x -> snd (g (Name x)) = false ->
    snd (fst (pass g i xs h)) !! j = Some (Some (missing_error x)).
Proof.
  induction xs as [|y xs IH]; intros i h j x Hx Hg; [discriminate|].
  cbn [pass]. unfold attempt. destruct j as [|j]; cbn in Hx.
  - injection Hx as ->. destruct (g (Name x)) as [z ok]. cbn in Hg. subst ok.
    destruct (pass g (S i) xs h) as [[evs' rs] h'']. reflexivity.
  - destruct (g (Name y)) as [z [|]].
    + destruct (Value_Set (Var_Value y) z h) as [h' r].
      specialize (IH (S i) h' j x Hx Hg). destruct (pass g (S i) xs h') as [[evs' rs] h''].
      exact IH.
    + specialize (IH (S i) h j x Hx Hg). destruct (pass g (S i) xs h) as [[evs' rs] h''].
      exact IH.
Qed.

Lemma non_nil_lookup (rs : list (option error)) (j : nat) (e : error) :
  rs !! j = Some (Some e) -> In e (non_nil rs).
Proof.
  revert j. induction rs as [|r rs IH]; intros j Hj; [discriminate|].
  destruct j as [|j]; cbn in Hj.
  - injection Hj as ->. left. reflexivity.
  - unfold non_nil. destruct r; cbn; [right|]; exact (IH j Hj).
Qed.

(** C2 (amended): for every registered variable whose name the lookup
    source reports as not found, the pass records the error
    "missing env <name>" for that variable and does not call the
    variable's [Set]. *)
Theorem missing_variable_recorded (g : Getter) (w : world) (i : nat) (x : Var) :
  vars (registry w) !! i = Some x ->
  snd (g (Name x)) = false ->
  let evs := fst (fst (pass g 0 (vars (registry w)) (heap w))) in
  let rs := snd (fst (pass g 0 (vars (registry w)) (heap w))) in
  (exists errs, fst (VarSet_Parse g w) = Some errs
                /\ In (Some (errorString ("missing env " ++ Name x))) errs)
  /\ rs !! i = Some (Some (errorString ("missing env " ++ Name x)))
  /\ calls (snd (VarSet_Parse g w)) = (calls w ++ evs)%list
  /\ ~ In i (set_calls evs).
Proof.
  intros Hx Hg evs rs.
  pose proof (pass_missing g _ 0 (heap w) i x Hx Hg) as Hr. fold rs in Hr.
  pose proof (non_nil_lookup _ _ _ Hr) as Hin.
  pose proof (VarSet_Parse_pass g w) as E.
  destruct (pass g 0 (vars (registry w)) (heap w)) as [[evs0 rs0] h'] eqn:P.
  cbn [fst snd] in evs, rs. subst evs rs. rewrite E. cbn [fst snd calls].
  fold (non_nil rs0).
  split; [|split; [exact Hr|split; [reflexivity|]]].
  - destruct (non_nil rs0) as [|e es] eqn:N; [destruct Hin|].
    eexists. split; [reflexivity|]. apply in_map. exact Hin.
  - intros Hk. pose proof (pass_set_calls g (vars (registry w)) 0 (heap w) i) as S.
    rewrite P in S. destruct (S Hk) as (j & y & -> & Hy & Hgy).
    cbn in Hx. rewrite Hx in Hy. injection Hy as <-. congruence.
Qed.

Lemma Forall_map_Some {A} (l : list A) : Forall is_Some (map Some l).
Proof. induction l; constructor; eauto. Qed.

Lemma non_nil_map_Some (es : list error) : non_nil (map Some es) = es.
Proof. apply omap_id_map_Some. Qed.

(** C9: an aggregate returned by a pass has no nil entry: the count of
    non-nil entries that the summary computes is the length of the
    aggregate, which is not empty. *)
Theorem Parse_errors_non_nil (g : Getter) (w : world) (errs : Errors) :
  fst (VarSet_Parse g w) = Some errs ->
  Forall is_Some errs
  /\ non_nil errs <> []
  /\ List.length (non_nil errs) = List.length errs
  /\ fst (Errors_scan errs 0 "") = Z.of_nat (List.length errs).
Proof.
  rewrite VarSet_Parse_pass.
  destruct (pass g 0 (vars (registry w)) (heap w)) as [[evs rs] h'].
  cbn [fst]. destruct (omap id rs) as [|e es] eqn:N; [discriminate|].
  intros [= <-]. rewrite Errors_scan_spec by lia. cbn [fst].
  change (Some e :: map Some es) with (map Some (e :: es)).
  rewrite non_nil_map_Some, length_map.
  repeat split; [apply Forall_map_Some|discriminate].
Qed.

(** C10: a pass leaves the registry as it was -- name, prefix, the
    sequence of variables and with it every variable's name and usage --
    and the store after it is the store after the [Set] calls of the
    variables that were found, in order: nothing else writes a cell. *)
Theorem Parse_leaves_registry (g : Getter) (w : world) :
  registry (snd (VarSet_Parse g w)) = registry w
  /\ name (registry (snd (VarSet_Parse g w))) = name (registry w)
  /\ prefix (registry (snd (VarSet_Parse g w))) = prefix (registry w)
  /\ map (fun x => (Name x, Usage x)) (vars (registry (snd (VarSet_Parse g w))))
     = map (fun x => (Name x, Usage x)) (vars (registry w))
  /\ heap (snd (VarSet_Parse g w)) = after_sets g (vars (registry w)) (heap w).
Proof.
  rewrite VarSet_Parse_pass.
  pose proof (pass_store g (vars (registry w)) 0 (heap w)) as S.
  destruct (pass g 0 (vars (registry w)) (heap w)) as [[evs rs] h'].
  cbn [fst snd registry heap] in *. subst h'. repeat split.
Qed.

End Resolver.

Section Registry.
Context `{UnicodeTables} `{Checks}.

Lemma append_assoc3 (a b c : string) : ((a ++ b) ++ c = a ++ b ++ c)%string.
Proof. induction a as [|x a IH]; simpl; [reflexivity|]. now rewrite IH. Qed.

Lemma qualified_eq (P N : string) :
  ((if negb (P =? "") then P ++ "_" else "") ++ N)%string = qualified P N.
Proof.
  unfold qualified. destruct (P =? "")%string; cbn [negb]; [reflexivity|].
  apply append_assoc3.
Qed.

Lemma VarSet_Var_registers (value : Value) (N usage : string) :
  registers (VarSet_Var value N usage) N usage.
Proof.
  intros w. exists value. unfold VarSet_Var, set_vars. run_M.
  rewrite qualified_eq. reflexivity.
Qed.

(** Declaring after a step that leaves the registry alone. *)
Lemma registers_after {A B} (m : M A) (k : A -> M B) (N usage : string) :
  (forall w, registry (snd (m w)) = registry w) ->
  (forall a, registers (k a) N usage) ->
  registers (bind m k) N usage.
Proof.
  intros Hm Hk w. unfold bind. specialize (Hm w).
  destruct (m w) as [a w1]. cbn [snd] in Hm.
  destruct (Hk a w1) as [value E]. exists value. rewrite E, Hm. reflexivity.
Qed.

Lemma registers_then_ret {A} (m : M unit) (a : A) (N usage : string) :
  registers m N usage -> registers (bind m (fun _ => ret a)) N usage.
Proof.
  intros Hm w. destruct (Hm w) as [value E]. exists value.
  unfold bind, ret. destruct (m w) as [u w1]. exact E.
Qed.

Ltac declare_tac :=
  apply registers_after; [intros w; reflexivity|intros p];
  apply registers_after; [intros w; reflexivity|intros value];
  apply registers_then_ret, VarSet_Var_registers.

(** C4: every variable declared through a registry with prefix [P]
    under the name [N] is registered with the name [P ++ "_" ++ N] when
    [P] is not empty and with [N] when it is, by [Var] and by each typed
    factory; declaring leaves the prefix as it was, and so does a pass. *)
Theorem declared_name_is_qualified (N usage : string) :
  (forall P : string, qualified P N = if (P =? "")%string then N else (P ++ "_" ++ N)%string)
  /\ (forall value : Value, registers (VarSet_Var value N usage) N usage)
  /\ registers (VarSet_String N usage) N usage
  /\ registers (VarSet_StringRequired N usage) N usage
  /\ registers (VarSet_Int N usage) N usage
  /\ registers (VarSet_Bool N usage) N usage
  /\ registers (VarSet_Duration N usage) N usage
  /\ registers (VarSet_BindAddr N usage) N usage
  /\ registers (VarSet_DialAddr N usage) N usage
  /\ registers (VarSet_Path N usage) N usage
  /\ (forall (g : Getter) (w : world),
        prefix (registry (snd (VarSet_Parse g w))) = prefix (registry w)).
Proof.
  split; [reflexivity|].
  split; [intros value; apply VarSet_Var_registers|].
  repeat (split; [declare_tac|]).
  intros g w. rewrite VarSet_Parse_pass.
  destruct (pass g 0 (vars (registry w)) (heap w)) as [[evs rs] h']. reflexivity.
Qed.

End Registry.

Section Prefix.
Context `{UnicodeTables}.

Lemma prefix_hyphen (c : ascii) (t : string) :
  String.prefix "-" (String c t) = Ascii.eqb c "-".
Proof.
  cbn [String.prefix]. destruct (ascii_dec "-" c) as [<-|Hne].
  - destruct t; reflexivity.
  - symmetry. apply Ascii.eqb_neq. congruence.
Qed.

Lemma Index_hyphen_cons (c : ascii) (t : string) :
  strings.Index (String c t) "-" =
    if Ascii.eqb c "-" then 0
    else if strings.Index t "-" <? 0 then -1 else strings.Index t "-" + 1.
Proof. cbn [strings.Index]. rewrite prefix_hyphen. reflexivity. Qed.

Lemma Index_hyphen_nil : strings.Index "" "-" = -1.
Proof. reflexivity. Qed.

(** Where the first hyphen is, and what is left after it. *)
Lemma Index_hyphen_spec (s : string) :
  (strings.Index s "-" = -1 /\ hyphens s = 0%nat
   /\ strings.map_bytes dash_to_underscore s = s)
  \/ (exists i : nat,
        strings.Index s "-" = Z.of_nat i /\ (i < String.length s)%nat
        /\ hyphens s = S (hyphens (drop_bytes (S i) s))
        /\ strings.map_bytes dash_to_underscore s =
             (take_bytes i s ++ "_"
              ++ strings.map_bytes dash_to_underscore (drop_bytes (S i) s))%string).
Proof.
  induction s as [|c t IH].
  - left. repeat split.
  - rewrite Index_hyphen_cons. cbn [hyphens strings.map_bytes]. unfold dash_to_underscore at 1 3.
    destruct (Ascii.eqb c "-") eqn:E.
    + right. exists 0%nat. cbn. repeat split. lia.
    + destruct IH as [(I & Hh & Hm)|(i & I & Hi & Hh & Hm)].
      * left. rewrite I. cbn. rewrite Hm. repeat split. exact Hh.
      * right. exists (S i). rewrite I.
        destruct (Z.ltb_spec (Z.of_nat i) 0); [lia|].
        cbn [String.length drop_bytes take_bytes]. rewrite Hm at 1.
        repeat split; [lia|lia|exact Hh].
Qed.

Lemma length_drop_bytes (n : nat) (s : string) :
  String.length (drop_bytes n s) = (String.length s - n)%nat.
Proof.
  revert s. induction n as [|n IH]; intros [|c t]; cbn; try reflexivity. apply IH.
Qed.

Lemma Count_loop_hyphen (fuel : nat) :
  forall (s : string) (n : Z),
    (String.length s < fuel)%nat ->
    strings.Count_loop fuel s "-" n = n + Z.of_nat (hyphens s).
Proof.
  induction fuel as [|fuel IH]; intros s n Hlen; [lia|].
  cbn [strings.Count_loop].
  destruct (Index_hyphen_spec s) as [(I & Hh & _)|(i & I & Hi & Hh & _)]; rewrite I.
  - cbn. rewrite Hh. lia.
  - destruct (Z.eqb_spec (Z.of_nat i) (-1)); [lia|].
    replace (Z.to_nat (Z.of_nat i + len "-")) with (S i) by (change (len "-") with 1; lia).
    rewrite IH by (rewrite length_drop_bytes; lia). rewrite Hh. lia.
Qed.

Lemma Replace_loop_hyphen (n : nat) :
  forall s : string,
    hyphens s = n ->
    strings.Replace_loop n s "-" "_" = strings.map_bytes dash_to_underscore s.
Proof.
  induction n as [|n IH]; intros s Hn; cbn [strings.Replace_loop];
    destruct (Index_hyphen_spec s) as [(I & Hh & Hm)|(i & I & Hi & Hh & Hm)];
    try congruence.
  rewrite I. replace (Z.to_nat (Z.of_nat i + len "-")) with (S i) by (change (len "-") with 1; lia).
  rewrite Nat2Z.id, IH by congruence. symmetry. exact Hm.
Qed.

Lemma Replace_hyphen (s : string) :
  strings.Replace s "-" "_" (-1) = strings.map_bytes dash_to_underscore s.
Proof.
  unfold strings.Replace, strings.Count. cbn [String.eqb Ascii.eqb Bool.eqb orb Z.eqb].
  rewrite Count_loop_hyphen by lia. rewrite Z.add_0_l.
  destruct (Z.eqb_spec (Z.of_nat (hyphens s)) 0) as [E|E].
  - destruct (Index_hyphen_spec s) as [(_ & _ & Hm)|(i & _ & _ & Hh & _)]; [now rewrite Hm|lia].
  - cbn [Z.ltb Z.compare orb]. rewrite Nat2Z.id. apply Replace_loop_hyphen. reflexivity.
Qed.

Lemma map_upper_no_lower (s : string) :
  strings.all_bytes (fun c => negb (strings.is_lower c)) s = true ->
  strings.map_bytes strings.upper_byte s = s.
Proof.
  induction s as [|c t IH]; cbn; [reflexivity|].
  intros [Hc Ht]%andb_prop. unfold strings.upper_byte at 1.
  destruct (strings.is_lower c); [discriminate|]. now rewrite IH.
Qed.

(** C8: the prefix of a new registry is its name upper-cased with every
    hyphen replaced by an underscore; upper-casing an ASCII name maps
    each lower-case letter to its capital and keeps the other bytes; the
    empty name gives the empty prefix and "my-service" gives
    "MY_SERVICE". *)
Theorem NewVarSet_prefix :
  (forall nm : string,
     prefix (NewVarSet nm) = strings.map_bytes dash_to_underscore (strings.ToUpper nm)
     /\ name (NewVarSet nm) = nm
     /\ vars (NewVarSet nm) = []
     /\ strings.ToUpper nm =
          if strings.all_bytes (fun c => ord c <? 128) nm
          then strings.map_bytes strings.upper_byte nm
          else strings.Map strings.unicode_ToUpper nm)
  /\ prefix (NewVarSet "") = ""
  /\ prefix (NewVarSet "my-service") = "MY_SERVICE".
Proof.
  split; [|split; reflexivity].
  intros nm. cbn [NewVarSet prefix name vars]. rewrite Replace_hyphen.
  repeat split. unfold strings.ToUpper.
  change utf8.RuneSelf with 128.
  destruct (strings.all_bytes (fun c => ord c <? 128) nm); [|reflexivity].
  destruct (strings.all_bytes (fun c => negb (strings.is_lower c)) nm) eqn:E; [|reflexivity].
  cbn [negb]. symmetry. apply map_upper_no_lower, E.
Qed.

End Prefix.

Section Checked.
Context `{Checks}.

Lemma read_string_insert (p : loc) (x : string) (h : store) :
  (p < List.length h)%nat -> read_string p (<[p := CString x]> h) = x.
Proof. intros Hp. unfold read_string. now rewrite list_lookup_insert_eq. Qed.

(** C5: a checked value runs its predicate on the raw text first.  On an
    input the predicate rejects, [Set] returns the predicate's error and
    the store is the one before the call; on an input it accepts, [Set]
    is the wrapped value's [Set], result and store.  The variable that
    [StringRequired] registers wraps a text value in the non-empty check:
    on the empty text it fails and its cell keeps its content, on "x" it
    succeeds and the cell holds "x". *)
Theorem checked_value_checks_first :
  (forall (v : checkedValue) (x : string) (h : store),
     match fn v x with
     | Some err => Value_Set (checkedValue_Value v) x h = (h, Some err)
     | None => Value_Set (checkedValue_Value v) x h = Value_Set (checked v) x h
     end)
  /\ (forall (N usage : string) (w : world),
        let p := fst (VarSet_StringRequired N usage w) in
        let w' := snd (VarSet_StringRequired N usage w) in
        let v := checkedValue_Value {| fn := isNonEmpty; checked := stringValue p |} in
        last (vars (registry w')) =
          Some {| Name := qualified (prefix (registry w)) N; Usage := usage; Var_Value := v |}
        /\ (p < List.length (heap w'))%nat
        /\ (forall h : store, Value_Set v "" h = (h, Some emptyError))
        /\ (forall h : store, Value_Set v "x" h = (<[p := CString "x"]> h, None))
        /\ (forall prior : string,
              let h := <[p := CString prior]> (heap w') in
              read_string p (fst (Value_Set v "" h)) = prior
              /\ read_string p (fst (Value_Set v "x" h)) = "x")).
Proof.
  split.
  - intros v x h. cbn [Value_Set checkedValue_Value]. unfold checkedValue_Set.
    destruct (fn v x); reflexivity.
  - intros N usage w p w' v. subst p w' v.
    unfold VarSet_StringRequired, newStringValue, VarSet_Var, set_vars. run_M.
    cbn [vars]. rewrite qualified_eq, last_snoc, length_insert, length_app. cbn [List.length].
    split; [reflexivity|]. split; [lia|]. split; [reflexivity|]. split; [reflexivity|].
    intros prior. cbn [Value_Set checkedValue_Value]. unfold checkedValue_Set.
    cbn [fn checked isNonEmpty len String.length Z.of_nat Z.eqb fst Value_Set stringValue].
    unfold stringValue_Set. cbn [fst].
    split; apply read_string_insert; rewrite !length_insert, length_app;
      cbn [List.length]; lia.
Qed.

End Checked.

Section SetThenReport.
Context `{UnicodeTables}.

Lemma ParseInt_range_value (s0 : string) (neg : bool) (un : Z) (e : error) :
  snd (strconv.ParseInt_range s0 neg un 0) = Some e ->
  fst (strconv.ParseInt_range s0 neg un 0) = 2 ^ 63 - 1
  \/ fst (strconv.ParseInt_range s0 neg un 0) = - 2 ^ 63.
Proof.
  unfold strconv.ParseInt_range.
  change (if 0 =? 0 then strconv.IntSize else 0) with 64.
  change (2 ^ (64 - 1)) with (2 ^ 63).
  destruct (negb neg && (2 ^ 63 <=? un)); [intros _; left; reflexivity|].
  destruct (neg && (2 ^ 63 <? un)); [intros _; right; reflexivity|discriminate].
Qed.

Lemma ParseInt_error_value (s : string) (e : error) :
  snd (strconv.ParseInt s 10 0) = Some e ->
  fst (strconv.ParseInt s 10 0) = 0
  \/ fst (strconv.ParseInt s 10 0) = 2 ^ 63 - 1
  \/ fst (strconv.ParseInt s 10 0) = - 2 ^ 63.
Proof.
  unfold strconv.ParseInt. destruct s as [|c t]; [intros _; left; reflexivity|].
  destruct (if Ascii.eqb c "+" then (false, t)
            else if Ascii.eqb c "-" then (true, t) else (false, String c t)) as [neg s'].
  destruct (strconv.ParseUint s' 10 0) as [un [[m|fn' num e']|]].
  - intros _. left. reflexivity.
  - destruct (negb (strconv.is_ErrRange e')); [intros _; left; reflexivity|].
    intros E. right. exact (ParseInt_range_value _ _ _ _ E).
  - intros E. right. exact (ParseInt_range_value _ _ _ _ E).
Qed.

Lemma Atoi_error_value (x : string) (e : error) :
  snd (strconv.Atoi x) = Some e ->
  fst (strconv.Atoi x) = 0
  \/ fst (strconv.Atoi x) = 2 ^ 63 - 1
  \/ fst (strconv.Atoi x) = - 2 ^ 63.
Proof.
  unfold strconv.Atoi. destruct ((0 <? len x) && (len x <? 19)).
  - destruct x as [|c t]; [intros _; left; reflexivity|].
    destruct ((Ascii.eqb c "-" || Ascii.eqb c "+")
              && (len (if Ascii.eqb c "-" || Ascii.eqb c "+" then t else String c t) <? 1));
      [intros _; left; reflexivity|].
    destruct (strconv.Atoi_fast _ 0); [discriminate|intros _; left; reflexivity].
  - pose proof (ParseInt_error_value x) as P.
    destruct (strconv.ParseInt x 10 0) as [i64 [[m|fn' num e']|]]; cbn [fst snd] in *.
    + intros _. eapply P. reflexivity.
    + intros _. eapply P. reflexivity.
    + discriminate.
Qed.

Lemma intValue_Set_store (p : loc) (x : string) (h : store) :
  fst (intValue_Set p x h) = <[p := CInt (fst (strconv.Atoi x))]> h
  /\ (snd (intValue_Set p x h) = None <-> snd (strconv.Atoi x) = None).
Proof.
  unfold intValue_Set. destruct (strconv.Atoi x) as [n [[m|fn' num e']|]]; cbn [fst snd];
    split; try reflexivity; split; intros; (reflexivity || discriminate).
Qed.




(** The text [parsing "abc": invalid syntax]. *)
Lemma abc_message :
  ("parsing " ++ strconv.Quote "abc" ++ ": " ++ strconv.Error strconv.ErrSyntax)%string
  = ("parsing " ++ String dquote ("abc" ++ String dquote ": invalid syntax"))%string.
Proof. reflexivity. Qed.


End SetThenReport.

(** ** Exact float64 arithmetic on small integers *)

Section Float64.

Lemma digits2_pos_bounds (p : positive) :
  2 ^ (Zpos (digits2_pos p) - 1) <= Zpos p < 2 ^ Zpos (digits2_pos p).
Proof.
  induction p as [p IH|p IH|]; cbn [digits2_pos].
  - rewrite Pos2Z.inj_succ. replace (Z.succ (Zpos (digits2_pos p)) - 1) with (Z.succ (Zpos (digits2_pos p) - 1)) by lia.
    rewrite !Z.pow_succ_r by lia. lia.
  - rewrite Pos2Z.inj_succ. replace (Z.succ (Zpos (digits2_pos p)) - 1) with (Z.succ (Zpos (digits2_pos p) - 1)) by lia.
    rewrite !Z.pow_succ_r by lia. lia.
  - cbn. lia.
Qed.

Lemma digits2_pos_unique (p : positive) (d : Z) :
  2 ^ (d - 1) <= Zpos p < 2 ^ d -> Zpos (digits2_pos p) = d.
Proof.
  intros [Hlo Hhi]. pose proof (digits2_pos_bounds p) as [Blo Bhi].
  assert (0 < d). { destruct (Z.lt_ge_cases 0 d); [assumption|]. 
    assert (2 ^ d <= 2 ^ 0) by (destruct (Z.eq_dec d 0) as [->|]; [lia|rewrite Z.pow_neg_r by lia; simpl; lia]). simpl in *. lia. }
  destruct (Z.lt_trichotomy (Zpos (digits2_pos p)) d) as [L|[E|G]]; [|exact E|].
  - assert (2 ^ Zpos (digits2_pos p) <= 2 ^ (d - 1)) by (apply Z.pow_le_mono_r; lia). lia.
  - assert (2 ^ d <= 2 ^ (Zpos (digits2_pos p) - 1)) by (apply Z.pow_le_mono_r; lia). lia.
Qed.

Lemma iter_pos_nat {A} (f : A -> A) (p : positive) (x : A) :
  SpecFloat.iter_pos f p x = Nat.iter (Pos.to_nat p) f x.
Proof.
  revert x. induction p as [p IH|p IH|]; intros x; cbn [SpecFloat.iter_pos].
  - rewrite !IH, Pos2Nat.inj_xI.
    replace (S (2 * Pos.to_nat p)) with (Pos.to_nat p + (Pos.to_nat p + 1))%nat by lia.
    rewrite !Nat.iter_add. reflexivity.
  - rewrite !IH, Pos2Nat.inj_xO.
    replace (2 * Pos.to_nat p)%nat with (Pos.to_nat p + Pos.to_nat p)%nat by lia.
    rewrite Nat.iter_add. reflexivity.
  - reflexivity.
Qed.

Lemma shr_1_double (m : Z) :
  0 < m ->
  shr_1 {| shr_m := 2 * m; shr_r := false; shr_s := false |}
  = {| shr_m := m; shr_r := false; shr_s := false |}.
Proof. destruct m; intros; (reflexivity || lia). Qed.

Lemma shr_exact (n : nat) (m : Z) :
  0 < m ->
  Nat.iter n shr_1 {| shr_m := m * 2 ^ Z.of_nat n; shr_r := false; shr_s := false |}
  = {| shr_m := m; shr_r := false; shr_s := false |}.
Proof.
  intros Hm. induction n as [|n IH].
  - cbn [Z.of_nat]. rewrite Z.pow_0_r, Z.mul_1_r. reflexivity.
  - rewrite Nat.iter_succ_r.
    replace (m * 2 ^ Z.of_nat (S n)) with (2 * (m * 2 ^ Z.of_nat n))
      by (rewrite Nat2Z.inj_succ, Z.pow_succ_r by lia; lia).
    rewrite shr_1_double by (apply Z.mul_pos_pos; [lia|apply Z.pow_pos_nonneg; lia]).
    exact IH.
Qed.

(** Rounding a number that fits: [M] has exactly 53 bits and [s] zeros
    follow it. *)
Lemma binary_round_aux_exact (M : positive) (s : nat) (e : Z) :
  Zpos (digits2_pos M) = 53 ->
  -1074 <= e + Z.of_nat s <= 971 ->
  binary_round_aux 53 1024 false (Zpos M * 2 ^ Z.of_nat s) e loc_Exact
  = S754_finite false M (e + Z.of_nat s).
Proof.
  intros HM He.
  assert (Hpos : 0 < Zpos M * 2 ^ Z.of_nat s)
    by (apply Z.mul_pos_pos; [lia|apply Z.pow_pos_nonneg; lia]).
  destruct (Zpos M * 2 ^ Z.of_nat s) as [|m|m] eqn:Em; try lia.
  assert (Hd : Zpos (digits2_pos m) = 53 + Z.of_nat s).
  { apply digits2_pos_unique. rewrite <- Em.
    pose proof (digits2_pos_bounds M) as B. rewrite HM in B.
    replace (53 + Z.of_nat s - 1) with (52 + Z.of_nat s) by lia.
    rewrite !Z.pow_add_r by lia. change (53 - 1) with 52 in B.
    assert (0 < 2 ^ Z.of_nat s) by (apply Z.pow_pos_nonneg; lia). nia. }
  unfold binary_round_aux, shr_fexp. cbn [Zdigits2]. rewrite Hd.
  unfold fexp, emin. 
  replace (Z.max (53 + Z.of_nat s + e - 53) (3 - 1024 - 53) - e) with (Z.of_nat s) by lia.
  cbn [shr_record_of_loc].
  assert (Hshr : shr {| shr_m := Zpos m; shr_r := false; shr_s := false |} e (Z.of_nat s)
                 = ({| shr_m := Zpos M; shr_r := false; shr_s := false |}, e + Z.of_nat s)).
  { unfold shr. destruct (Z.of_nat s) as [|p|p] eqn:Es; try lia.
    - f_equal; [|lia]. f_equal. rewrite <- Em, Z.pow_0_r. lia.
    - f_equal. rewrite iter_pos_nat. rewrite <- Em, <- Es.
      replace (Pos.to_nat p) with s by lia. apply shr_exact. lia. }
  rewrite Hshr. cbn [shr_m loc_of_shr_record round_nearest_even Zdigits2]. rewrite HM.
  replace (Z.max (53 + (e + Z.of_nat s) - 53) (3 - 1024 - 53) - (e + Z.of_nat s)) with 0 by lia.
  cbn [shr shr_m]. 
  destruct (Z.leb_spec (e + Z.of_nat s) (1024 - 53)); [reflexivity|lia].
Qed.

Lemma Pos_iter_xO (p k : positive) : Zpos (Pos.iter xO p k) = Zpos p * 2 ^ Zpos k.
Proof.
  rewrite Pos2Nat.inj_iter. rewrite <- (positive_nat_Z k).
  induction (Pos.to_nat k) as [|n IH]; cbn [nat_rect].
  - cbn [Z.of_nat]. rewrite Z.pow_0_r. lia.
  - rewrite Pos2Z.inj_xO, IH, Nat2Z.inj_succ, Z.pow_succ_r by lia. lia.
Qed.

(** The float of a positive integer below 2^53: its bits, shifted to
    fill the mantissa. *)
Lemma of_int_canonical (n : positive) :
  Zpos n < 2 ^ 53 ->
  exists M : positive,
    float64.of_int (Zpos n) = S754_finite false M (Zpos (digits2_pos n) - 53)
    /\ Zpos M = Zpos n * 2 ^ (53 - Zpos (digits2_pos n))
    /\ Zpos (digits2_pos M) = 53.
Proof.
  intros Hn. pose proof (digits2_pos_bounds n) as B.
  set (d := Zpos (digits2_pos n)) in *.
  assert (Hd : 0 < d <= 53).
  { split; [subst d; lia|]. destruct (Z.le_gt_cases d 53); [assumption|].
    assert (2 ^ 53 <= 2 ^ (d - 1)) by (apply Z.pow_le_mono_r; lia). lia. }
  unfold float64.of_int, binary_normalize, binary_round, float64.prec, float64.emax.
  fold d. unfold fexp, emin, shl_align.
  replace (Z.max (d + 0 - 53) (3 - 1024 - 53) - 0) with (d - 53) by lia.
  replace (Z.max (d + 0 - 53) (3 - 1024 - 53)) with (d - 53) by lia.
  destruct (d - 53) as [|k|k] eqn:Ek; try lia.
  - exists n. assert (E53 : d = 53) by lia.
    pose proof (binary_round_aux_exact n 0 0 E53 ltac:(cbn; lia)) as R.
    cbn [Z.of_nat] in R. rewrite Z.pow_0_r, Z.mul_1_r, Z.add_0_r in R. rewrite R, E53.
    repeat split; [change (53 - 53) with 0; rewrite Z.pow_0_r; lia|exact E53].
  - exists (Pos.iter xO n k).
    assert (HM : Zpos (Pos.iter xO n k) = Zpos n * 2 ^ (53 - d)).
    { rewrite Pos_iter_xO. do 2 f_equal. lia. }
    assert (HdM : Zpos (digits2_pos (Pos.iter xO n k)) = 53).
    { apply digits2_pos_unique. rewrite HM.
      assert (P52 : 2 ^ (53 - 1) = 2 ^ (d - 1) * 2 ^ (53 - d))
        by (rewrite <- Z.pow_add_r by lia; f_equal; lia).
      assert (P53 : 2 ^ 53 = 2 ^ d * 2 ^ (53 - d))
        by (rewrite <- Z.pow_add_r by lia; f_equal; lia).
      rewrite P52, P53.
      assert (0 < 2 ^ (53 - d)) by (apply Z.pow_pos_nonneg; lia).
      split; [apply Z.mul_le_mono_nonneg_r; lia|apply Z.mul_lt_mono_pos_r; lia]. }
    pose proof (binary_round_aux_exact (Pos.iter xO n k) 0 (Zneg k) HdM) as R.
    cbn [Z.of_nat] in R. rewrite Z.pow_0_r, Z.mul_1_r, Z.add_0_r in R.
    rewrite R by lia. repeat split; assumption.
Qed.

Lemma mul_exact (a b : positive) :
  Zpos a * Zpos b < 2 ^ 53 ->
  float64.mul (float64.of_int (Zpos a)) (float64.of_int (Zpos b))
  = float64.of_int (Zpos a * Zpos b).
Proof.
  intros Hab.
  assert (Ha : Zpos a < 2 ^ 53) by nia. assert (Hb : Zpos b < 2 ^ 53) by nia.
  destruct (of_int_canonical a Ha) as (Ma & Ea & HMa & _).
  destruct (of_int_canonical b Hb) as (Mb & Eb & HMb & _).
  change (Zpos a * Zpos b) with (Zpos (a * b)) in *.
  destruct (of_int_canonical (a * b) Hab) as (Mab & Eab & HMab & HdMab).
  rewrite Ea, Eb, Eab. unfold float64.mul, SFmul, float64.prec, float64.emax. cbn [xorb].
  pose proof (digits2_pos_bounds a) as Ba. pose proof (digits2_pos_bounds b) as Bb.
  pose proof (digits2_pos_bounds (a * b)) as Bab.
  set (da := Zpos (digits2_pos a)) in *. set (db := Zpos (digits2_pos b)) in *.
  set (dab := Zpos (digits2_pos (a * b))) in *.
  assert (Hda : 0 < da) by (subst da; lia). assert (Hdb : 0 < db) by (subst db; lia).
  assert (Hdab : 0 < dab <= 53).
  { split; [subst dab; lia|]. destruct (Z.le_gt_cases dab 53); [assumption|].
    assert (2 ^ 53 <= 2 ^ (dab - 1)) by (apply Z.pow_le_mono_r; lia). lia. }
  assert (Hda53 : da <= 53).
  { destruct (Z.le_gt_cases da 53); [assumption|].
    assert (2 ^ 53 <= 2 ^ (da - 1)) by (apply Z.pow_le_mono_r; lia). lia. }
  assert (Hdb53 : db <= 53).
  { destruct (Z.le_gt_cases db 53); [assumption|].
    assert (2 ^ 53 <= 2 ^ (db - 1)) by (apply Z.pow_le_mono_r; lia). lia. }
  assert (Hsum : da + db - 1 <= dab).
  { destruct (Z.le_gt_cases (da + db - 1) dab); [assumption|].
    assert (2 ^ dab <= 2 ^ (da + db - 2)) by (apply Z.pow_le_mono_r; lia).
    replace (da + db - 2) with ((da - 1) + (db - 1)) in * by lia.
    rewrite Z.pow_add_r in * by lia.
    rewrite Pos2Z.inj_mul in Bab. nia. }
  set (s := 53 + dab - da - db).
  assert (Hs : 0 <= s) by (subst s; lia).
  assert (Hprod : Zpos (Ma * Mb) = Zpos Mab * 2 ^ Z.of_nat (Z.to_nat s)).
  { rewrite Z2Nat.id by lia. rewrite Pos2Z.inj_mul, HMa, HMb, HMab, Pos2Z.inj_mul.
    assert (P : 2 ^ (53 - da) * 2 ^ (53 - db) = 2 ^ (53 - dab) * 2 ^ s)
      by (rewrite <- !Z.pow_add_r by lia; f_equal; subst s; lia).
    transitivity (Zpos a * Zpos b * (2 ^ (53 - da) * 2 ^ (53 - db))); [ring|].
    rewrite P. ring. }
  rewrite Hprod. rewrite binary_round_aux_exact.
  - f_equal. rewrite Z2Nat.id by lia. subst s. lia.
  - exact HdMab.
  - rewrite Z2Nat.id by lia. subst s. lia.
Qed.

Lemma to_uint64_of_int (n : positive) :
  Zpos n < 2 ^ 53 -> float64.to_uint64 (float64.of_int (Zpos n)) = Zpos n.
Proof.
  intros Hn. destruct (of_int_canonical n Hn) as (M & E & HM & _).
  rewrite E. cbn [float64.to_uint64]. pose proof (digits2_pos_bounds n) as B.
  set (d := Zpos (digits2_pos n)) in *.
  assert (Hd : 0 < d <= 53).
  { split; [subst d; lia|]. destruct (Z.le_gt_cases d 53); [assumption|].
    assert (2 ^ 53 <= 2 ^ (d - 1)) by (apply Z.pow_le_mono_r; lia). lia. }
  rewrite HM. destruct (Z.leb_spec 0 (d - 53)).
  - replace (d - 53) with 0 by lia. replace (53 - d) with 0 by lia. rewrite Z.pow_0_r. lia.
  - replace (- (d - 53)) with (53 - d) by lia. apply Z.div_mul.
    apply Z.pow_nonzero; lia.
Qed.

End Float64.

(** ** Reading back what was rendered *)

Section Digits.

Lemma ord_chr (n : Z) : 0 <= n < 256 -> ord (chr n) = n.
Proof.
  intros Hn. unfold ord, chr. rewrite Z.mod_small by lia.
  rewrite N_ascii_embedding by lia. lia.
Qed.

Lemma ord_digit (d : Z) : 0 <= d < 10 -> ord (chr (d + 48)) = d + 48.
Proof. intros Hd. apply ord_chr. lia. Qed.

(** Reading back what [format_digits] wrote, with any reader [P] that
    takes one decimal digit at a time while the value stays within
    [bound]. *)
Lemma format_digits_fold {A} (P : string -> Z -> A) (bound : Z) :
  (forall d t m, 0 <= d < 10 -> 0 <= m -> m * 10 + d <= bound ->
                 P (String (chr (d + 48)) t) m = P t (m * 10 + d)) ->
  forall (fuel : nat) (u : Z) (acc : string),
    0 <= u < 10 ^ Z.of_nat fuel -> u <= bound ->
    P (strconv.format_digits fuel u acc) 0 = P acc u.
Proof.
  intros Hstep. induction fuel as [|fuel IH]; intros u acc Hu Hb.
  - cbn in Hu. replace u with 0 by lia. reflexivity.
  - cbn [strconv.format_digits].
    pose proof (Z.div_mod u 10 ltac:(lia)) as Hdm.
    pose proof (Z.mod_pos_bound u 10 ltac:(lia)) as Hm.
    destruct (Z.eqb_spec (u / 10) 0) as [E|E].
    + rewrite Hstep by lia. f_equal. lia.
    + rewrite IH; [|rewrite Nat2Z.inj_succ, Z.pow_succ_r in Hu by lia; split; [apply Z.div_pos; lia|apply Z.div_lt_upper_bound; lia]|lia].
      rewrite Hstep; [f_equal; lia|lia|apply Z.div_pos; lia|lia].
Qed.

(** What [format_digits] writes starts with a digit and is longer than
    what was there. *)
Lemma format_digits_shape (fuel : nat) :
  forall (u : Z) (acc : string),
    0 <= u ->
    exists d t,
      0 <= d < 10
      /\ strconv.format_digits (S fuel) u acc = String (chr (d + 48)) t
      /\ (String.length acc <= String.length t)%nat.
Proof.
  induction fuel as [|fuel IH]; intros u acc Hu;
    pose proof (Z.mod_pos_bound u 10 ltac:(lia)) as Hm.
  - exists (u mod 10), acc. split; [lia|]. split; [|lia].
    cbn [strconv.format_digits]. destruct (u / 10 =? 0); reflexivity.
  - cbn [strconv.format_digits]. destruct (Z.eqb_spec (u / 10) 0) as [E|E].
    + exists (u mod 10), acc. repeat split; lia.
    + destruct (IH (u / 10) (String (chr (u mod 10 + 48)) acc)) as (d & t & Hd & E' & Hl);
        [apply Z.div_pos; lia|].
      exists d, t. split; [lia|]. split; [exact E'|]. cbn [String.length] in Hl. lia.
Qed.

Lemma digit_is_not (d : Z) (c : ascii) :
  0 <= d < 10 -> ord c < 48 \/ 57 < ord c -> Ascii.eqb (chr (d + 48)) c = false.
Proof.
  intros Hd Hc. apply Ascii.eqb_neq. intros E.
  apply (f_equal ord) in E. rewrite ord_digit in E by lia. lia.
Qed.

Lemma Atoi_fast_digit (d : Z) (t : string) (m : Z) :
  0 <= d < 10 ->
  strconv.Atoi_fast (String (chr (d + 48)) t) m = strconv.Atoi_fast t (m * 10 + d).
Proof.
  intros Hd. cbn [strconv.Atoi_fast]. rewrite ord_digit by lia.
  replace (d + 48 - 48) with d by lia. rewrite Z.mod_small by lia.
  destruct (Z.ltb_spec 9 d); [lia|reflexivity].
Qed.

Lemma ParseUint_loop_digit (s0 : string) (d : Z) (t : string) (m : Z) :
  0 <= d < 10 -> 0 <= m -> m * 10 + d <= 2 ^ 64 - 1 ->
  strconv.ParseUint_loop 10 ((2 ^ 64 - 1) / 10 + 1) (2 ^ 64 - 1) s0 (String (chr (d + 48)) t) m
  = strconv.ParseUint_loop 10 ((2 ^ 64 - 1) / 10 + 1) (2 ^ 64 - 1) s0 t (m * 10 + d).
Proof.
  intros Hd Hm Hb. cbn [strconv.ParseUint_loop]. rewrite ord_digit by lia.
  unfold strconv.digit_val.
  destruct (Z.leb_spec 48 (d + 48)); [|lia]. destruct (Z.leb_spec (d + 48) 57); [|lia].
  cbn [andb]. replace (d + 48 - 48) with d by lia.
  destruct (Z.leb_spec 10 d); [lia|].
  change ((2 ^ 64 - 1) / 10 + 1) with 1844674407370955162 in *.
  change (2 ^ 64 - 1) with 18446744073709551615 in *.
  change (2 ^ 64) with 18446744073709551616 in *.
  destruct (Z.leb_spec 1844674407370955162 m); [lia|].
  rewrite Z.mod_small by lia.
  destruct (Z.ltb_spec (m * 10 + d) (m * 10)); [lia|].
  destruct (Z.ltb_spec 18446744073709551615 (m * 10 + d)); [lia|]. reflexivity.
Qed.

Lemma pow10_20 : 2 ^ 64 < 10 ^ Z.of_nat 20.
Proof. reflexivity. Qed.

(** Integers: [Atoi] reads back what [Itoa] wrote. *)
Lemma Atoi_Itoa (x : Z) :
  - 2 ^ 63 <= x < 2 ^ 63 -> strconv.Atoi (strconv.Itoa x) = (x, None).
Proof.
  intros Hx. pose proof pow10_20 as H20.
  assert (H63 : 2 ^ 63 < 2 ^ 64) by reflexivity.
  unfold strconv.Itoa, strconv.FormatInt.
  destruct (Z.ltb_spec x 0) as [Hneg|Hpos].
  - destruct (format_digits_shape 19 (- x) "" ltac:(lia)) as (d & t & Hd & E & _).
    assert (Hfast : strconv.Atoi_fast (strconv.format_digits 20 (- x) "") 0 = Some (- x)).
    { rewrite (format_digits_fold strconv.Atoi_fast (- x)); [reflexivity| |lia|lia].
      intros; apply Atoi_fast_digit; assumption. }
    assert (Hslow : strconv.ParseUint (strconv.format_digits 20 (- x) "") 10 0 = (- x, None)).
    { unfold strconv.ParseUint. rewrite E at 1. cbn [String.eqb].
      change (if 0 =? 0 then strconv.IntSize else 0) with 64.
      rewrite (format_digits_fold (strconv.ParseUint_loop 10 ((2 ^ 64 - 1) / 10 + 1) (2 ^ 64 - 1) _)
                 (2 ^ 64 - 1)); [reflexivity| |lia|lia].
      intros; apply ParseUint_loop_digit; assumption. }
    unfold strconv.Atoi.
    destruct ((0 <? len _) && (len _ <? 19)).
    + cbn [Ascii.eqb Bool.eqb orb andb]. rewrite Hfast.
      rewrite E at 1. unfold len. cbn [String.length].
      destruct (Z.ltb_spec (Z.of_nat (S (String.length t))) 1); [lia|].
      f_equal. lia.
    + unfold strconv.ParseInt. cbn [Ascii.eqb Bool.eqb]. rewrite Hslow.
      unfold strconv.ParseInt_range.
      change (if 0 =? 0 then strconv.IntSize else 0) with 64.
      change (2 ^ (64 - 1)) with (2 ^ 63). cbn [negb andb].
      destruct (Z.ltb_spec (2 ^ 63) (- x)); [lia|]. f_equal. lia.
  - destruct (format_digits_shape 19 x "" ltac:(lia)) as (d & t & Hd & E & _).
    assert (Hfast : strconv.Atoi_fast (strconv.format_digits 20 x "") 0 = Some x).
    { rewrite (format_digits_fold strconv.Atoi_fast x); [reflexivity| |lia|lia].
      intros; apply Atoi_fast_digit; assumption. }
    assert (Hslow : strconv.ParseUint (strconv.format_digits 20 x "") 10 0 = (x, None)).
    { unfold strconv.ParseUint. rewrite E at 1. cbn [String.eqb].
      change (if 0 =? 0 then strconv.IntSize else 0) with 64.
      rewrite (format_digits_fold (strconv.ParseUint_loop 10 ((2 ^ 64 - 1) / 10 + 1) (2 ^ 64 - 1) _)
                 (2 ^ 64 - 1)); [reflexivity| |lia|lia].
      intros; apply ParseUint_loop_digit; assumption. }
    assert (Hminus : Ascii.eqb (chr (d + 48)) "-" = false) by (apply digit_is_not; [lia|left; reflexivity]).
    assert (Hplus : Ascii.eqb (chr (d + 48)) "+" = false) by (apply digit_is_not; [lia|left; reflexivity]).
    unfold strconv.Atoi.
    destruct ((0 <? len _) && (len _ <? 19)).
    + rewrite E at 1. rewrite Hminus, Hplus. cbn [orb andb].
      rewrite Hfast. reflexivity.
    + unfold strconv.ParseInt. rewrite E at 1. rewrite Hminus, Hplus.
      rewrite Hslow.
      unfold strconv.ParseInt_range.
      change (if 0 =? 0 then strconv.IntSize else 0) with 64.
      change (2 ^ (64 - 1)) with (2 ^ 63). cbn [negb andb].
      destruct (Z.leb_spec (2 ^ 63) x); [lia|]. reflexivity.
Qed.

End Digits.

Section DurationText.

Lemma pow10_succ (k : nat) : 10 ^ Z.of_nat (S k) = 10 * 10 ^ Z.of_nat k.
Proof. rewrite Nat2Z.inj_succ, Z.pow_succ_r by lia. reflexivity. Qed.

Lemma pow10_pos (k : nat) : 0 < 10 ^ Z.of_nat k.
Proof. apply Z.pow_pos_nonneg; lia. Qed.

Lemma mod_pow10_succ (v : Z) (k : nat) :
  0 <= v ->
  (v mod 10 ^ Z.of_nat (S k)) / 10 = (v / 10) mod 10 ^ Z.of_nat k
  /\ (v mod 10 ^ Z.of_nat (S k)) mod 10 = v mod 10
  /\ v / 10 ^ Z.of_nat (S k) = v / 10 / 10 ^ Z.of_nat k.
Proof.
  intros Hv. rewrite pow10_succ. pose proof (pow10_pos k) as Hk.
  rewrite Z.rem_mul_r by lia. rewrite (Z.div_div v 10) by lia.
  pose proof (Z.mod_pos_bound v 10 ltac:(lia)).
  pose proof (Z.mod_pos_bound (v / 10) (10 ^ Z.of_nat k) Hk).
  set (q := (v / 10) mod 10 ^ Z.of_nat k) in *. set (r := v mod 10) in *.
  repeat split.
  - replace (r + 10 * q) with (q * 10 + r) by lia. rewrite Z.div_add_l by lia.
    rewrite Z.div_small by lia. lia.
  - replace (r + 10 * q) with (r + q * 10) by lia. rewrite Z.mod_add by lia.
    apply Z.mod_small. lia.
Qed.

Lemma fmtFrac_true (prec : nat) :
  forall (v : Z) (acc : string),
    0 <= v ->
    time.fmtFrac prec v true acc =
      (String "." (frac_digits prec (v mod 10 ^ Z.of_nat prec) acc), v / 10 ^ Z.of_nat prec).
Proof.
  induction prec as [|prec IH]; intros v acc Hv.
  - cbn [time.fmtFrac frac_digits Z.of_nat]. rewrite Z.pow_0_r, Z.div_1_r. reflexivity.
  - cbn [time.fmtFrac frac_digits orb].
    destruct (mod_pow10_succ v prec Hv) as (E1 & E2 & E3).
    rewrite IH by (apply Z.div_pos; lia). rewrite E1, E2, E3. reflexivity.
Qed.

(** What [fmtFrac] writes: nothing when the fraction is zero, else a
    point and the fraction's digits without the trailing zeros. *)
Lemma fmtFrac_false (prec : nat) :
  forall (v : Z) (acc : string),
    0 <= v ->
    (v mod 10 ^ Z.of_nat prec = 0
     /\ time.fmtFrac prec v false acc = (acc, v / 10 ^ Z.of_nat prec))
    \/ (exists (k : nat) (f : Z),
          (1 <= k <= prec)%nat /\ 0 < f < 10 ^ Z.of_nat k
          /\ f * 10 ^ (Z.of_nat prec - Z.of_nat k) = v mod 10 ^ Z.of_nat prec
          /\ time.fmtFrac prec v false acc =
               (String "." (frac_digits k f acc), v / 10 ^ Z.of_nat prec)).
Proof.
  induction prec as [|prec IH]; intros v acc Hv.
  - left. cbn [time.fmtFrac Z.of_nat]. rewrite Z.pow_0_r, Z.div_1_r, Z.mod_1_r. split; reflexivity.
  - cbn [time.fmtFrac orb].
    destruct (mod_pow10_succ v prec Hv) as (E1 & E2 & E3).
    pose proof (Z.mod_pos_bound v (10 ^ Z.of_nat (S prec)) (pow10_pos _)) as Hb.
    destruct (Z.eqb_spec (v mod 10) 0) as [Z0|NZ]; cbn [negb].
    + destruct (IH (v / 10) acc ltac:(apply Z.div_pos; lia)) as [(Hz & E)|(k & f & Hk & Hf & Hv' & E)].
      * left. rewrite E, E3. split; [|reflexivity].
        rewrite <- E1 in Hz. rewrite <- E2 in Z0.
        pose proof (Z.div_mod (v mod 10 ^ Z.of_nat (S prec)) 10 ltac:(lia)). lia.
      * right. exists k, f. rewrite E, E3. repeat split; try lia.
        rewrite <- E1 in Hv'. rewrite <- E2 in Z0.
        pose proof (Z.div_mod (v mod 10 ^ Z.of_nat (S prec)) 10 ltac:(lia)) as D.
        rewrite Z0, <- Hv' in D. rewrite D.
        replace (Z.of_nat (S prec) - Z.of_nat k) with (Z.succ (Z.of_nat prec - Z.of_nat k)) by lia.
        rewrite Z.pow_succ_r by lia. lia.
    + right. exists (S prec), (v mod 10 ^ Z.of_nat (S prec)).
      rewrite fmtFrac_true by (apply Z.div_pos; lia).
      cbn [frac_digits]. rewrite E1, E2, E3, Z.sub_diag, Z.pow_0_r.
      repeat split; try lia.
      destruct (Z.eq_dec (v mod 10 ^ Z.of_nat (S prec)) 0) as [Z0|]; [|lia].
      rewrite Z0, Z.mod_0_l in E2 by lia. lia.
Qed.

Lemma length_frac_digits (k : nat) :
  forall (f : Z) (acc : string),
    String.length (frac_digits k f acc) = (k + String.length acc)%nat.
Proof.
  induction k as [|k IH]; intros f acc; [reflexivity|].
  cbn [frac_digits]. rewrite IH. cbn [String.length]. lia.
Qed.

Lemma is_digit_chr (d : Z) : 0 <= d < 10 -> time.is_digit (chr (d + 48)) = true.
Proof.
  intros Hd. unfold time.is_digit. rewrite ord_digit by lia.
  destruct (Z.leb_spec 48 (d + 48)); [|lia]. destruct (Z.leb_spec (d + 48) 57); [reflexivity|lia].
Qed.

Lemma leadingInt_digit (d : Z) (t : string) (m : Z) :
  0 <= d < 10 -> 0 <= m -> m * 10 + d <= 2 ^ 63 ->
  time.leadingInt (String (chr (d + 48)) t) m = time.leadingInt t (m * 10 + d).
Proof.
  intros Hd Hm Hb. cbn [time.leadingInt]. rewrite is_digit_chr by lia. cbn [negb].
  rewrite ord_digit by lia.
  change (2 ^ 63 / 10) with 922337203685477580. change (2 ^ 63) with 9223372036854775808 in *.
  destruct (Z.ltb_spec 922337203685477580 m); [lia|].
  replace (m * 10 + (d + 48) - 48) with (m * 10 + d) by lia.
  destruct (Z.ltb_spec 9223372036854775808 (m * 10 + d)); [lia|reflexivity].
Qed.

Lemma leadingInt_stop (rest : string) (x : Z) :
  match rest with EmptyString => true | String c _ => negb (time.is_digit c) end = true ->
  time.leadingInt rest x = Some (x, rest).
Proof.
  destruct rest as [|c t]; [reflexivity|]. cbn [time.leadingInt]. intros ->. reflexivity.
Qed.

Lemma leadingFraction_stop (rest : string) (x : Z) (scale : float64.t) (o : bool) :
  match rest with EmptyString => true | String c _ => negb (time.is_digit c) end = true ->
  time.leadingFraction rest x scale o = (x, scale, rest).
Proof.
  destruct rest as [|c t]; [reflexivity|]. cbn [time.leadingFraction]. intros ->. reflexivity.
Qed.

Lemma leadingFraction_frac_digits (k : nat) :
  forall (f : Z) (acc : string) (scale : float64.t),
    0 <= f < 10 ^ Z.of_nat k -> f <= 2 ^ 63 - 1 ->
    time.leadingFraction (frac_digits k f acc) 0 scale false
    = time.leadingFraction acc f (scale_after k scale) false.
Proof.
  induction k as [|k IH]; intros f acc scale Hf Hb.
  - cbn in Hf. replace f with 0 by lia. reflexivity.
  - cbn [frac_digits]. rewrite pow10_succ in Hf.
    pose proof (Z.mod_pos_bound f 10 ltac:(lia)) as Hm.
    pose proof (Z.div_mod f 10 ltac:(lia)) as Hdm.
    rewrite IH; [|split; [apply Z.div_pos; lia|apply Z.div_lt_upper_bound; lia]|lia].
    cbn [time.leadingFraction]. rewrite is_digit_chr by lia. cbn [negb].
    rewrite ord_digit by lia.
    change ((2 ^ 63 - 1) / 10) with 922337203685477580.
    change (2 ^ 63) with 9223372036854775808 in *.
    destruct (Z.ltb_spec 922337203685477580 (f / 10)); [lia|].
    replace (f / 10 * 10 + (f mod 10 + 48) - 48) with f by lia.
    destruct (Z.ltb_spec 9223372036854775808 f); [lia|].
    unfold scale_after. rewrite Nat.iter_succ. reflexivity.
Qed.

Lemma mul_exact_Z (a b : Z) :
  0 < a -> 0 < b -> a * b < 2 ^ 53 ->
  float64.mul (float64.of_int a) (float64.of_int b) = float64.of_int (a * b).
Proof. destruct a, b; try lia. intros _ _. apply mul_exact. Qed.

Lemma to_uint64_of_int_Z (n : Z) :
  0 < n < 2 ^ 53 -> float64.to_uint64 (float64.of_int n) = n.
Proof. destruct n; try lia. intros [_ Hn]. apply to_uint64_of_int, Hn. Qed.

Lemma scale_after_exact (k : nat) :
  (k <= 15)%nat -> scale_after k (float64.of_int 1) = float64.of_int (10 ^ Z.of_nat k).
Proof.
  unfold scale_after. induction k as [|k IH]; intros Hk; [reflexivity|].
  rewrite Nat.iter_succ, IH by lia. rewrite mul_exact_Z.
  - rewrite pow10_succ. f_equal. lia.
  - apply pow10_pos.
  - lia.
  - assert (10 ^ Z.of_nat k * 10 <= 10 ^ 15).
    { rewrite Z.mul_comm, <- pow10_succ. apply Z.pow_le_mono_r; lia. }
    assert (10 ^ 15 < 2 ^ 53) by reflexivity. lia.
Qed.

(** The quotients [unit / scale] that a rendered fraction asks for. *)
Lemma div_scale_exact (p k : nat) :
  p = 3%nat \/ p = 6%nat \/ p = 9%nat -> (1 <= k <= p)%nat ->
  float64.div (float64.of_int (10 ^ Z.of_nat p)) (float64.of_int (10 ^ Z.of_nat k))
  = float64.of_int (10 ^ (Z.of_nat p - Z.of_nat k)).
Proof.
  intros [->|[->| ->]] Hk;
    do 10 (destruct k as [|k]; [try lia; vm_compute; reflexivity|]); lia.
Qed.

Lemma take_bytes_app (a b : string) : take_bytes (String.length a) (a ++ b) = a.
Proof. induction a as [|c a IH]; cbn; [destruct b; reflexivity|now rewrite IH]. Qed.

Lemma drop_bytes_app (a b : string) : drop_bytes (String.length a) (a ++ b) = b.
Proof. induction a as [|c a IH]; cbn; [reflexivity|exact IH]. Qed.

Lemma unit_length_app (ustr rest : string) :
  strings.all_bytes (fun c => negb (ends_unit c)) ustr = true ->
  after_unit rest = true ->
  time.unit_length (ustr ++ rest) = String.length ustr.
Proof.
  intros Hu Hr. induction ustr as [|c u IH]; cbn in *.
  - destruct rest as [|c t]; [reflexivity|]. cbn in *. unfold ends_unit in Hr. now rewrite Hr.
  - apply andb_prop in Hu as [Hc Hu]. unfold ends_unit in Hc.
    apply negb_true_iff in Hc. rewrite Hc. f_equal. exact (IH Hu).
Qed.

Lemma ParseDuration_step_group (orig : string) (v d unit : Z) (p : nat)
      (fr : option (nat * Z)) (c0 : ascii) (u0 rest : string) :
  0 <= v -> 0 <= d -> 0 < unit ->
  time.unitMap (String c0 u0) = Some unit ->
  strings.all_bytes (fun c => negb (ends_unit c)) (String c0 u0) = true ->
  after_unit rest = true ->
  match fr with
  | None => True
  | Some (k, f) =>
    unit = 10 ^ Z.of_nat p /\ (p = 3 \/ p = 6 \/ p = 9)%nat
    /\ (1 <= k <= p)%nat /\ 0 < f < 10 ^ Z.of_nat k
  end ->
  d + group_value v unit p fr <= 2 ^ 63 ->
  time.ParseDuration_step orig (group v fr (String c0 u0) rest) d
  = inr (rest, d + group_value v unit p fr).
Proof.
  intros Hv Hd Hunit Hmap Hbytes Hrest Hfr Hb.
  assert (H63 : 2 ^ 63 < 2 ^ 64) by reflexivity.
  assert (Hc0 : ends_unit c0 = false).
  { cbn in Hbytes. apply andb_prop in Hbytes as [Hc _]. now apply negb_true_iff in Hc. }
  assert (Hc0d : time.is_digit c0 = false /\ Ascii.eqb c0 "." = false).
  { unfold ends_unit in Hc0. apply orb_false_iff in Hc0. tauto. }
  destruct Hc0d as [Hc0d Hc0p].
  set (tail := match fr with
               | None => (String c0 u0 ++ rest)%string
               | Some (k, f) => String "." (frac_digits k f (String c0 u0 ++ rest))
               end).
  assert (Htail : match tail with
                  | EmptyString => true
                  | String c _ => negb (time.is_digit c)
                  end = true).
  { subst tail. destruct fr as [[k f]|]; cbn; [reflexivity|now rewrite Hc0d]. }
  assert (Hfrval : 0 <= group_value v unit p fr - v * unit < 2 ^ 53).
  { unfold group_value. destruct fr as [[k f]|]; [|assert (0 < 2 ^ 53) by reflexivity; lia].
    destruct Hfr as (-> & Hp & Hk & Hf).
    assert (f * 10 ^ (Z.of_nat p - Z.of_nat k) < 10 ^ Z.of_nat p).
    { replace (Z.of_nat p) with (Z.of_nat k + (Z.of_nat p - Z.of_nat k)) at 2 by lia.
      rewrite Z.pow_add_r by lia. apply Z.mul_lt_mono_pos_r; [apply Z.pow_pos_nonneg; lia|lia]. }
    assert (0 < 10 ^ (Z.of_nat p - Z.of_nat k)) by (apply Z.pow_pos_nonneg; lia).
    assert (10 ^ Z.of_nat p <= 10 ^ 9) by (apply Z.pow_le_mono_r; lia).
    assert (10 ^ 9 < 2 ^ 53) by reflexivity. nia. }
  assert (Hvu : v * unit <= 2 ^ 63) by lia.
  unfold group. fold tail.
  destruct (format_digits_shape 19 v tail Hv) as (d0 & t & Hd0 & E & Hlen).
  unfold time.fmtInt. unfold time.ParseDuration_step.
  rewrite E at 1. rewrite is_digit_chr by lia. rewrite orb_true_r. cbn [negb].
  rewrite (format_digits_fold time.leadingInt (2 ^ 63));
    [|intros; apply leadingInt_digit; assumption|pose proof pow10_20; lia|nia].
  rewrite (leadingInt_stop tail v Htail). rewrite E. cbn [String.length].
  destruct (Nat.eqb_spec (S (String.length t)) (String.length tail)) as [El|_]; [lia|].
  cbn [negb andb].
  assert (Hfraction :
            time.fraction tail =
              (match fr with None => 0 | Some (_, f) => f end,
               match fr with
               | None => float64.of_int 1
               | Some (k, _) => float64.of_int (10 ^ Z.of_nat k)
               end,
               (String c0 u0 ++ rest)%string,
               match fr with None => false | Some _ => true end)).
  { subst tail. destruct fr as [[k f]|].
    - destruct Hfr as (-> & Hp & Hk & Hf). cbn [time.fraction Ascii.eqb Bool.eqb].
      assert (10 ^ Z.of_nat k <= 10 ^ 9) by (apply Z.pow_le_mono_r; lia).
      assert (10 ^ 9 < 2 ^ 63 - 1) by reflexivity.
      rewrite leadingFraction_frac_digits by lia.
      rewrite leadingFraction_stop by (cbn; now rewrite Hc0d).
      rewrite scale_after_exact by lia. rewrite length_frac_digits.
      destruct (Nat.eqb_spec (k + String.length (String c0 u0 ++ rest))
                             (String.length (String c0 u0 ++ rest))); [lia|reflexivity].
    - cbn [append time.fraction]. rewrite Hc0p. reflexivity. }
  rewrite Hfraction.
  rewrite unit_length_app by assumption. cbn [String.length Nat.eqb].
  change (S (String.length u0)) with (String.length (String c0 u0)).
  rewrite take_bytes_app, drop_bytes_app, Hmap.
  destruct (Z.ltb_spec (2 ^ 63 / unit) v) as [Hover|_].
  { pose proof (Z.mul_succ_div_gt (2 ^ 63) unit Hunit). nia. }
  assert (Hfinal :
            (if 0 <? match fr with None => 0 | Some (_, f) => f end
             then (v * unit
                   + float64.to_uint64
                       (float64.mul
                          (float64.of_int match fr with None => 0 | Some (_, f) => f end)
                          (float64.div (float64.of_int unit)
                             match fr with
                             | None => float64.of_int 1
                             | Some (k, _) => float64.of_int (10 ^ Z.of_nat k)
                             end))) mod 2 ^ 64
             else v * unit) = group_value v unit p fr).
  { unfold group_value in *. destruct fr as [[k f]|]; [|cbn; lia].
    destruct Hfr as (-> & Hp & Hk & Hf).
    destruct (Z.ltb_spec 0 f); [|lia].
    rewrite div_scale_exact by assumption.
    assert (0 < 10 ^ (Z.of_nat p - Z.of_nat k)) by (apply Z.pow_pos_nonneg; lia).
    rewrite mul_exact_Z by (try lia; nia).
    rewrite to_uint64_of_int_Z by (split; [nia|lia]).
    apply Z.mod_small. nia. }
  rewrite Hfinal.
  assert (Hgv : 0 <= group_value v unit p fr) by nia.
  destruct (0 <? _); cbn [andb];
    repeat match goal with
           | |- context [?a <? ?b] => destruct (Z.ltb_spec a b); [lia|]
           end;
    rewrite ?Z.mod_small by lia;
    repeat match goal with
           | |- context [?a <? ?b] => destruct (Z.ltb_spec a b); [lia|]
           end; reflexivity.
Qed.

Lemma append_nil_r (a : string) : (a ++ "")%string = a.
Proof. induction a as [|c a IH]; cbn; [reflexivity|now rewrite IH]. Qed.

Lemma fmtInt_shape (v : Z) (acc : string) :
  0 <= v ->
  exists d t,
    0 <= d < 10 /\ time.fmtInt v acc = String (chr (d + 48)) t
    /\ (String.length acc <= String.length t)%nat.
Proof. intros Hv. exact (format_digits_shape 19 v acc Hv). Qed.

Lemma after_unit_fmtInt (v : Z) (acc : string) : 0 <= v -> after_unit (time.fmtInt v acc) = true.
Proof.
  intros Hv. destruct (fmtInt_shape v acc Hv) as (d & t & Hd & -> & _).
  cbn. unfold ends_unit. rewrite is_digit_chr by lia. apply orb_true_r.
Qed.

(** The last group of a rendering: the integer [w], the fraction that
    [fmtFrac] wrote for [U], and the unit. *)
Lemma ParseDuration_step_last (orig : string) (prec : nat) (c0 : ascii) (u0 : string)
      (U w d : Z) :
  (prec = 0 \/ prec = 3 \/ prec = 6 \/ prec = 9)%nat ->
  time.unitMap (String c0 u0) = Some (10 ^ Z.of_nat prec) ->
  strings.all_bytes (fun c => negb (ends_unit c)) (String c0 u0) = true ->
  0 <= U -> 0 <= w -> 0 <= d ->
  d + w * 10 ^ Z.of_nat prec + U mod 10 ^ Z.of_nat prec <= 2 ^ 63 ->
  time.ParseDuration_step orig
    (time.fmtInt w (fst (time.fmtFrac prec U false (String c0 u0)))) d
  = inr (EmptyString, d + w * 10 ^ Z.of_nat prec + U mod 10 ^ Z.of_nat prec).
Proof.
  intros Hprec Hmap Hbytes HU Hw Hd Hb. pose proof (pow10_pos prec) as Hpos.
  destruct (fmtFrac_false prec U (String c0 u0) HU) as [(Hz & E)|(k & f & Hk & Hf & Hv & E)];
    rewrite E; cbn [fst].
  - pose proof (ParseDuration_step_group orig w d (10 ^ Z.of_nat prec) prec None c0 u0 "")
      as S.
    unfold group, group_value in S. rewrite append_nil_r in S.
    rewrite (S Hw Hd Hpos Hmap Hbytes eq_refl I ltac:(lia)).
    do 2 f_equal. lia.
  - pose proof (ParseDuration_step_group orig w d (10 ^ Z.of_nat prec) prec (Some (k, f)) c0 u0 "")
      as S.
    unfold group, group_value in S. rewrite append_nil_r in S.
    assert (Hp : (prec = 3 \/ prec = 6 \/ prec = 9)%nat)
      by (destruct Hprec as [->|Hprec]; [lia|exact Hprec]).
    rewrite (S Hw Hd Hpos Hmap Hbytes eq_refl (conj eq_refl (conj Hp (conj Hk Hf)))
               ltac:(lia)).
    do 2 f_equal. lia.
Qed.

(** A group that is followed by another: an integer and its unit. *)
Lemma ParseDuration_step_inner (orig : string) (c0 : ascii) (w unit v d : Z) (acc : string) :
  time.unitMap (String c0 EmptyString) = Some unit ->
  ends_unit c0 = false ->
  0 < unit -> 0 <= w -> 0 <= v -> 0 <= d ->
  d + v * unit <= 2 ^ 63 ->
  time.ParseDuration_step orig (time.fmtInt v (String c0 (time.fmtInt w acc))) d
  = inr (time.fmtInt w acc, d + v * unit).
Proof.
  intros Hmap Hc0 Hunit Hw Hv Hd Hb.
  pose proof (ParseDuration_step_group orig v d unit 0 None c0 "" (time.fmtInt w acc)) as S.
  unfold group, group_value in S. cbn [append] in S.
  assert (Hbytes : strings.all_bytes (fun c => negb (ends_unit c)) (String c0 "") = true)
    by (cbn; now rewrite Hc0).
  rewrite (S Hv Hd Hunit Hmap Hbytes (after_unit_fmtInt w acc Hw) I ltac:(lia)).
  do 2 f_equal. lia.
Qed.

Lemma ParseDuration_loop_step (orig : string) (c : ascii) (t s' : string) (d d' : Z) (k : nat) :
  time.ParseDuration_step orig (String c t) d = inr (s', d') ->
  time.ParseDuration_loop (S k) orig (String c t) d = time.ParseDuration_loop k orig s' d'.
Proof. intros E. cbn [time.ParseDuration_loop]. now rewrite E. Qed.

Lemma ParseDuration_loop_nil (orig : string) (d : Z) (k : nat) :
  time.ParseDuration_loop k orig EmptyString d = inr d.
Proof. destruct k; reflexivity. Qed.

Lemma fmtFrac_snd (prec : nat) (v : Z) (acc : string) :
  0 <= v -> snd (time.fmtFrac prec v false acc) = v / 10 ^ Z.of_nat prec.
Proof.
  intros Hv.
  destruct (fmtFrac_false prec v acc Hv) as [(_ & E)|(k & f & _ & _ & _ & E)];
    rewrite E; reflexivity.
Qed.

Lemma length_fmtInt (v : Z) (acc : string) :
  0 <= v -> (String.length acc < String.length (time.fmtInt v acc))%nat.
Proof.
  intros Hv. destruct (fmtInt_shape v acc Hv) as (d & t & _ & -> & Hl).
  cbn [String.length]. lia.
Qed.

(** A rendering below one second: one group. *)
Lemma ParseDuration_loop_small (orig : string) (prec : nat) (c0 : ascii) (u0 : string) (u : Z) :
  (prec = 0 \/ prec = 3 \/ prec = 6 \/ prec = 9)%nat ->
  time.unitMap (String c0 u0) = Some (10 ^ Z.of_nat prec) ->
  strings.all_bytes (fun c => negb (ends_unit c)) (String c0 u0) = true ->
  0 <= u <= 2 ^ 63 ->
  let body := time.fmtInt (snd (time.fmtFrac prec u false (String c0 u0)))
                (fst (time.fmtFrac prec u false (String c0 u0))) in
  time.ParseDuration_loop (String.length body) orig body 0 = inr u.
Proof.
  intros Hprec Hmap Hbytes Hu body. subst body. pose proof (pow10_pos prec) as Hpos.
  rewrite fmtFrac_snd by lia.
  pose proof (Z.div_mod u (10 ^ Z.of_nat prec) ltac:(lia)) as Hdm.
  assert (Hq : 0 <= u / 10 ^ Z.of_nat prec) by (apply Z.div_pos; lia).
  pose proof (ParseDuration_step_last orig prec c0 u0 u (u / 10 ^ Z.of_nat prec) 0
                Hprec Hmap Hbytes ltac:(lia) Hq ltac:(lia) ltac:(lia)) as S.
  destruct (fmtInt_shape (u / 10 ^ Z.of_nat prec)
              (fst (time.fmtFrac prec u false (String c0 u0))) Hq) as (d & t & _ & E & _).
  rewrite E in *. cbn [String.length].
  rewrite (ParseDuration_loop_step _ _ _ _ _ _ _ S), ParseDuration_loop_nil.
  f_equal. lia.
Qed.

(** A rendering from one second on: hours and minutes when there are
    any, then seconds with their fraction. *)
Lemma ParseDuration_loop_large (orig : string) (u : Z) :
  0 <= u <= 2 ^ 63 ->
  let acc := fst (time.fmtFrac 9 u false "s") in
  let U := u / 10 ^ 9 in
  let body_s := time.fmtInt (U mod 60) acc in
  let body_m := time.fmtInt ((U / 60) mod 60) (String "m" body_s) in
  let body_h := time.fmtInt (U / 60 / 60) (String "h" body_m) in
  let body := if 0 <? U / 60 then (if 0 <? U / 60 / 60 then body_h else body_m) else body_s in
  time.ParseDuration_loop (String.length body) orig body 0 = inr u.
Proof.
  intros Hu acc U body_s body_m body_h body.
  assert (H9 : 10 ^ Z.of_nat 9 = 1000000000) by reflexivity.
  assert (H63 : 2 ^ 63 = 9223372036854775808) by reflexivity.
  assert (HU : U = u / 1000000000) by reflexivity.
  assert (HUpos : 0 <= U) by (rewrite HU; apply Z.div_pos; lia).
  assert (HS : forall d, 0 <= d -> d + (U mod 60) * 1000000000 + u mod 1000000000 <= 2 ^ 63 ->
            time.ParseDuration_step orig body_s d
            = inr (EmptyString, d + (U mod 60) * 1000000000 + u mod 1000000000)).
  { intros d Hd Hb. subst body_s acc.
    exact (ParseDuration_step_last orig 9 "s" "" u (U mod 60) d
             (or_intror (or_intror (or_intror eq_refl))) eq_refl eq_refl
             ltac:(lia) ltac:(apply Z.mod_pos_bound; lia) Hd Hb). }
  assert (HM : forall d, 0 <= d -> d + ((U / 60) mod 60) * 60000000000 <= 2 ^ 63 ->
            time.ParseDuration_step orig body_m d
            = inr (body_s, d + ((U / 60) mod 60) * 60000000000)).
  { intros d Hd Hb. subst body_m body_s.
    exact (ParseDuration_step_inner orig "m" (U mod 60) 60000000000 ((U / 60) mod 60) d acc
             eq_refl eq_refl eq_refl ltac:(apply Z.mod_pos_bound; lia)
             ltac:(apply Z.mod_pos_bound; lia) Hd Hb). }
  assert (HH : forall d, 0 <= d -> d + (U / 60 / 60) * 3600000000000 <= 2 ^ 63 ->
            time.ParseDuration_step orig body_h d
            = inr (body_m, d + (U / 60 / 60) * 3600000000000)).
  { intros d Hd Hb. subst body_h body_m.
    exact (ParseDuration_step_inner orig "h" ((U / 60) mod 60) 3600000000000 (U / 60 / 60) d
             (String "m" body_s)
             eq_refl eq_refl eq_refl ltac:(apply Z.mod_pos_bound; lia)
             ltac:(apply Z.div_pos; [apply Z.div_pos|]; lia) Hd Hb). }
  assert (Hsum : U / 60 / 60 * 3600000000000 + (U / 60) mod 60 * 60000000000
                 + U mod 60 * 1000000000 + u mod 1000000000 = u
                 /\ 0 <= U / 60 / 60 /\ 0 <= (U / 60) mod 60 /\ 0 <= U mod 60
                 /\ 0 <= u mod 1000000000
                 /\ (U / 60 <= 0 -> U / 60 / 60 = 0 /\ (U / 60) mod 60 = 0)).
  { clear - HU Hu. rewrite HU. Z.to_euclidean_division_equations. lia. }
  destruct Hsum as (Hsum & N1 & N2 & N3 & N4 & Z1).
  destruct (fmtInt_shape (U mod 60) acc N3) as (ds & ts & _ & Es & _).
  change (body_s = String (chr (ds + 48)) ts) in Es.
  destruct (fmtInt_shape ((U / 60) mod 60) (String "m" body_s) N2) as (dm & tm & _ & Em & Lm).
  change (body_m = String (chr (dm + 48)) tm) in Em.
  destruct (fmtInt_shape (U / 60 / 60) (String "h" body_m) N1) as (dh & th & _ & Eh & Lh).
  change (body_h = String (chr (dh + 48)) th) in Eh.
  subst body. clearbody body_h. clearbody body_m. clearbody body_s. clearbody acc.
  clearbody U. rewrite H63 in *. subst body_s body_m body_h.
  cbn [String.length] in Lm, Lh.
  destruct (Z.ltb_spec 0 (U / 60)) as [HMpos|HMzero];
    [destruct (Z.ltb_spec 0 (U / 60 / 60)) as [HHpos|HHzero]|]; cbn [String.length].
  - destruct (String.length th) as [|[|k]]; try lia.
    rewrite (ParseDuration_loop_step _ _ _ _ _ _ _ (HH 0 ltac:(lia) ltac:(lia))).
    rewrite (ParseDuration_loop_step _ _ _ _ _ _ _
               (HM (0 + U / 60 / 60 * 3600000000000) ltac:(lia) ltac:(lia))).
    rewrite (ParseDuration_loop_step _ _ _ _ _ _ _
               (HS (0 + U / 60 / 60 * 3600000000000 + (U / 60) mod 60 * 60000000000)
                   ltac:(lia) ltac:(lia))).
    rewrite ParseDuration_loop_nil. f_equal. lia.
  - destruct (String.length tm) as [|k]; try lia.
    rewrite (ParseDuration_loop_step _ _ _ _ _ _ _ (HM 0 ltac:(lia) ltac:(lia))).
    rewrite (ParseDuration_loop_step _ _ _ _ _ _ _
               (HS (0 + (U / 60) mod 60 * 60000000000) ltac:(lia) ltac:(lia))).
    rewrite ParseDuration_loop_nil. f_equal. lia.
  - rewrite (ParseDuration_loop_step _ _ _ _ _ _ _ (HS 0 ltac:(lia) ltac:(lia))).
    rewrite ParseDuration_loop_nil. f_equal. lia.
Qed.

Lemma fmtFrac_fst_length (prec : nat) (v : Z) (c0 : ascii) (u0 : string) :
  0 <= v -> (1 <= String.length (fst (time.fmtFrac prec v false (String c0 u0))))%nat.
Proof.
  intros Hv.
  destruct (fmtFrac_false prec v (String c0 u0) Hv) as [(_ & E)|(k & f & _ & _ & _ & E)];
    rewrite E; cbn; lia.
Qed.

Lemma rendered_fmtInt (v : Z) (acc : string) :
  0 <= v -> (1 <= String.length acc)%nat -> rendered (time.fmtInt v acc).
Proof.
  intros Hv Hl. destruct (fmtInt_shape v acc Hv) as (d0 & t & Hd & E & Ht).
  exists d0, t. repeat split; try assumption; try lia.
  intros ->. cbn in Ht. lia.
Qed.

Lemma ParseDuration_signed (body : string) (u : Z) (neg : bool) :
  rendered body ->
  (forall orig, time.ParseDuration_loop (String.length body) orig body 0 = inr u) ->
  (if neg then True else u <= 2 ^ 63 - 1) ->
  time.ParseDuration (if neg then String "-" body else body)
  = (if neg then - u else u, None).
Proof.
  intros (d0 & t & Hd & E & Ht) Hloop Hb.
  assert (Hminus : Ascii.eqb (chr (d0 + 48)) "-" = false)
    by (apply digit_is_not; [lia|left; reflexivity]).
  assert (Hplus : Ascii.eqb (chr (d0 + 48)) "+" = false)
    by (apply digit_is_not; [lia|left; reflexivity]).
  assert (Hzero : (body =? "0")%string = false).
  { rewrite E. destruct t as [|c t]; [congruence|]. cbn. apply andb_false_r. }
  assert (Hnil : (body =? "")%string = false) by (rewrite E; reflexivity).
  unfold time.ParseDuration. destruct neg.
  - cbn [Ascii.eqb Bool.eqb orb]. rewrite Hzero, Hnil, Hloop. reflexivity.
  - rewrite E at 1. rewrite Hminus, Hplus. cbn [orb].
    rewrite Hzero, Hnil, Hloop.
    destruct (Z.ltb_spec (2 ^ 63 - 1) u); [lia|reflexivity].
Qed.

(** Durations: [ParseDuration] reads back what [String] wrote. *)
Lemma ParseDuration_String (d : Z) :
  - 2 ^ 63 <= d < 2 ^ 63 -> time.ParseDuration (time.Duration_String d) = (d, None).
Proof.
  intros Hd. assert (H64 : 2 ^ 64 = 2 * 2 ^ 63) by reflexivity.
  unfold time.Duration_String.
  set (u := if d <? 0 then (- d) mod 2 ^ 64 else d mod 2 ^ 64).
  assert (Hu : u = Z.abs d).
  { subst u. destruct (Z.ltb_spec d 0); rewrite Z.mod_small by lia; lia. }
  assert (Hu63 : 0 <= u <= 2 ^ 63) by lia.
  assert (Hres : (if d <? 0 then - u else u) = d) by (destruct (Z.ltb_spec d 0); lia).
  assert (Hpos : if d <? 0 then True else u <= 2 ^ 63 - 1) by (destruct (Z.ltb_spec d 0); [exact I|lia]).
  clearbody u.
  destruct (u <? time.Second).
  - destruct (Z.eqb_spec u 0) as [U0|U0].
    + replace d with 0 by lia. reflexivity.
    + destruct (u <? time.Microsecond); [|destruct (u <? time.Millisecond)].
      * destruct (time.fmtFrac 0 u false "ns") as [acc u'] eqn:E.
        pose proof (ParseDuration_loop_small) as L.
        specialize (fun orig => L orig 0%nat "n"%char "s" u (or_introl eq_refl) eq_refl eq_refl Hu63).
        cbn zeta in L. rewrite E in L. cbn [fst snd] in L.
        rewrite <- Hres at 2. apply ParseDuration_signed; [|exact L|exact Hpos].
        pose proof (fmtFrac_snd 0 u "ns" ltac:(lia)) as S.
        pose proof (fmtFrac_fst_length 0 u "n" "s" ltac:(lia)) as F.
        rewrite E in S, F. cbn [fst snd] in S, F.
        apply rendered_fmtInt; [rewrite S; apply Z.div_pos; [lia|reflexivity]|exact F].
      * destruct (time.fmtFrac 3 u false (time.micro ++ "s")) as [acc u'] eqn:E.
        pose proof (ParseDuration_loop_small) as L.
        specialize (fun orig => L orig 3%nat (chr 0xC2) (String (chr 0xB5) "s") u
                                  (or_intror (or_introl eq_refl)) eq_refl eq_refl Hu63).
        cbn zeta in L. change (String (chr 194) (String (chr 181) "s")) with (time.micro ++ "s") in L.
        rewrite E in L. cbn [fst snd] in L.
        rewrite <- Hres at 2. apply ParseDuration_signed; [|exact L|exact Hpos].
        pose proof (fmtFrac_snd 3 u (time.micro ++ "s") ltac:(lia)) as S.
        pose proof (fmtFrac_fst_length 3 u (chr 0xC2) (String (chr 0xB5) "s") ltac:(lia)) as F.
        change (String (chr 194) (String (chr 181) "s")) with (time.micro ++ "s") in F.
        rewrite E in S, F. cbn [fst snd] in S, F.
        apply rendered_fmtInt; [rewrite S; apply Z.div_pos; [lia|reflexivity]|exact F].
      * destruct (time.fmtFrac 6 u false "ms") as [acc u'] eqn:E.
        pose proof (ParseDuration_loop_small) as L.
        specialize (fun orig => L orig 6%nat "m"%char "s" u
                                  (or_intror (or_intror (or_introl eq_refl))) eq_refl eq_refl Hu63).
        cbn zeta in L. rewrite E in L. cbn [fst snd] in L.
        rewrite <- Hres at 2. apply ParseDuration_signed; [|exact L|exact Hpos].
        pose proof (fmtFrac_snd 6 u "ms" ltac:(lia)) as S.
        pose proof (fmtFrac_fst_length 6 u "m" "s" ltac:(lia)) as F.
        rewrite E in S, F. cbn [fst snd] in S, F.
        apply rendered_fmtInt; [rewrite S; apply Z.div_pos; [lia|reflexivity]|exact F].
  - destruct (time.fmtFrac 9 u false "s") as [acc U] eqn:E.
    pose proof (fun orig => ParseDuration_loop_large orig u Hu63) as L. cbn zeta in L.
    pose proof (fmtFrac_snd 9 u "s" ltac:(lia)) as S.
    pose proof (fmtFrac_fst_length 9 u "s" "" ltac:(lia)) as F.
    rewrite E in L, S, F. cbn [fst snd] in L, S, F.
    change (10 ^ Z.of_nat 9) with (10 ^ 9) in S. rewrite <- S in L.
    assert (HU : 0 <= U) by (rewrite S; apply Z.div_pos; [lia|reflexivity]).
    assert (HUm : 0 <= U mod 60) by (apply Z.mod_pos_bound; lia).
    assert (HM : 0 <= U / 60) by (apply Z.div_pos; lia).
    assert (HMm : 0 <= (U / 60) mod 60) by (apply Z.mod_pos_bound; lia).
    assert (HH : 0 <= U / 60 / 60) by (apply Z.div_pos; lia).
    rewrite <- Hres at 2.
    match goal with
    | |- time.ParseDuration (if _ then String "-" ?b else ?b) = _ =>
      apply (ParseDuration_signed b u (d <? 0)); [|exact L|exact Hpos]
    end.
    destruct (0 <? U / 60); [destruct (0 <? U / 60 / 60)|];
      apply rendered_fmtInt; try assumption; cbn [String.length]; lia.
Qed.

End DurationText.

Section RoundTrip.
Context `{UnicodeTables}.

Lemma ParseBool_FormatBool (b : bool) :
  strconv.ParseBool (strconv.FormatBool b) = (b, None).
Proof. destruct b; reflexivity. Qed.

(** C7: for every integer and duration of the 64-bit range and every
    boolean, parsing the rendering gives the value back without error.
    For the variables: the rendering of a variable that holds [x], set
    into any variable of the same type, succeeds and writes [x] into
    that variable's cell, whatever the cell held; so setting a variable
    from its own rendering succeeds and leaves the store as it was. *)
Theorem parse_render_round_trip :
  (forall x : Z, - 2 ^ 63 <= x < 2 ^ 63 -> strconv.Atoi (strconv.Itoa x) = (x, None))
  /\ (forall b : bool, strconv.ParseBool (strconv.FormatBool b) = (b, None))
  /\ (forall d : Z,
        - 2 ^ 63 <= d < 2 ^ 63 -> time.ParseDuration (time.Duration_String d) = (d, None))
  /\ (forall (p q : loc) (h : store) (x : Z),
        h !! p = Some (CInt x) -> - 2 ^ 63 <= x < 2 ^ 63 ->
        intValue_Set q (intValue_String p h) h = (<[q := CInt x]> h, None))
  /\ (forall (p q : loc) (h : store) (b : bool),
        h !! p = Some (CBool b) ->
        boolValue_Set q (boolValue_String p h) h = (<[q := CBool b]> h, None))
  /\ (forall (p q : loc) (h : store) (d : Z),
        h !! p = Some (CDuration d) -> - 2 ^ 63 <= d < 2 ^ 63 ->
        durationValue_Set q (durationValue_String p h) h = (<[q := CDuration d]> h, None))
  /\ (forall (p : loc) (h : store) (x : Z),
        h !! p = Some (CInt x) -> - 2 ^ 63 <= x < 2 ^ 63 ->
        intValue_Set p (intValue_String p h) h = (h, None))
  /\ (forall (p : loc) (h : store) (b : bool),
        h !! p = Some (CBool b) ->
        boolValue_Set p (boolValue_String p h) h = (h, None))
  /\ (forall (p : loc) (h : store) (d : Z),
        h !! p = Some (CDuration d) -> - 2 ^ 63 <= d < 2 ^ 63 ->
        durationValue_Set p (durationValue_String p h) h = (h, None)).
Proof.
  split; [exact Atoi_Itoa|]. split; [exact ParseBool_FormatBool|].
  split; [exact ParseDuration_String|].
  assert (SI : forall (p q : loc) (h : store) (x : Z),
             h !! p = Some (CInt x) -> - 2 ^ 63 <= x < 2 ^ 63 ->
             intValue_Set q (intValue_String p h) h = (<[q := CInt x]> h, None)).
  { intros p q h x Hp Hx. unfold intValue_Set, intValue_String, read_int.
    rewrite Hp, (Atoi_Itoa x Hx). reflexivity. }
  assert (SB : forall (p q : loc) (h : store) (b : bool),
             h !! p = Some (CBool b) ->
             boolValue_Set q (boolValue_String p h) h = (<[q := CBool b]> h, None)).
  { intros p q h b Hp. unfold boolValue_Set, boolValue_String, read_bool.
    rewrite Hp, ParseBool_FormatBool. reflexivity. }
  assert (SD : forall (p q : loc) (h : store) (d : Z),
             h !! p = Some (CDuration d) -> - 2 ^ 63 <= d < 2 ^ 63 ->
             durationValue_Set q (durationValue_String p h) h
             = (<[q := CDuration d]> h, None)).
  { intros p q h d Hp Hd. unfold durationValue_Set, durationValue_String, read_duration.
    rewrite Hp, (ParseDuration_String d Hd). reflexivity. }
  split; [exact SI|]. split; [exact SB|]. split; [exact SD|]. split; [|split].
  - intros p h x Hp Hx. rewrite (SI p p h x Hp Hx), (list_insert_id h p _ Hp). reflexivity.
  - intros p h b Hp. rewrite (SB p p h b Hp), (list_insert_id h p _ Hp). reflexivity.
  - intros p h d Hp Hd. rewrite (SD p p h d Hp Hd), (list_insert_id h p _ Hp). reflexivity.
Qed.

End RoundTrip.

(** * Closed instances *)

(** The library models on texts whose renderings are known. *)
Example Duration_String_examples :
  time.Duration_String 5400000000001 = "1h30m0.000000001s"
  /\ time.Duration_String 1500 = ("1.5" ++ time.micro ++ "s")%string
  /\ time.Duration_String (- 2 ^ 63) = "-2562047h47m16.854775808s"
  /\ time.Duration_String 0 = "0s".
Proof. repeat split; vm_compute; reflexivity. Qed.

Example ParseDuration_examples :
  time.ParseDuration "1h30m" = (5400000000000, None)
  /\ time.ParseDuration "0.3333333333333333333h" = (1200000000000, None)
  /\ time.ParseDuration "1.5ns" = (1, None)
  /\ fst (time.ParseDuration "2562047h47m16.854775808s") = 0
  /\ fst (time.ParseDuration "soon") = 0.
Proof. repeat split; vm_compute; reflexivity. Qed.

Example Atoi_examples :
  strconv.Atoi "-123" = (-123, None)
  /\ strconv.Atoi "9223372036854775808"
     = (2 ^ 63 - 1, Some (strconv.rangeError "Atoi" "9223372036854775808"))
  /\ strconv.Atoi "12a" = (0, Some (strconv.syntaxError "Atoi" "12a")).
Proof. repeat split; vm_compute; reflexivity. Qed.

(** A registry named "my-service" with a required text variable and an
    integer variable, resolved against a source that has the empty text
    for the first and "abc" for the second: both fail, each error names
    its variable, and the summary counts both. *)
Example Parse_example :
  let g : Getter :=
    fun key => if (key =? "MY_SERVICE_HOST")%string then ("", true) else ("abc", true) in
  let run :=
    (@VarSet_StringRequired example_checks "HOST" "peer" ;;;
     @VarSet_Int example_tables "PORT" "listen port" ;;;
     @VarSet_Parse example_tables g)
      (empty_world (@NewVarSet example_tables "my-service")) in
  fst run =
    Some [Some (errorString "could not set env MY_SERVICE_HOST: empty");
          Some (errorString ("could not set env MY_SERVICE_PORT: parsing "
                             ++ String dquote ("abc" ++ String dquote ": invalid syntax")))]
  /\ heap (snd run) = [CString ""; CInt 0]
  /\ option_map (@Errors_Error example_tables) (fst run)
     = Some "could not set env MY_SERVICE_HOST: empty (and 1 other error)".
Proof. repeat split; vm_compute; reflexivity. Qed.

(** C2, at the registry with the one variable PORT and a source without
    keys: the hypotheses of [missing_variable_recorded] hold there. *)
Lemma missing_variable_recorded_witness :
  (exists errs : Errors,
     fst (@VarSet_Parse example_tables (no_keys (fun _ => "")) example_world) = Some errs
     /\ In (Some (errorString "missing env PORT")) errs)
  /\ ~ In 0%nat
        (set_calls
           (fst (fst (@pass example_tables (no_keys (fun _ => "")) 0
                        (vars (registry example_world)) (heap example_world))))).
Proof.
  pose proof (@missing_variable_recorded example_tables (no_keys (fun _ => ""))
                example_world 0%nat example_var eq_refl eq_refl) as (A & _ & _ & B).
  split; [exact A|exact B].
Defined.

(** C2 as the specification words it fails at the same input: PORT is
    registered and not found, and no error with the text
    "missing environment variable PORT", with or without backquotes
    around the name, is among those of the pass. *)
Lemma missing_message_counterexample :
  ~ @records_missing_as example_tables
      (fun n => "missing environment variable " ++ n)%string
      (no_keys (fun _ => "")) example_world
  /\ ~ @records_missing_as example_tables
        (fun n => "missing environment variable `" ++ n ++ "`")%string
        (no_keys (fun _ => "")) example_world.
Proof.
  split; intros C; destruct (C 0%nat example_var eq_refl eq_refl) as (errs & E & I);
    vm_compute in E; injection E as <-; destruct I as [I|[]]; discriminate I.
Qed.


(** C7, at -42, at one and a half hours and a nanosecond, and at
    variables that hold 7, true and the least duration, each rendered
    and set into a second variable that holds something else. *)
Lemma parse_render_round_trip_witness :
  strconv.Atoi (strconv.Itoa (-42)) = (-42, None)
  /\ time.ParseDuration (time.Duration_String 5400000000001) = (5400000000001, None)
  /\ @intValue_Set example_tables 1 (intValue_String 0 [CInt 7; CInt 0]) [CInt 7; CInt 0]
     = ([CInt 7; CInt 7], None)
  /\ @boolValue_Set example_tables 1 (boolValue_String 0 [CBool true; CBool false])
        [CBool true; CBool false]
     = ([CBool true; CBool true], None)
  /\ durationValue_Set 1 (durationValue_String 0 [CDuration (- 2 ^ 63); CDuration 5])
        [CDuration (- 2 ^ 63); CDuration 5]
     = ([CDuration (- 2 ^ 63); CDuration (- 2 ^ 63)], None)
  /\ @intValue_Set example_tables 0 (intValue_String 0 [CInt 7]) [CInt 7] = ([CInt 7], None).
Proof.
  destruct (@parse_render_round_trip example_tables)
    as (A & _ & D & SI & SB & SD & VI & _ & _).
  split; [apply A; lia|]. split; [apply D; lia|].
  split; [apply (SI 0%nat 1%nat [CInt 7; CInt 0] 7 eq_refl); lia|].
  split; [exact (SB 0%nat 1%nat [CBool true; CBool false] true eq_refl)|].
  split; [apply (SD 0%nat 1%nat [CDuration (- 2 ^ 63); CDuration 5] (- 2 ^ 63) eq_refl); lia|].
  apply (VI 0%nat [CInt 7] 7 eq_refl). lia.
Defined.

(** C9, at the registry with the one variable PORT and a source without
    keys, where the pass returns one error. *)
Lemma Parse_errors_non_nil_witness :
  Forall is_Some [Some (errorString "missing env PORT")]
  /\ List.length (non_nil [Some (errorString "missing env PORT")]) = 1%nat.
Proof.
  destruct (@Parse_errors_non_nil example_tables (no_keys (fun _ => "")) example_world
              [Some (errorString "missing env PORT")] eq_refl) as (A & _ & B & _).
  split; [exact A|exact B].
Defined.

(** * Further properties *)

Section TextValue.

(** X1: a text variable takes every text as it is: [Set] never fails
    and writes the text into the cell, so that rendering gives it back;
    and setting a variable from its own rendering changes nothing. *)
Theorem stringValue_holds_text (p : loc) (x : string) (h : store) :
  (p < List.length h)%nat ->
  Value_Set (stringValue p) x h = (<[p := CString x]> h, None)
  /\ Value_String (stringValue p) (fst (Value_Set (stringValue p) x h)) = x
  /\ (forall s : string,
        h !! p = Some (CString s) ->
        Value_Set (stringValue p) (Value_String (stringValue p) h) h = (h, None)).
Proof.
  intros Hp. split; [reflexivity|]. split.
  - cbn. unfold stringValue_String. apply read_string_insert, Hp.
  - intros s Hs. cbn. unfold stringValue_Set, stringValue_String, read_string.
    rewrite Hs, (list_insert_id h p _ Hs). reflexivity.
Qed.

End TextValue.

Section Factories.
Context `{UnicodeTables} `{Checks}.

Lemma insert_new_cell (h : store) (c c' : cell) :
  <[List.length h := c']> (h ++ [c])%list = (h ++ [c'])%list.
Proof.
  rewrite <- (Nat.add_0_r (List.length h)), insert_app_r. reflexivity.
Qed.

(** X2: [String], [Int], [Bool] and [Duration] each allocate one new
    cell holding the zero value of the type -- the empty text, 0, false,
    the zero duration -- and return its place; no existing cell
    changes. *)
Theorem plain_factories_allocate (N usage : string) :
  allocates (VarSet_String N usage) (CString "")
  /\ allocates (VarSet_Int N usage) (CInt 0)
  /\ allocates (VarSet_Bool N usage) (CBool false)
  /\ allocates (VarSet_Duration N usage) (CDuration 0).
Proof.
  repeat split; run_M; cbn [heap calls]; try reflexivity; apply insert_new_cell.
Qed.

(** X3: the factories that validate -- [StringRequired], [BindAddr],
    [DialAddr], [Path] -- each allocate one new cell holding the empty
    text and return its place; no existing cell changes. *)
Theorem checked_factories_allocate (N usage : string) :
  allocates (VarSet_StringRequired N usage) (CString "")
  /\ allocates (VarSet_BindAddr N usage) (CString "")
  /\ allocates (VarSet_DialAddr N usage) (CString "")
  /\ allocates (VarSet_Path N usage) (CString "").
Proof.
  repeat split; run_M; cbn [heap calls]; try reflexivity; apply insert_new_cell.
Qed.

End Factories.

Section Visiting.
Context `{UnicodeTables}.

Lemma Visit_loop_observe (ev : Var -> event) (xs : list Var) :
  forall w : world,
    Visit_loop (observe ev) xs w =
      (tt, {| registry := registry w; heap := heap w;
              calls := (calls w ++ map ev xs)%list |}).
Proof.
  induction xs as [|x xs IH]; intros w.
  - cbn. unfold ret. rewrite app_nil_r. destruct w; reflexivity.
  - cbn [Visit_loop map]. unfold bind, observe at 1, record. rewrite IH.
    cbn [registry heap calls]. rewrite <- app_assoc. reflexivity.
Qed.

Lemma Visit_loop_declaring (ev : Var -> event) (value : Value) (N usage : string)
      (xs : list Var) :
  forall w : world,
    Visit_loop (fun x => observe ev x ;;; VarSet_Var value N usage) xs w =
      (tt, {| registry :=
                set_vars (registry w)
                  (vars (registry w)
                   ++ replicate (List.length xs)
                        {| Name := qualified (prefix (registry w)) N; Usage := usage;
                           Var_Value := value |})%list;
              heap := heap w;
              calls := (calls w ++ map ev xs)%list |}).
Proof.
  induction xs as [|x xs IH]; intros w.
  - cbn. unfold ret, set_vars. rewrite !app_nil_r. destruct w as [[]]; reflexivity.
  - assert (E : (observe ev x ;;; VarSet_Var value N usage) w =
                 (tt, {| registry :=
                           set_vars (registry w)
                             (vars (registry w)
                              ++ [{| Name := qualified (prefix (registry w)) N;
                                     Usage := usage; Var_Value := value |}])%list;
                         heap := heap w;
                         calls := (calls w ++ [ev x])%list |})).
    { unfold observe, VarSet_Var. run_M. rewrite qualified_eq. reflexivity. }
    cbn [Visit_loop]. unfold bind at 1. cbv beta. rewrite E, IH.
    unfold set_vars. cbn [registry heap calls prefix vars name map List.length replicate].
    rewrite <- !app_assoc. reflexivity.
Qed.

Lemma VarSet_Visit_loop (fn : Var -> M unit) (w : world) :
  VarSet_Visit fn w = Visit_loop fn (vars (registry w)) w.
Proof. reflexivity. Qed.

(** X4: [Visit] shows the callback every variable once, in the order of
    declaration, and changes nothing itself; variables that the callback
    declares during the visit are registered but not visited. *)
Theorem Visit_in_declaration_order (ev : Var -> event) (w : world) :
  VarSet_Visit (observe ev) w =
    (tt, {| registry := registry w; heap := heap w;
            calls := (calls w ++ map ev (vars (registry w)))%list |})
  /\ (forall (value : Value) (N usage : string),
        let w' := snd (VarSet_Visit (fun x => observe ev x ;;; VarSet_Var value N usage) w) in
        calls w' = (calls w ++ map ev (vars (registry w)))%list
        /\ List.length (vars (registry w')) = (2 * List.length (vars (registry w)))%nat
        /\ take (List.length (vars (registry w))) (vars (registry w')) = vars (registry w)).
Proof.
  split.
  - rewrite VarSet_Visit_loop. apply Visit_loop_observe.
  - intros value N usage w'. subst w'.
    rewrite VarSet_Visit_loop, Visit_loop_declaring. cbn [snd calls registry set_vars vars].
    split; [reflexivity|]. split.
    + rewrite length_app, length_replicate. lia.
    + apply take_app_length.
Qed.

Lemma pass_calls (g : Getter) (xs : list Var) :
  forall (i : nat) (h : store),
    fst (fst (pass g i xs h)) = concat (imap (fun j => calls_for g (i + j)) xs).
Proof.
  induction xs as [|x xs IH]; intros i h; [reflexivity|].
  cbn [pass imap concat]. unfold attempt, calls_for at 1. rewrite Nat.add_0_r.
  destruct (g (Name x)) as [z [|]].
  - destruct (Value_Set (Var_Value x) z h) as [h' r].
    specialize (IH (S i) h'). destruct (pass g (S i) xs h') as [[evs' rs] h''].
    cbn [fst] in *. rewrite IH. f_equal. f_equal. apply imap_ext. intros j y _. cbn.
    f_equal. lia.
  - specialize (IH (S i) h). destruct (pass g (S i) xs h) as [[evs' rs] h''].
    cbn [fst] in *. rewrite IH. f_equal. f_equal. apply imap_ext. intros j y _. cbn.
    f_equal. lia.
Qed.

Lemma In_calls_for (g : Getter) (xs : list Var) :
  forall (i k : nat) (z : string),
    In (EvSet k z) (concat (imap (fun j => calls_for g (i + j)) xs))
    <-> exists j x, k = (i + j)%nat /\ xs !! j = Some x /\ g (Name x) = (z, true).
Proof.
  induction xs as [|x xs IH]; intros i k z.
  - cbn. split; [intros []|intros (j & x & _ & Hx & _); discriminate].
  - cbn [imap concat]. rewrite in_app_iff.
    rewrite (imap_ext _ (fun j => calls_for g (S i + j)) xs)
      by (intros j y _; cbn; f_equal; lia).
    rewrite IH. rewrite Nat.add_0_r. split.
    + intros [Hin|(j & y & -> & Hy & Hg)].
      * exists 0%nat, x. unfold calls_for in Hin.
        destruct (g (Name x)) as [z' [|]]; cbn in Hin.
        -- destruct Hin as [Hin|[Hin|[]]]; [discriminate|]. injection Hin as -> ->.
           repeat split. lia.
        -- destruct Hin as [Hin|[]]. discriminate.
      * exists (S j), y. repeat split; [lia|assumption..].
    + intros (j & y & -> & Hy & Hg). destruct j as [|j].
      * left. cbn in Hy. injection Hy as ->. unfold calls_for. rewrite Hg.
        rewrite Nat.add_0_r. right. left. reflexivity.
      * right. exists j, y. repeat split; [lia|assumption..].
Qed.

(** X5: the calls of a pass are, for each variable in order, the lookup
    of its name followed, when the source has a text for it, by one
    [Set] with exactly that text: [Set] is called for a variable if and
    only if its name was found. *)
Theorem Parse_calls_each_found_Set_once (g : Getter) (w : world) :
  calls (snd (VarSet_Parse g w))
  = (calls w ++ concat (imap (calls_for g) (vars (registry w))))%list
  /\ (forall (i : nat) (z : string),
        In (EvSet i z) (concat (imap (calls_for g) (vars (registry w))))
        <-> exists x, vars (registry w) !! i = Some x /\ g (Name x) = (z, true)).
Proof.
  split.
  - rewrite VarSet_Parse_pass. pose proof (pass_calls g (vars (registry w)) 0 (heap w)) as C.
    destruct (pass g 0 (vars (registry w)) (heap w)) as [[evs rs] h'].
    cbn [fst snd calls] in *. rewrite C. reflexivity.
  - intros i z. pose proof (In_calls_for g (vars (registry w)) 0 i z) as I.
    cbn in I. rewrite I. split.
    + intros (j & x & -> & Hx & Hg). eauto.
    + intros (x & Hx & Hg). exists i, x. repeat split; assumption.
Qed.

End Visiting.

Section Summary.
Context `{UnicodeTables}.

Lemma Errors_Error_non_nil (me : Errors) :
  Errors_Error me =
    match non_nil me with
    | [] => "(0 errors)"
    | e :: es => strconv.Error e ++ others (S (List.length es))
    end.
Proof.
  unfold Errors_Error. rewrite Errors_scan_spec by lia.
  destruct (non_nil me) as [|e [|e' [|e'' es]]]; try reflexivity.
  - cbn. symmetry. apply append_nil_r.
  - cbn [List.length].
    replace (0 + Z.of_nat (S (S (S (List.length es))))) with (Z.of_nat (List.length es) + 3) by lia.
    destruct (Z.eqb_spec (Z.of_nat (List.length es) + 3) 0); [lia|].
    destruct (Z.eqb_spec (Z.of_nat (List.length es) + 3) 1); [lia|].
    destruct (Z.eqb_spec (Z.of_nat (List.length es) + 3) 2); [lia|].
    unfold others, fmt.verb_d, strconv.Itoa. do 3 f_equal. f_equal. lia.
Qed.

(** X6: the summary of an aggregate looks at its non-nil entries only:
    two aggregates with the same non-nil entries in the same order have
    the same summary, and nil entries can be dropped. *)
Theorem Errors_Error_skips_nil (me me' : Errors) :
  Errors_Error me = Errors_Error (map Some (non_nil me))
  /\ (non_nil me = non_nil me' -> Errors_Error me = Errors_Error me').
Proof.
  split.
  - rewrite !Errors_Error_non_nil, non_nil_map_Some. reflexivity.
  - intros E. rewrite !Errors_Error_non_nil, E. reflexivity.
Qed.

(** X7: when a pass fails, what it returns is not empty, its first entry
    is the error of the first variable that failed, and its summary is
    that error's message followed by the count of the others. *)
Theorem Parse_summary_names_first_failure (g : Getter) (w : world) (errs : Errors) :
  fst (VarSet_Parse g w) = Some errs ->
  exists (e : error) (rest : Errors),
    errs = Some e :: rest
    /\ head (non_nil (snd (fst (pass g 0 (vars (registry w)) (heap w))))) = Some e
    /\ Errors_Error errs = (strconv.Error e ++ others (List.length errs))%string.
Proof.
  rewrite VarSet_Parse_pass.
  destruct (pass g 0 (vars (registry w)) (heap w)) as [[evs rs] h'].
  cbn [fst snd]. fold (non_nil rs). destruct (non_nil rs) as [|e es] eqn:N; [discriminate|].
  intros [= <-]. exists e, (map Some es). split; [reflexivity|]. split; [reflexivity|].
  rewrite Errors_Error_non_nil. change (Some e :: map Some es) with (map Some (e :: es)).
  rewrite non_nil_map_Some, length_map. reflexivity.
Qed.

End Summary.

Section Ownership.
Context `{UnicodeTables} `{Checks}.

Lemma owns_stringValue (p : loc) : owns (stringValue p) p.
Proof. exists (fun x => Some (CString x)), (fun _ => None). reflexivity. Qed.

Lemma owns_intValue (p : loc) : owns (intValue p) p.
Proof.
  exists (fun x => Some (CInt (fst (strconv.Atoi x)))), (fun x => snd (intValue_Set p x [])).
  intros x h. cbn [Value_Set intValue]. unfold intValue_Set.
  destruct (strconv.Atoi x) as [n [[m|fn' num e']|]]; reflexivity.
Qed.

Lemma owns_boolValue (p : loc) : owns (boolValue p) p.
Proof.
  exists (fun x => Some (CBool (fst (strconv.ParseBool x)))), (fun x => snd (boolValue_Set p x [])).
  intros x h. cbn [Value_Set boolValue]. unfold boolValue_Set.
  destruct (strconv.ParseBool x) as [n [[m|fn' num e']|]]; reflexivity.
Qed.

Lemma owns_durationValue (p : loc) : owns (durationValue p) p.
Proof.
  exists (fun x => Some (CDuration (fst (time.ParseDuration x)))),
         (fun x => snd (time.ParseDuration x)).
  intros x h. cbn [Value_Set durationValue]. unfold durationValue_Set.
  destruct (time.ParseDuration x) as [d err]; reflexivity.
Qed.

Lemma owns_checked (check : string -> option error) (v : Value) (p : loc) :
  owns v p -> owns (checkedValue_Value {| fn := check; checked := v |}) p.
Proof.
  intros (f & e & Hv).
  exists (fun x => match check x with Some _ => None | None => f x end),
         (fun x => match check x with Some err => Some err | None => e x end).
  intros x h. cbn [Value_Set checkedValue_Value]. unfold checkedValue_Set. cbn [fn checked].
  destruct (check x); [reflexivity|apply Hv].
Qed.

Lemma owns_length (v : Value) (p : loc) (x : string) (h : store) :
  owns v p -> List.length (fst (Value_Set v x h)) = List.length h.
Proof.
  intros (f & e & Hv). rewrite Hv. cbn [fst].
  destruct (f x); [apply length_insert|reflexivity].
Qed.

Lemma owns_frame (v : Value) (p q : loc) (x : string) (h : store) :
  owns v p -> q <> p -> fst (Value_Set v x h) !! q = h !! q.
Proof.
  intros (f & e & Hv) Hq. rewrite Hv. cbn [fst].
  destruct (f x); [apply list_lookup_insert_ne; congruence|reflexivity].
Qed.

(** What [Set] leaves in its own cell does not depend on the other
    cells. *)
Lemma owns_own_cell (v : Value) (p : loc) (x : string) (h h' : store) :
  owns v p -> (p < List.length h)%nat -> (p < List.length h')%nat -> h !! p = h' !! p ->
  fst (Value_Set v x h) !! p = fst (Value_Set v x h') !! p.
Proof.
  intros (f & e & Hv) Hp Hp' E. rewrite !Hv. cbn [fst].
  destruct (f x); [|exact E]. now rewrite !list_lookup_insert_eq.
Qed.

Lemma owns_error (v : Value) (p : loc) (x : string) (h h' : store) :
  owns v p -> snd (Value_Set v x h) = snd (Value_Set v x h').
Proof. intros (f & e & Hv). now rewrite !Hv. Qed.

Lemma after_sets_cons (g : Getter) (x : Var) (xs : list Var) (h : store) :
  after_sets g (x :: xs) h = after_sets g xs (set_found g h x).
Proof. reflexivity. Qed.

Lemma set_found_length (g : Getter) (h : store) (x : Var) (p : loc) :
  owns (Var_Value x) p -> List.length (set_found g h x) = List.length h.
Proof.
  intros Ho. unfold set_found. destruct (g (Name x)) as [z [|]]; [|reflexivity].
  now apply owns_length with p.
Qed.

Lemma set_found_frame (g : Getter) (h : store) (x : Var) (p q : loc) :
  owns (Var_Value x) p -> q <> p -> set_found g h x !! q = h !! q.
Proof.
  intros Ho Hq. unfold set_found. destruct (g (Name x)) as [z [|]]; [|reflexivity].
  now apply owns_frame with p.
Qed.

Lemma after_sets_length (g : Getter) (xs : list Var) :
  forall (ps : list loc) (h : store),
    Forall2 (fun x p => owns (Var_Value x) p) xs ps ->
    List.length (after_sets g xs h) = List.length h.
Proof.
  induction xs as [|x xs IH]; intros ps h F; [reflexivity|].
  inversion F as [|? p ? ps' Ho F']; subst. rewrite after_sets_cons, (IH ps') by assumption.
  now apply set_found_length with p.
Qed.

Lemma after_sets_frame (g : Getter) (xs : list Var) :
  forall (ps : list loc) (h : store) (q : loc),
    Forall2 (fun x p => owns (Var_Value x) p) xs ps ->
    ~ In q ps ->
    after_sets g xs h !! q = h !! q.
Proof.
  induction xs as [|x xs IH]; intros ps h q F Hq; [reflexivity|].
  inversion F as [|? p ? ps' Ho F']; subst. rewrite after_sets_cons, (IH ps') by (try assumption; cbn in Hq; tauto).
  apply set_found_frame with p; [assumption|]. cbn in Hq. intros ->. tauto.
Qed.

(** After a pass each cell holds what its own variable's [Set] left
    there, as if no other variable had been set. *)
Lemma after_sets_own_cell (g : Getter) (xs : list Var) :
  forall (ps : list loc) (h : store) (i : nat) (x : Var) (p : loc),
    Forall2 (fun x p => owns (Var_Value x) p) xs ps ->
    NoDup ps ->
    Forall (fun p => (p < List.length h)%nat) ps ->
    xs !! i = Some x -> ps !! i = Some p ->
    after_sets g xs h !! p = set_found g h x !! p.
Proof.
  induction xs as [|x0 xs IH]; intros ps h i x p F ND B Hx Hp; [discriminate|].
  inversion F as [|? p0 ? ps' Ho F']; subst.
  apply NoDup_cons in ND as [Hnotin ND]. apply Forall_cons in B as [Bp0 B].
  rewrite after_sets_cons. destruct i as [|i]; cbn in Hx, Hp.
  - injection Hx as ->. injection Hp as ->.
    apply after_sets_frame with ps'; [assumption|].
    intros Hin. apply Hnotin. now apply list_elem_of_In.
  - assert (Hin : In p ps') by (apply list_elem_of_In, list_elem_of_lookup; eauto).
    assert (Hne : p <> p0) by (intros ->; apply Hnotin; now apply list_elem_of_In).
    assert (Hox : owns (Var_Value x) p).
    { clear - F' Hx Hp. revert i ps' F' Hx Hp.
      induction xs as [|y ys IHy]; intros i ps' F' Hx Hp; [discriminate|].
      inversion F'; subst. destruct i; cbn in Hx, Hp.
      - injection Hx as ->. injection Hp as ->. assumption.
      - eapply IHy; eassumption. }
    rewrite (IH ps' (set_found g h x0) i x p); try assumption.
    + unfold set_found at 1 3. destruct (g (Name x)) as [z [|]].
      * apply owns_own_cell; try assumption.
        -- rewrite (set_found_length g h x0 p0) by assumption.
           rewrite Forall_forall in B. apply B. now apply list_elem_of_In.
        -- rewrite Forall_forall in B. apply B. now apply list_elem_of_In.
        -- now apply set_found_frame with p0.
      * now apply set_found_frame with p0.
    + rewrite (set_found_length g h x0 p0) by assumption. exact B.
Qed.

Lemma pass_outcomes (g : Getter) (xs : list Var) :
  forall (ps : list loc) (i : nat) (h : store),
    Forall2 (fun x p => owns (Var_Value x) p) xs ps ->
    snd (fst (pass g i xs h)) = map (outcome g) xs.
Proof.
  induction xs as [|x xs IH]; intros ps i h F; [reflexivity|].
  inversion F as [|? p ? ps' Ho F']; subst.
  cbn [pass map]. unfold attempt, outcome at 1.
  destruct (g (Name x)) as [z [|]].
  - pose proof (owns_error (Var_Value x) p z h [] Ho) as E.
    destruct (Value_Set (Var_Value x) z h) as [h' r]. cbn [snd] in E.
    specialize (IH ps' (S i) h' F'). destruct (pass g (S i) xs h') as [[evs' rs] h''].
    cbn [fst snd] in *. now rewrite IH, E.
  - specialize (IH ps' (S i) h F'). destruct (pass g (S i) xs h) as [[evs' rs] h''].
    cbn [fst snd] in *. now rewrite IH.
Qed.

End Ownership.

Section Handles.
Context `{UnicodeTables} `{Checks}.

Lemma handles_split (w : world) (ps : list loc) :
  handles w ps ->
  Forall2 (fun x p => owns (Var_Value x) p) (vars (registry w)) ps
  /\ Forall (fun p => (p < List.length (heap w))%nat) ps
  /\ NoDup ps.
Proof.
  intros [F ND]. split; [|split; [|exact ND]].
  - eapply Forall2_impl; [exact F|]. cbn. tauto.
  - clear ND. induction F as [|x p xs ps' [_ Hp] F IH]; constructor; assumption.
Qed.

Lemma handles_join (w : world) (ps : list loc) :
  Forall2 (fun x p => owns (Var_Value x) p) (vars (registry w)) ps ->
  Forall (fun p => (p < List.length (heap w))%nat) ps ->
  NoDup ps ->
  handles w ps.
Proof.
  intros F B ND. split; [|exact ND]. clear ND.
  induction F as [|x p xs ps' Ho F IH]; constructor.
  - split; [exact Ho|]. now inversion B.
  - apply IH. now inversion B.
Qed.

Lemma factories_declare (N usage : string) :
  declares (VarSet_String N usage) stringValue (CString "") N usage
  /\ declares (VarSet_Int N usage) intValue (CInt 0) N usage
  /\ declares (VarSet_Bool N usage) boolValue (CBool false) N usage
  /\ declares (VarSet_Duration N usage) durationValue (CDuration 0) N usage
  /\ declares (VarSet_StringRequired N usage)
       (fun p => checkedValue_Value {| fn := isNonEmpty; checked := stringValue p |})
       (CString "") N usage
  /\ declares (VarSet_BindAddr N usage)
       (fun p => checkedValue_Value {| fn := isBindAddr; checked := stringValue p |})
       (CString "") N usage
  /\ declares (VarSet_DialAddr N usage)
       (fun p => checkedValue_Value {| fn := isDialAddr; checked := stringValue p |})
       (CString "") N usage
  /\ declares (VarSet_Path N usage)
       (fun p => checkedValue_Value {| fn := isPath; checked := stringValue p |})
       (CString "") N usage.
Proof.
  unfold VarSet_String, VarSet_Int, VarSet_Bool, VarSet_Duration, VarSet_StringRequired,
    VarSet_BindAddr, VarSet_DialAddr, VarSet_Path, newStringValue, newIntValue,
    newBoolValue, newDurationValue, VarSet_Var.
  repeat split; intros w; run_M; rewrite insert_new_cell, qualified_eq; reflexivity.
Qed.

Lemma handles_declare (w : world) (ps : list loc) (x : Var) (c : cell) (evs : list event) :
  handles w ps ->
  owns (Var_Value x) (List.length (heap w)) ->
  handles {| registry := set_vars (registry w) (vars (registry w) ++ [x])%list;
             heap := (heap w ++ [c])%list; calls := evs |}
          (ps ++ [List.length (heap w)])%list.
Proof.
  intros (F & B & ND)%handles_split Ho. apply handles_join; cbn [registry heap set_vars vars].
  - apply Forall2_app; [exact F|]. constructor; [exact Ho|constructor].
  - rewrite length_app. cbn [List.length]. apply Forall_app. split.
    + eapply Forall_impl; [exact B|]. cbn. lia.
    + constructor; [lia|constructor].
  - apply NoDup_app. split; [exact ND|]. split.
    + intros p Hp Hq. apply list_elem_of_singleton in Hq as ->.
      rewrite Forall_forall in B. specialize (B _ Hp). lia.
    + apply NoDup_singleton.
Qed.

Lemma declares_handles (m : M loc) (val : loc -> Value) (zero : cell) (N usage : string)
      (w : world) (ps : list loc) :
  declares m val zero N usage ->
  (forall p, owns (val p) p) ->
  handles w ps ->
  handles (snd (m w)) (ps ++ [fst (m w)]).
Proof.
  intros D Ho Hw. rewrite (D w). cbn [fst snd]. apply handles_declare; [exact Hw|apply Ho].
Qed.

Lemma Parse_heap (g : Getter) (w : world) :
  heap (snd (VarSet_Parse g w)) = after_sets g (vars (registry w)) (heap w).
Proof.
  rewrite VarSet_Parse_pass. rewrite <- (pass_store g (vars (registry w)) 0 (heap w)).
  destruct (pass g 0 (vars (registry w)) (heap w)) as [[evs rs] h']. reflexivity.
Qed.

Lemma Parse_registry (g : Getter) (w : world) :
  registry (snd (VarSet_Parse g w)) = registry w.
Proof.
  rewrite VarSet_Parse_pass.
  destruct (pass g 0 (vars (registry w)) (heap w)) as [[evs rs] h']. reflexivity.
Qed.

Lemma Parse_fst (g : Getter) (w : world) :
  fst (VarSet_Parse g w) =
    match non_nil (snd (fst (pass g 0 (vars (registry w)) (heap w)))) with
    | [] => None
    | es => Some (map Some es)
    end.
Proof.
  rewrite VarSet_Parse_pass.
  destruct (pass g 0 (vars (registry w)) (heap w)) as [[evs rs] h']. reflexivity.
Qed.

Lemma Parse_handles (g : Getter) (w : world) (ps : list loc) :
  handles w ps -> handles (snd (VarSet_Parse g w)) ps.
Proof.
  intros (F & B & ND)%handles_split. apply handles_join.
  - rewrite Parse_registry. exact F.
  - rewrite Parse_heap, (after_sets_length g _ ps) by exact F. exact B.
  - exact ND.
Qed.

Lemma set_found_again (g : Getter) (h h1 : store) (x : Var) (p : loc) :
  owns (Var_Value x) p ->
  (p < List.length h1)%nat ->
  h1 !! p = set_found g h x !! p ->
  set_found g h1 x !! p = h1 !! p.
Proof.
  intros (f & e & Hv) Hp E. unfold set_found in *.
  destruct (g (Name x)) as [z [|]]; [|reflexivity].
  rewrite (Hv z h) in E. rewrite (Hv z h1). cbn [fst] in *.
  destruct (f z) as [c|]; [|reflexivity].
  rewrite list_lookup_insert_eq by exact Hp. rewrite E.
  destruct (decide (p < List.length h)%nat) as [Hlt|Hge].
  - now rewrite list_lookup_insert_eq.
  - rewrite list_insert_ge in E by lia.
    destruct (lookup_lt_is_Some_2 h1 p Hp) as [c' Hc'].
    rewrite E in Hc'. apply lookup_lt_Some in Hc'. lia.
Qed.

(** X8: in a registry whose variables each keep their state in a cell of
    their own, a pass changes a variable's cell through that variable's
    own [Set] only: afterwards the cell holds what [Set] with the text
    found left there, or its old content when the name was not found,
    whatever the other variables did; the cells of no variable are
    untouched, and the variables still own their cells. *)
Theorem Parse_sets_each_cell_alone (g : Getter) (w : world) (ps : list loc) :
  handles w ps ->
  handles (snd (VarSet_Parse g w)) ps
  /\ List.length (heap (snd (VarSet_Parse g w))) = List.length (heap w)
  /\ (forall q : loc, ~ In q ps -> heap (snd (VarSet_Parse g w)) !! q = heap w !! q)
  /\ (forall (i : nat) (x : Var) (p : loc),
        vars (registry w) !! i = Some x -> ps !! i = Some p ->
        heap (snd (VarSet_Parse g w)) !! p = set_found g (heap w) x !! p).
Proof.
  intros Hw. split; [now apply Parse_handles|].
  destruct (handles_split _ _ Hw) as (F & B & ND). rewrite Parse_heap.
  split; [now apply after_sets_length with ps|]. split.
  - intros q Hq. now apply after_sets_frame with ps.
  - intros i x p Hx Hp. now apply after_sets_own_cell with ps i.
Qed.


(** X10: in a registry whose variables each keep their state in a cell
    of their own, written by a [Set] that does not read the store -- as
    in every registry built through the typed factories -- a second pass
    over the same source changes no cell and returns what the first
    returned.  A value whose [Set] reads the store, a counter say, is
    outside this condition, and a second pass does change it. *)
Theorem Parse_twice (g : Getter) (w : world) (ps : list loc) :
  handles w ps ->
  fst (VarSet_Parse g (snd (VarSet_Parse g w))) = fst (VarSet_Parse g w)
  /\ heap (snd (VarSet_Parse g (snd (VarSet_Parse g w)))) = heap (snd (VarSet_Parse g w)).
Proof.
  intros Hw. pose proof (Parse_handles g w ps Hw) as Hw1.
  destruct (handles_split _ _ Hw) as (F & B & ND).
  destruct (handles_split _ _ Hw1) as (F1 & B1 & _).
  split.
  - rewrite !Parse_fst. rewrite (pass_outcomes g _ ps) by exact F1.
    rewrite (pass_outcomes g _ ps) by exact F. now rewrite Parse_registry.
  - rewrite (Parse_heap g (snd (VarSet_Parse g w))). rewrite Parse_registry.
    apply list_eq. intros q. destruct (decide (q ∈ ps)) as [Hq|Hq].
    + apply list_elem_of_lookup in Hq as [i Hp].
      destruct (Forall2_lookup_r _ _ _ _ _ F Hp) as (x & Hx & Ho).
      rewrite (after_sets_own_cell g _ ps _ i x q) by assumption.
      apply set_found_again with (heap w); [exact Ho| |].
      * rewrite Forall_forall in B1. apply B1. apply list_elem_of_lookup. eauto.
      * rewrite Parse_heap. now apply after_sets_own_cell with ps i.
    + apply after_sets_frame with ps; [exact F|]. intros Hin. apply Hq.
      now apply list_elem_of_In.
Qed.

Lemma built_registry_handles (nm : string) (w : world) (ps : list loc) (Ns : list string) :
  built nm w ps Ns ->
  name (registry w) = nm /\ prefix (registry w) = prefix (NewVarSet nm)
  /\ map Name (vars (registry w)) = map (qualified (prefix (NewVarSet nm))) Ns
  /\ handles w ps.
Proof.
  intros B.
  induction B as [h evs|N usage w ps Ns B IH|N usage w ps Ns B IH|N usage w ps Ns B IH
                  |N usage w ps Ns B IH|N usage w ps Ns B IH|N usage w ps Ns B IH
                  |N usage w ps Ns B IH|N usage w ps Ns B IH|g w ps Ns B IH].
  1: { cbn [registry NewVarSet name prefix vars].
       split; [reflexivity|]. split; [reflexivity|]. split; [reflexivity|].
       split; constructor. }
  9: { destruct IH as (I1 & I2 & I3 & I4). rewrite Parse_registry.
       split; [exact I1|]. split; [exact I2|]. split; [exact I3|].
       now apply Parse_handles. }
  all: destruct IH as (I1 & I2 & I3 & I4);
    destruct (factories_declare N usage) as (D1 & D2 & D3 & D4 & D5 & D6 & D7 & D8).
  1: pose proof D1 as D; pose proof (declares_handles _ _ _ _ _ w ps D owns_stringValue I4) as Hh.
  2: pose proof D5 as D;
     pose proof (declares_handles _ _ _ _ _ w ps D
                   (fun p => owns_checked _ _ p (owns_stringValue p)) I4) as Hh.
  3: pose proof D2 as D; pose proof (declares_handles _ _ _ _ _ w ps D owns_intValue I4) as Hh.
  4: pose proof D3 as D; pose proof (declares_handles _ _ _ _ _ w ps D owns_boolValue I4) as Hh.
  5: pose proof D4 as D; pose proof (declares_handles _ _ _ _ _ w ps D owns_durationValue I4) as Hh.
  6: pose proof D6 as D;
     pose proof (declares_handles _ _ _ _ _ w ps D
                   (fun p => owns_checked _ _ p (owns_stringValue p)) I4) as Hh.
  7: pose proof D7 as D;
     pose proof (declares_handles _ _ _ _ _ w ps D
                   (fun p => owns_checked _ _ p (owns_stringValue p)) I4) as Hh.
  8: pose proof D8 as D;
     pose proof (declares_handles _ _ _ _ _ w ps D
                   (fun p => owns_checked _ _ p (owns_stringValue p)) I4) as Hh.
  all: split; [|split; [|split; [|exact Hh]]]; rewrite (D w);
    cbn [snd registry set_vars name prefix vars]; try assumption;
    rewrite !map_app, I3; cbn [map Name]; now rewrite I2.
Qed.

(** X11: whatever is declared through the typed factories and however
    often the registry is parsed, the name and the prefix stay what
    [NewVarSet] made them, [Name] and [Prefix] report them and change
    nothing, the names of the variables are, in the order of
    declaration, the names they were declared with, each joined to the
    prefix (by an underscore, unless the prefix is empty), and the
    handles returned are the cells of the variables, in order, each
    written by its own variable alone (a validated variable being the
    wrapper of the specification around a text variable). *)
Theorem built_invariant (nm : string) (w : world) (ps : list loc) (Ns : list string) :
  built nm w ps Ns ->
  VarSet_Name w = (nm, w)
  /\ VarSet_Prefix w = (prefix (NewVarSet nm), w)
  /\ map Name (vars (registry w)) = map (qualified (prefix (NewVarSet nm))) Ns
  /\ handles w ps.
Proof.
  intros B. destruct (built_registry_handles nm w ps Ns B) as (I1 & I2 & I3 & I4).
  split; [|split; [|split; assumption]].
  - unfold VarSet_Name, bind, this, ret. now rewrite I1.
  - unfold VarSet_Prefix, bind, this, ret. now rewrite I2.
Qed.

End Handles.

Section Decimal.
Context `{UnicodeTables}.

Lemma ord_range (c : ascii) : 0 <= ord c < 256.
Proof.
  unfold ord. pose proof (N_ascii_bounded c) as B. lia.
Qed.

Lemma Atoi_fast_spec (s : string) :
  forall n : Z,
    strconv.Atoi_fast s n = if all_digits s then Some (digits_value s n) else None.
Proof.
  unfold all_digits. induction s as [|c t IH]; intros n; [reflexivity|].
  cbn [strconv.Atoi_fast strings.all_bytes digits_value]. unfold time.is_digit at 1.
  pose proof (ord_range c) as B.
  destruct (Z.leb_spec 48 (ord c)) as [L|L]; cbn [andb].
  - destruct (Z.leb_spec (ord c) 57) as [U|U]; cbn [andb].
    + rewrite Z.mod_small by lia. destruct (Z.ltb_spec 9 (ord c - 48)); [lia|]. apply IH.
    + rewrite Z.mod_small by lia. destruct (Z.ltb_spec 9 (ord c - 48)); [reflexivity|lia].
  - replace ((ord c - 48) mod 256) with (ord c + 208).
    + destruct (Z.ltb_spec 9 (ord c + 208)); [reflexivity|lia].
    + apply Z.mod_unique with (-1); lia.
Qed.

Lemma digits_value_bounds (s : string) :
  forall n : Z,
    all_digits s = true -> 0 <= n ->
    n * 10 ^ len s <= digits_value s n < (n + 1) * 10 ^ len s.
Proof.
  unfold all_digits, len. induction s as [|c t IH]; intros n A Hn.
  - cbn. lia.
  - cbn [strings.all_bytes] in A. apply andb_prop in A as [Hc Ht].
    unfold time.is_digit in Hc. apply andb_prop in Hc as [L U].
    apply Z.leb_le in L, U. cbn [digits_value String.length].
    specialize (IH (n * 10 + (ord c - 48)) Ht ltac:(lia)).
    rewrite Nat2Z.inj_succ, Z.pow_succ_r by lia.
    pose proof (pow10_pos (String.length t)) as P. nia.
Qed.

Lemma digit_val_digit (c : ascii) :
  time.is_digit c = true -> strconv.digit_val (ord c) = Some (ord c - 48).
Proof. unfold time.is_digit, strconv.digit_val. now intros ->. Qed.

Lemma digit_val_other (c : ascii) :
  time.is_digit c = false ->
  match strconv.digit_val (ord c) with Some d => 10 <= d | None => True end.
Proof.
  unfold time.is_digit, strconv.digit_val. intros ->.
  destruct (Z.leb_spec 97 (strconv.lower (ord c))); cbn [andb]; [|exact I].
  destruct (Z.leb_spec (strconv.lower (ord c)) 122); [lia|exact I].
Qed.

(** The loop of [ParseUint] in base ten without a size: the number
    written when every byte is a digit and the number fits 64 bits, an
    error otherwise. *)
Lemma ParseUint_loop_decimal (s0 s : string) :
  forall n : Z,
    0 <= n < 2 ^ 64 ->
    strconv.ParseUint_loop 10 1844674407370955162 (2 ^ 64 - 1) s0 s n =
      (if all_digits s && (digits_value s n <? 2 ^ 64) then (digits_value s n, None)
       else strconv.ParseUint_loop 10 1844674407370955162 (2 ^ 64 - 1) s0 s n)
    /\ (all_digits s && (digits_value s n <? 2 ^ 64) = false ->
        strconv.ParseUint_loop 10 1844674407370955162 (2 ^ 64 - 1) s0 s n
          = (0, Some (strconv.syntaxError "ParseUint" s0))
        \/ strconv.ParseUint_loop 10 1844674407370955162 (2 ^ 64 - 1) s0 s n
          = (2 ^ 64 - 1, Some (strconv.rangeError "ParseUint" s0)))
    /\ (all_digits s = true -> 2 ^ 64 <= digits_value s n ->
        strconv.ParseUint_loop 10 1844674407370955162 (2 ^ 64 - 1) s0 s n
          = (2 ^ 64 - 1, Some (strconv.rangeError "ParseUint" s0))).
Proof.
  induction s as [|c t IH]; intros n Hn.
  - cbn [strconv.ParseUint_loop digits_value]. unfold all_digits. cbn [strings.all_bytes andb].
    destruct (Z.ltb_spec n (2 ^ 64)); [|lia]. repeat split; [discriminate|lia].
  - cbn [strconv.ParseUint_loop digits_value]. unfold all_digits in *.
    cbn [strings.all_bytes]. destruct (time.is_digit c) eqn:D; cbn [andb].
    + rewrite (digit_val_digit c D).
      unfold time.is_digit in D. apply andb_prop in D as [L U]. apply Z.leb_le in L, U.
      destruct (Z.leb_spec 10 (ord c - 48)); [lia|].
      destruct (Z.leb_spec 1844674407370955162 n) as [C|C].
      * assert (T : strings.all_bytes time.is_digit t = true ->
                    2 ^ 64 <= digits_value t (n * 10 + (ord c - 48))).
        { intros A. pose proof (digits_value_bounds t (n * 10 + (ord c - 48)) A ltac:(lia)) as B.
          pose proof (pow10_pos (String.length t)) as P. unfold len in B.
          assert (2 ^ 64 <= n * 10 + (ord c - 48)) by lia. nia. }
        destruct (strings.all_bytes time.is_digit t) eqn:A; cbn [andb].
        -- specialize (T eq_refl).
           destruct (Z.ltb_spec (digits_value t (n * 10 + (ord c - 48))) (2 ^ 64)); [lia|].
           repeat split; auto.
        -- repeat split; auto; discriminate.
      * destruct (Z.lt_ge_cases (n * 10 + (ord c - 48)) (2 ^ 64)) as [S|S].
        -- rewrite (Z.mod_small (n * 10 + (ord c - 48))) by lia.
           destruct (Z.ltb_spec (n * 10 + (ord c - 48)) (n * 10)); [lia|].
           destruct (Z.ltb_spec (2 ^ 64 - 1) (n * 10 + (ord c - 48))); [lia|].
           cbn [orb]. apply IH. lia.
        -- replace ((n * 10 + (ord c - 48)) mod 2 ^ 64) with (n * 10 + (ord c - 48) - 2 ^ 64)
             by (apply Z.mod_unique with 1; lia).
           destruct (Z.ltb_spec (n * 10 + (ord c - 48) - 2 ^ 64) (n * 10)); [|lia].
           cbn [orb].
           assert (T : strings.all_bytes time.is_digit t = true ->
                       2 ^ 64 <= digits_value t (n * 10 + (ord c - 48))).
           { intros A.
             pose proof (digits_value_bounds t (n * 10 + (ord c - 48)) A ltac:(lia)) as B.
             pose proof (pow10_pos (String.length t)) as P. unfold len in B. nia. }
           destruct (strings.all_bytes time.is_digit t) eqn:A; cbn [andb].
           ++ specialize (T eq_refl).
              destruct (Z.ltb_spec (digits_value t (n * 10 + (ord c - 48))) (2 ^ 64)); [lia|].
              repeat split; auto.
           ++ repeat split; auto; discriminate.
    + pose proof (digit_val_other c D) as O.
      destruct (strconv.digit_val (ord c)) as [d|].
      * destruct (Z.leb_spec 10 d); [|lia]. repeat split; auto; discriminate.
      * repeat split; auto; discriminate.
Qed.

Lemma ParseUint_decimal (s : string) :
  strconv.ParseUint s 10 0 =
    if (s =? "")%string then (0, Some (strconv.syntaxError "ParseUint" s))
    else strconv.ParseUint_loop 10 1844674407370955162 (2 ^ 64 - 1) s s 0.
Proof. reflexivity. Qed.

Lemma ParseInt_range_decimal (s0 : string) (neg : bool) (un : Z) :
  strconv.ParseInt_range s0 neg un 0 =
    if negb neg && (2 ^ 63 <=? un) then (2 ^ 63 - 1, Some (strconv.rangeError "ParseInt" s0))
    else if neg && (2 ^ 63 <? un) then (- 2 ^ 63, Some (strconv.rangeError "ParseInt" s0))
    else (if neg then - un else un, None).
Proof. reflexivity. Qed.

(** What [ParseInt] does with the text after the sign. *)
Lemma ParseInt_body (s0 body : string) (neg : bool) :
  let r := let '(un, err) := strconv.ParseUint body 10 0 in
           match err with
           | Some (NumError _ _ e) =>
             if negb (strconv.is_ErrRange e) then (0, Some (NumError "ParseInt" s0 e))
             else strconv.ParseInt_range s0 neg un 0
           | Some (errorString _) => (0, err)
           | None => strconv.ParseInt_range s0 neg un 0
           end in
  if all_digits body && negb (body =? "")%string then
    let v := if neg then - digits_value body 0 else digits_value body 0 in
    if (- 2 ^ 63 <=? v) && (v <? 2 ^ 63) then r = (v, None)
    else r = (if v <? 0 then - 2 ^ 63 else 2 ^ 63 - 1,
              Some (NumError "ParseInt" s0 strconv.ErrRange))
  else exists (n : Z) (e : error),
         r = (n, Some (NumError "ParseInt" s0 e))
         /\ (e = strconv.ErrSyntax \/ e = strconv.ErrRange).
Proof.
  intros r. subst r. rewrite ParseUint_decimal.
  destruct (body =? "")%string eqn:E.
  { rewrite andb_false_r. cbn. eauto. }
  rewrite andb_true_r.
  destruct (ParseUint_loop_decimal body body 0 ltac:(lia)) as (P1 & P2 & P3).
  destruct (all_digits body) eqn:A.
  - pose proof (digits_value_bounds body 0 A ltac:(lia)) as B.
    assert (0 <= digits_value body 0) by lia. clear B.
    cbn [andb] in P1, P2.
    destruct (Z.ltb_spec (digits_value body 0) (2 ^ 64)) as [S|S].
    + rewrite P1. rewrite ParseInt_range_decimal. destruct neg; cbn [negb andb].
      * destruct (Z.ltb_spec (2 ^ 63) (digits_value body 0)).
        -- destruct (Z.leb_spec (- 2 ^ 63) (- digits_value body 0)); [lia|]. cbn [andb].
           destruct (Z.ltb_spec (- digits_value body 0) 0); [reflexivity|lia].
        -- destruct (Z.leb_spec (- 2 ^ 63) (- digits_value body 0)); [|lia].
           destruct (Z.ltb_spec (- digits_value body 0) (2 ^ 63)); [|lia]. reflexivity.
      * destruct (Z.leb_spec (2 ^ 63) (digits_value body 0)).
        -- destruct (Z.leb_spec (- 2 ^ 63) (digits_value body 0)); [|lia].
           destruct (Z.ltb_spec (digits_value body 0) (2 ^ 63)); [lia|]. cbn [andb].
           destruct (Z.ltb_spec (digits_value body 0) 0); [lia|reflexivity].
        -- destruct (Z.leb_spec (- 2 ^ 63) (digits_value body 0)); [|lia].
           destruct (Z.ltb_spec (digits_value body 0) (2 ^ 63)); [|lia]. reflexivity.
    + rewrite (P3 eq_refl S). cbn [strconv.rangeError strconv.is_ErrRange strconv.ErrRange
                                     String.eqb negb].
      change ("value out of range" =? "value out of range")%string with true. cbn [negb].
      rewrite ParseInt_range_decimal. destruct neg; cbn [negb andb].
      * destruct (Z.ltb_spec (2 ^ 63) (2 ^ 64 - 1)); [|lia].
        destruct (Z.leb_spec (- 2 ^ 63) (- digits_value body 0)); [lia|]. cbn [andb].
        destruct (Z.ltb_spec (- digits_value body 0) 0); [reflexivity|lia].
      * destruct (Z.leb_spec (2 ^ 63) (2 ^ 64 - 1)); [|lia].
        destruct (Z.leb_spec (- 2 ^ 63) (digits_value body 0)); [|lia].
        destruct (Z.ltb_spec (digits_value body 0) (2 ^ 63)); [lia|]. cbn [andb].
        destruct (Z.ltb_spec (digits_value body 0) 0); [lia|reflexivity].
  - cbn [andb] in P2. destruct (P2 eq_refl) as [-> | ->].
    + cbn. eauto.
    + change (negb (strconv.is_ErrRange strconv.ErrRange)) with false. cbv iota.
      unfold strconv.rangeError.
      change (negb (strconv.is_ErrRange strconv.ErrRange)) with false. cbv iota.
      rewrite ParseInt_range_decimal. destruct neg; cbn [negb andb].
      * destruct (Z.ltb_spec (2 ^ 63) (2 ^ 64 - 1)); [|lia]. eauto.
      * destruct (Z.leb_spec (2 ^ 63) (2 ^ 64 - 1)); [|lia]. eauto.
Qed.

Lemma all_digits_cons (c : ascii) (t : string) :
  all_digits (String c t) = time.is_digit c && all_digits t.
Proof. reflexivity. Qed.

Lemma sign_not_digit (c : ascii) :
  Ascii.eqb c "-" || Ascii.eqb c "+" = true -> time.is_digit c = false.
Proof.
  intros [E|E]%orb_prop; apply Ascii.eqb_eq in E; subst c; reflexivity.
Qed.

(** [ParseInt] in base ten without a size, by the shape of the text. *)
Lemma ParseInt_decimal (x : string) :
  match signed_decimal x with
  | Some v =>
    if (- 2 ^ 63 <=? v) && (v <? 2 ^ 63) then strconv.ParseInt x 10 0 = (v, None)
    else strconv.ParseInt x 10 0 =
           (if v <? 0 then - 2 ^ 63 else 2 ^ 63 - 1,
            Some (NumError "ParseInt" x strconv.ErrRange))
  | None =>
    exists (n : Z) (e : error),
      strconv.ParseInt x 10 0 = (n, Some (NumError "ParseInt" x e))
      /\ (e = strconv.ErrSyntax \/ e = strconv.ErrRange)
  end.
Proof.
  destruct x as [|c t]; [cbn; eauto|].
  unfold signed_decimal, strconv.ParseInt.
  destruct (Ascii.eqb_spec c "+") as [->|Np].
  - cbn [Ascii.eqb Bool.eqb orb].
    pose proof (ParseInt_body (String "+" t) t false) as B. cbv zeta in B.
    destruct (all_digits t && negb (t =? "")%string); exact B.
  - destruct (Ascii.eqb_spec c "-") as [->|Nm].
    + cbn [orb]. pose proof (ParseInt_body (String "-" t) t true) as B. cbv zeta in B.
      destruct (all_digits t && negb (t =? "")%string); exact B.
    + cbn [orb]. pose proof (ParseInt_body (String c t) (String c t) false) as B. cbv zeta in B.
      change (String c t =? "")%string with false in B. rewrite andb_true_r in B.
      destruct (all_digits (String c t)); exact B.
Qed.

Lemma pow10_18 : 10 ^ 18 < 2 ^ 63.
Proof. reflexivity. Qed.

Lemma digits_value_short (s : string) :
  all_digits s = true -> len s < 19 -> 0 <= digits_value s 0 < 2 ^ 63.
Proof.
  intros A L. pose proof (digits_value_bounds s 0 A ltac:(lia)) as B.
  assert (10 ^ len s <= 10 ^ 18) by (apply Z.pow_le_mono_r; unfold len in *; lia).
  pose proof pow10_18. lia.
Qed.

(** [Atoi] by the shape of the text: the number written by an optional
    sign and digits when it fits 64 bits, a range error with the nearest
    bound when it does not, an error for any other text. *)
Lemma Atoi_decimal (x : string) :
  match signed_decimal x with
  | Some v =>
    if (- 2 ^ 63 <=? v) && (v <? 2 ^ 63) then strconv.Atoi x = (v, None)
    else strconv.Atoi x =
           (if v <? 0 then - 2 ^ 63 else 2 ^ 63 - 1,
            Some (NumError "Atoi" x strconv.ErrRange))
  | None =>
    exists (n : Z) (e : error),
      strconv.Atoi x = (n, Some (NumError "Atoi" x e))
      /\ (e = strconv.ErrSyntax \/ e = strconv.ErrRange)
  end.
Proof.
  unfold strconv.Atoi. destruct ((0 <? len x) && (len x <? 19)) eqn:F.
  - apply andb_prop in F as [F0 F1]. apply Z.ltb_lt in F0, F1.
    destruct x as [|c t]; [change (0 < 0) in F0; lia|]. unfold signed_decimal.
    destruct (Ascii.eqb c "-" || Ascii.eqb c "+") eqn:Sg; cbn [andb].
    + destruct t as [|c' t'].
      * cbn. eauto.
      * change (len (String c' t') <? 1) with (Z.of_nat (S (String.length t')) <? 1).
        destruct (Z.ltb_spec (Z.of_nat (S (String.length t'))) 1); [lia|].
        rewrite Atoi_fast_spec. change (String c' t' =? "")%string with false.
        cbn [negb]. rewrite andb_true_r.
        destruct (all_digits (String c' t')) eqn:A; [|eauto].
        assert (L : len (String c' t') < 19).
        { unfold len in *. cbn [String.length] in *. lia. }
        pose proof (digits_value_short _ A L) as B.
        destruct (Ascii.eqb c "-").
        -- destruct (Z.leb_spec (- 2 ^ 63) (- digits_value (String c' t') 0)); [|lia].
           destruct (Z.ltb_spec (- digits_value (String c' t') 0) (2 ^ 63)); [|lia].
           reflexivity.
        -- destruct (Z.leb_spec (- 2 ^ 63) (digits_value (String c' t') 0)); [|lia].
           destruct (Z.ltb_spec (digits_value (String c' t') 0) (2 ^ 63)); [|lia].
           reflexivity.
    + rewrite Atoi_fast_spec. destruct (all_digits (String c t)) eqn:A; [|eauto].
      pose proof (digits_value_short _ A F1) as B.
      destruct (Z.leb_spec (- 2 ^ 63) (digits_value (String c t) 0)); [|lia].
      destruct (Z.ltb_spec (digits_value (String c t) 0) (2 ^ 63)); [|lia].
      cbn [andb]. apply orb_false_elim in Sg as [-> _]. reflexivity.
  - pose proof (ParseInt_decimal x) as P. destruct (signed_decimal x) as [v|].
    + destruct ((- 2 ^ 63 <=? v) && (v <? 2 ^ 63)); rewrite P; reflexivity.
    + destruct P as (n & e & -> & He). eauto.
Qed.

(** X12: an integer variable accepts exactly the decimal texts -- an
    optional sign in front of one or more digits -- whose number fits a
    64-bit integer, and then holds that number.  A number that does not
    fit leaves the nearest bound and the error
    [parsing "TEXT": value out of range]; any other text is refused with
    that error or with [parsing "TEXT": invalid syntax]. *)
Theorem intValue_accepts_decimal_texts (p : loc) (x : string) (h : store) :
  match signed_decimal x with
  | Some v =>
    if (- 2 ^ 63 <=? v) && (v <? 2 ^ 63)
    then Value_Set (intValue p) x h = (<[p := CInt v]> h, None)
    else Value_Set (intValue p) x h =
           (<[p := CInt (if v <? 0 then - 2 ^ 63 else 2 ^ 63 - 1)]> h,
            Some (errorString ("parsing " ++ strconv.Quote x ++ ": value out of range")))
  | None =>
    exists m : string,
      snd (Value_Set (intValue p) x h) =
        Some (errorString ("parsing " ++ strconv.Quote x ++ ": " ++ m))
      /\ (m = "invalid syntax" \/ m = "value out of range")
  end.
Proof.
  cbn [Value_Set intValue]. unfold intValue_Set.
  pose proof (Atoi_decimal x) as A. destruct (signed_decimal x) as [v|].
  - destruct ((- 2 ^ 63 <=? v) && (v <? 2 ^ 63)); rewrite A; reflexivity.
  - destruct A as (n & e & -> & [-> | ->]); cbn [snd]; eauto.
Qed.

End Decimal.

Section Range.
Context `{UnicodeTables}.

Lemma Atoi_range (x : string) : - 2 ^ 63 <= fst (strconv.Atoi x) < 2 ^ 63.
Proof.
  destruct (snd (strconv.Atoi x)) as [e|] eqn:E.
  - destruct (Atoi_error_value x e E) as [V | [V | V]]; rewrite V; lia.
  - pose proof (Atoi_decimal x) as A. destruct (signed_decimal x) as [v|].
    + destruct (Z.leb_spec (- 2 ^ 63) v); cbn [andb] in A.
      * destruct (Z.ltb_spec v (2 ^ 63)); rewrite A in *; cbn [fst snd] in *;
          [lia|discriminate].
      * rewrite A in E. discriminate.
    + destruct A as (n & e & A & _). rewrite A in E. discriminate.
Qed.

Lemma ParseDuration_step_range (orig s s' : string) (d d' : Z) :
  time.ParseDuration_step orig s d = inr (s', d') -> 0 <= d' <= 2 ^ 63.
Proof.
  unfold time.ParseDuration_step. destruct s as [|c t]; [discriminate|].
  destruct (negb (Ascii.eqb c "." || time.is_digit c)); [discriminate|].
  destruct (time.leadingInt (String c t) 0) as [[v s1]|]; [|discriminate].
  destruct (time.fraction s1) as [[[f scale] s2] post].
  destruct (negb (negb (String.length (String c t) =? String.length s1)%nat) && negb post);
    [discriminate|].
  destruct (time.unit_length s2 =? 0)%nat; [discriminate|].
  destruct (time.unitMap _) as [unit|]; [|discriminate].
  destruct (2 ^ 63 / unit <? v); [discriminate|].
  destruct ((0 <? f) && _); [discriminate|].
  match goal with |- context [2 ^ 63 <? ?D] => destruct (Z.ltb_spec (2 ^ 63) D) as [L|L] end;
    [discriminate|].
  intros [= _ <-]. split; [|exact L]. apply Z.mod_pos_bound. reflexivity.
Qed.

Lemma ParseDuration_loop_range (fuel : nat) (orig : string) :
  forall (s : string) (d r : Z),
    0 <= d <= 2 ^ 63 ->
    time.ParseDuration_loop fuel orig s d = inr r -> 0 <= r <= 2 ^ 63.
Proof.
  induction fuel as [|k IH]; intros s d r Hd; destruct s as [|c t]; cbn [time.ParseDuration_loop].
  - now intros [= <-].
  - discriminate.
  - now intros [= <-].
  - destruct (time.ParseDuration_step orig (String c t) d) as [e|[s' d']] eqn:S; [discriminate|].
    apply IH. exact (ParseDuration_step_range _ _ _ _ _ S).
Qed.

Lemma ParseDuration_range (x : string) : - 2 ^ 63 <= fst (time.ParseDuration x) < 2 ^ 63.
Proof.
  unfold time.ParseDuration.
  destruct (match x with
            | EmptyString => (false, x)
            | String c t =>
              if Ascii.eqb c "-" || Ascii.eqb c "+" then (Ascii.eqb c "-", t) else (false, x)
            end) as [neg s].
  destruct (s =? "0")%string; [cbn [fst]; lia|].
  destruct (s =? "")%string; [cbn [fst]; lia|].
  destruct (time.ParseDuration_loop _ _ _ _) as [err|d] eqn:L; [cbn [fst]; lia|].
  assert (Z0 : 0 <= 0 <= 2 ^ 63) by lia.
  pose proof (ParseDuration_loop_range _ _ _ _ _ Z0 L) as R.
  destruct neg; [cbn [fst]; lia|].
  destruct (Z.ltb_spec (2 ^ 63 - 1) d); cbn [fst]; lia.
Qed.

(** X13: whatever the text, and whether [Set] succeeds or fails, the
    number an integer or a duration variable holds afterwards is within
    the 64-bit range. *)
Theorem Set_keeps_64_bits (p : loc) (x : string) (h : store) :
  (p < List.length h)%nat ->
  - 2 ^ 63 <= read_int p (fst (Value_Set (intValue p) x h)) < 2 ^ 63
  /\ - 2 ^ 63 <= read_duration p (fst (Value_Set (durationValue p) x h)) < 2 ^ 63.
Proof.
  intros Hp. split.
  - cbn [Value_Set intValue]. rewrite (proj1 (intValue_Set_store p x h)).
    unfold read_int. rewrite list_lookup_insert_eq by exact Hp. apply Atoi_range.
  - cbn [Value_Set durationValue]. unfold durationValue_Set.
    pose proof (ParseDuration_range x) as R. destruct (time.ParseDuration x) as [d err].
    cbn [fst] in *. unfold read_duration. rewrite list_lookup_insert_eq by exact Hp. exact R.
Qed.

End Range.

Section Rendered.
Context `{UnicodeTables}.

Lemma typed_stable (v : Value) (h : store) :
  typed v h -> Value_Set v (Value_String v h) h = (h, None).
Proof.
  intros [p h' s Hp|p h' n Hp Hn|p h' b Hp|p h' d Hp Hd]; cbn [Value_Set Value_String
    stringValue intValue boolValue durationValue].
  - unfold stringValue_Set, stringValue_String, read_string.
    rewrite Hp, (list_insert_id h' p _ Hp). reflexivity.
  - unfold intValue_Set, intValue_String, read_int.
    rewrite Hp, (Atoi_Itoa n Hn), (list_insert_id h' p _ Hp). reflexivity.
  - unfold boolValue_Set, boolValue_String, read_bool.
    rewrite Hp, ParseBool_FormatBool, (list_insert_id h' p _ Hp). reflexivity.
  - unfold durationValue_Set, durationValue_String, read_duration.
    rewrite Hp, (ParseDuration_String d Hd), (list_insert_id h' p _ Hp). reflexivity.
Qed.

Lemma pass_stable (g : Getter) (h : store) (xs : list Var) :
  (forall x : Var, In x xs ->
     exists z : string, g (Name x) = (z, true) /\ Value_Set (Var_Value x) z h = (h, None)) ->
  forall i : nat,
    snd (fst (pass g i xs h)) = map (fun _ => None) xs /\ snd (pass g i xs h) = h.
Proof.
  induction xs as [|x xs IH]; intros A i; [split; reflexivity|].
  destruct (A x (or_introl eq_refl)) as (z & G & St).
  cbn [pass map]. unfold attempt. rewrite G, St.
  destruct (IH (fun y Hy => A y (or_intror Hy)) (S i)) as [I1 I2].
  destruct (pass g (S i) xs h) as [[evs rs] h']. cbn [fst snd option_map] in *.
  now rewrite I1, I2.
Qed.

Lemma non_nil_all_nil {A} (xs : list A) : non_nil (map (fun _ => None) xs) = [].
Proof. induction xs as [|x xs IH]; [reflexivity|exact IH]. Qed.

(** X14: parsing back what the variables render changes nothing: when
    every variable is of a plain type, holds a value of that type, and
    the source gives for each name the rendering of the variable's
    current value, the pass returns nil and leaves every cell as it
    was. *)
Theorem Parse_of_own_rendering (g : Getter) (w : world) :
  (forall x : Var, In x (vars (registry w)) ->
     typed (Var_Value x) (heap w)
     /\ g (Name x) = (Value_String (Var_Value x) (heap w), true)) ->
  fst (VarSet_Parse g w) = None
  /\ heap (snd (VarSet_Parse g w)) = heap w.
Proof.
  intros A.
  assert (A' : forall x : Var, In x (vars (registry w)) ->
                 exists z : string,
                   g (Name x) = (z, true)
                   /\ Value_Set (Var_Value x) z (heap w) = (heap w, None)).
  { intros x Hx. destruct (A x Hx) as [T G].
    exists (Value_String (Var_Value x) (heap w)). split; [exact G|now apply typed_stable]. }
  destruct (pass_stable g (heap w) (vars (registry w)) A' 0%nat) as [P1 P2].
  rewrite VarSet_Parse_pass.
  destruct (pass g 0 (vars (registry w)) (heap w)) as [[evs rs] h']. cbn [fst snd heap] in *.
  subst rs h'. fold (non_nil (map (fun _ : Var => @None error) (vars (registry w)))).
  rewrite non_nil_all_nil. split; reflexivity.
Qed.

End Rendered.

Section NormalForm.
Context `{UnicodeTables}.

Lemma NewVarSet_prefix_eq (nm : string) :
  prefix (NewVarSet nm) = strings.map_bytes dash_to_underscore (strings.ToUpper nm).
Proof. cbn [NewVarSet prefix]. apply Replace_hyphen. Qed.

Lemma ToUpper_ascii (s : string) :
  strings.all_bytes (fun c => ord c <? 128) s = true ->
  strings.ToUpper s = strings.map_bytes strings.upper_byte s.
Proof.
  intros A. unfold strings.ToUpper. change utf8.RuneSelf with 128. rewrite A.
  destruct (strings.all_bytes (fun c => negb (strings.is_lower c)) s) eqn:E; [|reflexivity].
  cbn [negb]. symmetry. apply map_upper_no_lower, E.
Qed.

Lemma hyphens_map_dash (s : string) :
  hyphens (strings.map_bytes dash_to_underscore s) = 0%nat.
Proof.
  induction s as [|c t IH]; [reflexivity|]. cbn [strings.map_bytes hyphens].
  unfold dash_to_underscore at 1. destruct (Ascii.eqb c "-") eqn:E; [exact IH|].
  rewrite E. exact IH.
Qed.

Lemma map_dash_no_hyphen (s : string) :
  hyphens s = 0%nat -> strings.map_bytes dash_to_underscore s = s.
Proof.
  induction s as [|c t IH]; [reflexivity|]. cbn [strings.map_bytes hyphens].
  unfold dash_to_underscore at 1. destruct (Ascii.eqb c "-"); [discriminate|].
  intros E. now rewrite IH.
Qed.

Lemma length_map_bytes (f : ascii -> ascii) (s : string) :
  String.length (strings.map_bytes f s) = String.length s.
Proof. induction s as [|c t IH]; [reflexivity|]. cbn. now rewrite IH. Qed.

(** A byte of an ASCII name after upper-casing and the replacement of
    the hyphen: still ASCII, and no lower-case letter. *)
Lemma normal_byte (c : ascii) :
  (ord c <? 128) = true ->
  negb (strings.is_lower (dash_to_underscore (strings.upper_byte c)))
  && (ord (dash_to_underscore (strings.upper_byte c)) <? 128) = true.
Proof.
  destruct c as [[] [] [] [] [] [] [] []]; vm_compute; intros E;
    first [reflexivity | discriminate E].
Qed.

Lemma normal_bytes (s : string) :
  strings.all_bytes (fun c => ord c <? 128) s = true ->
  strings.all_bytes (fun c => negb (strings.is_lower c))
    (strings.map_bytes dash_to_underscore (strings.map_bytes strings.upper_byte s)) = true
  /\ strings.all_bytes (fun c => ord c <? 128)
       (strings.map_bytes dash_to_underscore (strings.map_bytes strings.upper_byte s)) = true.
Proof.
  induction s as [|c t IH]; [split; reflexivity|].
  cbn [strings.all_bytes strings.map_bytes]. intros [Hc Ht]%andb_prop.
  destruct (IH Ht) as [I1 I2]. apply normal_byte, andb_prop in Hc as [C1 C2].
  rewrite C1, C2, I1, I2. split; reflexivity.
Qed.

(** X15: the prefix of a registry is a normal form: it has no hyphen,
    and for an ASCII name it has as many bytes as the name, no
    lower-case letter, and is the prefix of the registry named by
    itself. *)
Theorem prefix_is_normal (nm : string) :
  hyphens (prefix (NewVarSet nm)) = 0%nat
  /\ (strings.all_bytes (fun c => ord c <? 128) nm = true ->
      String.length (prefix (NewVarSet nm)) = String.length nm
      /\ strings.all_bytes (fun c => negb (strings.is_lower c)) (prefix (NewVarSet nm)) = true
      /\ prefix (NewVarSet (prefix (NewVarSet nm))) = prefix (NewVarSet nm)).
Proof.
  rewrite !NewVarSet_prefix_eq. split; [apply hyphens_map_dash|].
  intros A. rewrite (ToUpper_ascii nm A). destruct (normal_bytes nm A) as [N1 N2].
  split; [now rewrite !length_map_bytes|]. split; [exact N1|].
  rewrite (ToUpper_ascii _ N2), (map_upper_no_lower _ N1).
  apply map_dash_no_hyphen, hyphens_map_dash.
Qed.

End NormalForm.

Section Default.
Context `{UnicodeTables} `{Checks}.

Lemma length_append (a b : string) :
  String.length (a ++ b) = (String.length a + String.length b)%nat.
Proof. induction a as [|x a IH]; [reflexivity|]. cbn. now rewrite IH. Qed.

Lemma take_bytes_all (s : string) : take_bytes (String.length s) s = s.
Proof. induction s as [|c t IH]; [reflexivity|]. cbn. now rewrite IH. Qed.

Lemma all_bytes_get (P : ascii -> bool) (s : string) (k : nat) (b : ascii) :
  strings.all_bytes P s = true -> String.get k s = Some b -> P b = true.
Proof.
  revert k. induction s as [|c t IH]; intros k A G; [discriminate|].
  cbn [strings.all_bytes] in A. apply andb_prop in A as [Hc Ht].
  destruct k as [|k]; cbn in G; [now injection G as <-|]. now apply IH with k.
Qed.

Lemma all_bytes_take (P : ascii -> bool) (n : nat) (s : string) :
  strings.all_bytes P s = true -> strings.all_bytes P (take_bytes n s) = true.
Proof.
  revert s. induction n as [|n IH]; intros [|c t] A; try reflexivity.
  cbn [strings.all_bytes take_bytes] in *. apply andb_prop in A as [Hc Ht].
  now rewrite Hc, IH.
Qed.

Lemma all_bytes_drop (P : ascii -> bool) (n : nat) (s : string) :
  strings.all_bytes P s = true -> strings.all_bytes P (drop_bytes n s) = true.
Proof.
  revert s. induction n as [|n IH]; intros [|c t] A; try reflexivity; [exact A|].
  cbn [strings.all_bytes drop_bytes] in *. apply andb_prop in A as [Hc Ht]. now apply IH.
Qed.

Lemma strip_slashes_take (n : nat) (s : string) :
  exists k : nat, path.strip_slashes n s = take_bytes k s.
Proof.
  induction n as [|n IH]; [now exists 0%nat|]. cbn [path.strip_slashes].
  destruct (String.get n s) as [b|]; [|now exists (S n)].
  destruct (Ascii.eqb b "/"); [exact IH|now exists (S n)].
Qed.

Lemma Base_not_empty (p : string) : path.Base p <> "".
Proof.
  unfold path.Base. destruct (p =? "")%string; [discriminate|]. cbv zeta.
  match goal with |- (if (?s =? "")%string then _ else _) <> _ =>
    destruct (String.eqb_spec s "") as [E|E]; [discriminate|exact E] end.
Qed.

Lemma Base_all_bytes (P : ascii -> bool) (p : string) :
  P "."%char = true -> P "/"%char = true ->
  strings.all_bytes P p = true -> strings.all_bytes P (path.Base p) = true.
Proof.
  intros Hdot Hslash A. unfold path.Base.
  destruct (p =? "")%string; [cbn; now rewrite Hdot|]. cbv zeta.
  destruct (strip_slashes_take (String.length p) p) as [k ->].
  pose proof (all_bytes_take P k p A) as T.
  match goal with |- strings.all_bytes P (if (?s =? "")%string then _ else _) = true =>
    assert (S : strings.all_bytes P s = true);
    [|destruct (s =? "")%string; [cbn; now rewrite Hslash|exact S]] end.
  destruct (0 <=? path.LastIndexByteString (take_bytes k p) "/"); [|exact T].
  now apply all_bytes_drop.
Qed.

Lemma get_last (a : string) (c : ascii) :
  String.get (String.length a) (a ++ String c "") = Some c.
Proof. induction a as [|x a IH]; [reflexivity|exact IH]. Qed.

Lemma LastIndex_none (s : string) (i : nat) :
  slash_free s = true -> path.LastIndexByteString_from i s "/" = -1.
Proof.
  intros F. induction i as [|i IH]; [reflexivity|]. cbn [path.LastIndexByteString_from].
  destruct (String.get i s) as [b|] eqn:G; [|exact IH].
  pose proof (all_bytes_get _ s i b F G) as N. cbn beta in N.
  destruct (Ascii.eqb b "/"); [discriminate|exact IH].
Qed.

Lemma get_at_slash (a b : string) :
  String.get (String.length a) (a ++ String "/" b) = Some "/"%char.
Proof.
  pose proof (append_correct2 a (String "/" b) 0) as G. cbn [Nat.add String.get] in G.
  now rewrite <- G.
Qed.

Lemma get_after_slash (a b : string) (j : nat) :
  String.get (j + S (String.length a)) (a ++ String "/" b) = String.get j b.
Proof.
  replace (j + S (String.length a))%nat with (S j + String.length a)%nat by lia.
  now rewrite <- (append_correct2 a (String "/" b) (S j)).
Qed.

Lemma LastIndex_found (a b : string) (j : nat) :
  slash_free b = true ->
  path.LastIndexByteString_from (j + S (String.length a)) (a ++ String "/" b) "/"
  = Z.of_nat (String.length a).
Proof.
  intros F. induction j as [|j IH].
  - cbn [Nat.add path.LastIndexByteString_from]. now rewrite get_at_slash.
  - cbn [Nat.add path.LastIndexByteString_from]. rewrite get_after_slash.
    destruct (String.get j b) as [x|] eqn:G; [|exact IH].
    pose proof (all_bytes_get _ b j x F G) as N. cbn beta in N.
    destruct (Ascii.eqb x "/"); [discriminate|exact IH].
Qed.

Lemma strip_slashes_none (s : string) (c : ascii) :
  Ascii.eqb c "/" = false ->
  path.strip_slashes (String.length (s ++ String c "")) (s ++ String c "") = s ++ String c "".
Proof.
  intros N. rewrite <- (take_bytes_all (s ++ String c "")) at 3.
  assert (L : String.length (s ++ String c "") = S (String.length s)).
  { rewrite length_append. cbn. lia. }
  rewrite L. cbn [path.strip_slashes]. now rewrite get_last, N.
Qed.

Lemma split_last (s : string) :
  s <> "" -> exists (a : string) (c : ascii), s = a ++ String c "".
Proof.
  induction s as [|x t IH]; [congruence|]. intros _. destruct t as [|y t'].
  - now exists "", x.
  - destruct IH as (a & c & E); [discriminate|]. exists (String x a), c. cbn. now rewrite E.
Qed.

Lemma slash_free_app (a b : string) :
  slash_free (a ++ b) = slash_free a && slash_free b.
Proof.
  unfold slash_free. induction a as [|x a IH]; [reflexivity|].
  cbn [append strings.all_bytes]. now rewrite IH, andb_assoc.
Qed.

(** X16: the default registry is named by the last element of the
    program path: for a path that ends in a non-empty element without
    slash, with or without directories in front, [CmdName] is that
    element; and whatever the path, the name is never empty. *)
Theorem CmdName_is_program_name (dir nm : string) :
  nm <> "" -> slash_free nm = true ->
  CmdName (dir ++ String "/" nm) = nm
  /\ CmdName nm = nm
  /\ (forall args0 : string, CmdName args0 <> "").
Proof.
  intros Hn F. split; [|split; [|exact Base_not_empty]].
  - destruct (split_last nm Hn) as (a & c & E).
    assert (Fc : Ascii.eqb c "/" = false).
    { rewrite E, slash_free_app in F. apply andb_prop in F as [_ F]. cbn in F.
      destruct (Ascii.eqb c "/"); [discriminate|reflexivity]. }
    unfold CmdName, path.Base.
    destruct (String.eqb_spec (dir ++ String "/" nm) "") as [E0|_].
    { destruct dir; discriminate. }
    cbv zeta.
    assert (St : path.strip_slashes (String.length (dir ++ String "/" nm)) (dir ++ String "/" nm)
                = dir ++ String "/" nm).
    { rewrite E. change (String "/" (a ++ String c "")) with (String "/" a ++ String c "").
      rewrite <- append_assoc3. apply strip_slashes_none, Fc. }
    rewrite St. unfold path.LastIndexByteString.
    replace (String.length (dir ++ String "/" nm))
      with (String.length nm + S (String.length dir))%nat
      by (rewrite length_append; cbn; lia).
    rewrite (LastIndex_found dir nm _ F).
    destruct (Z.leb_spec 0 (Z.of_nat (String.length dir))); [|lia].
    replace (Z.to_nat (Z.of_nat (String.length dir) + 1)) with (String.length (dir ++ "/"))
      by (rewrite length_append; cbn; lia).
    change (dir ++ String "/" nm) with (dir ++ ("/" ++ nm)).
    rewrite <- append_assoc3, drop_bytes_app.
    destruct (String.eqb_spec nm ""); [contradiction|reflexivity].
  - destruct (split_last nm Hn) as (a & c & E).
    assert (Fc : Ascii.eqb c "/" = false).
    { rewrite E, slash_free_app in F. apply andb_prop in F as [_ F]. cbn in F.
      destruct (Ascii.eqb c "/"); [discriminate|reflexivity]. }
    unfold CmdName, path.Base. destruct (String.eqb_spec nm "") as [|_]; [contradiction|].
    cbv zeta. assert (St : path.strip_slashes (String.length nm) nm = nm).
    { rewrite E. apply strip_slashes_none, Fc. }
    rewrite St. unfold path.LastIndexByteString. rewrite (LastIndex_none nm _ F).
    cbn [Z.leb Z.compare]. destruct (String.eqb_spec nm ""); [contradiction|reflexivity].
Qed.

Lemma prefixed_differs (P N : string) : P ++ "_" ++ N <> N.
Proof.
  intros E. apply (f_equal String.length) in E. rewrite !length_append in E.
  cbn [String.length] in E. lia.
Qed.

(** X17: with an ASCII program path, the default registry has a
    non-empty prefix, which declarations and passes leave alone, so
    that no variable declared through the package-level functions is
    looked up under its bare name: the names of the variables are, in
    the order of declaration, the prefix, an underscore and the name
    declared, and none of them is the name declared. *)
Theorem default_names_are_prefixed (args0 : string) (w : world) (ps : list loc)
        (Ns : list string) :
  strings.all_bytes (fun c => ord c <? 128) args0 = true ->
  built (CmdName args0) w ps Ns ->
  prefix (registry w) = prefix (CmdVar args0)
  /\ prefix (CmdVar args0) <> ""
  /\ map Name (vars (registry w)) = map (fun N => prefix (CmdVar args0) ++ "_" ++ N) Ns
  /\ Forall2 (fun x N => Name x <> N) (vars (registry w)) Ns.
Proof.
  intros A B. destruct (built_registry_handles _ w ps Ns B) as (_ & I2 & I3 & _).
  unfold CmdVar.
  assert (Ne : prefix (NewVarSet (CmdName args0)) <> "").
  { pose proof (Base_all_bytes (fun c => ord c <? 128) args0 eq_refl eq_refl A) as Ab.
    pose proof (Base_not_empty args0) as Nb. fold (CmdName args0) in Ab, Nb.
    rewrite NewVarSet_prefix_eq, (ToUpper_ascii _ Ab). intros E.
    apply (f_equal String.length) in E. rewrite !length_map_bytes in E.
    destruct (CmdName args0); [congruence|discriminate]. }
  assert (Q : forall N : string,
            qualified (prefix (NewVarSet (CmdName args0))) N
            = prefix (NewVarSet (CmdName args0)) ++ "_" ++ N).
  { intros N. unfold qualified.
    destruct (String.eqb_spec (prefix (NewVarSet (CmdName args0))) "");
      [contradiction|reflexivity]. }
  assert (I3' : map Name (vars (registry w))
                = map (fun N => prefix (NewVarSet (CmdName args0)) ++ "_" ++ N) Ns).
  { rewrite I3. apply map_ext. exact Q. }
  split; [exact I2|]. split; [exact Ne|]. split; [exact I3'|].
  clear - I3'. revert Ns I3'. induction (vars (registry w)) as [|x xs IH]; intros [|N Ns] E;
    try discriminate; constructor.
  - injection E as E _. rewrite E. apply prefixed_differs.
  - injection E as _ E. now apply IH.
Qed.

End Default.

Section BareNumber.
Context `{UnicodeTables}.

Lemma leadingInt_digits (s : string) :
  forall x : Z,
    all_digits s = true -> 0 <= x <= 2 ^ 63 ->
    time.leadingInt s x =
      if digits_value s x <=? 2 ^ 63 then Some (digits_value s x, "") else None.
Proof.
  induction s as [|c t IH]; intros x A Hx.
  - cbn [time.leadingInt digits_value]. destruct (Z.leb_spec x (2 ^ 63)); [reflexivity|lia].
  - rewrite all_digits_cons in A. apply andb_prop in A as [Hc Ht].
    cbn [time.leadingInt digits_value]. rewrite Hc. cbn [negb].
    pose proof Hc as Hc'. unfold time.is_digit in Hc'. apply andb_prop in Hc' as [L U].
    apply Z.leb_le in L, U.
    assert (M : forall m : Z, 0 <= m -> m <= digits_value t m).
    { intros m Hm. pose proof (digits_value_bounds t m Ht Hm) as B.
      pose proof (pow10_pos (String.length t)) as P. unfold len in B. nia. }
    change (2 ^ 63 / 10) with 922337203685477580.
    destruct (Z.ltb_spec 922337203685477580 x) as [O|O].
    + specialize (M (x * 10 + (ord c - 48)) ltac:(lia)).
      destruct (Z.leb_spec (digits_value t (x * 10 + (ord c - 48))) (2 ^ 63)); [lia|reflexivity].
    + replace (x * 10 + ord c - 48) with (x * 10 + (ord c - 48)) by lia.
      destruct (Z.ltb_spec (2 ^ 63) (x * 10 + (ord c - 48))) as [O'|O'].
      * specialize (M (x * 10 + (ord c - 48)) ltac:(lia)).
        destruct (Z.leb_spec (digits_value t (x * 10 + (ord c - 48))) (2 ^ 63));
          [lia|reflexivity].
      * apply IH; [exact Ht|lia].
Qed.

(** X18: a duration variable refuses a bare number: a text of digits
    only, other than "0", fails -- with
    [time: missing unit in duration "TEXT"] when the number is at most
    2^63, as an invalid duration beyond -- and leaves the zero duration
    in the variable; "0" alone is accepted. *)
Theorem durationValue_needs_unit (p : loc) (s : string) (h : store) :
  all_digits s = true -> s <> "" -> s <> "0" ->
  Value_Set (durationValue p) s h =
    (<[p := CDuration 0]> h,
     Some (if digits_value s 0 <=? 2 ^ 63
           then errorString ("time: missing unit in duration " ++ time.quote s)
           else time.invalid s))
  /\ Value_Set (durationValue p) "0" h = (<[p := CDuration 0]> h, None).
Proof.
  intros A Hn H0. split; [|reflexivity].
  cbn [Value_Set durationValue]. unfold durationValue_Set.
  assert (P : time.ParseDuration s =
              (0, Some (if digits_value s 0 <=? 2 ^ 63
                        then errorString ("time: missing unit in duration " ++ time.quote s)
                        else time.invalid s))).
  { destruct s as [|c t]; [congruence|].
    pose proof A as A'. rewrite all_digits_cons in A'. apply andb_prop in A' as [Hc Ht].
    assert (Sg : Ascii.eqb c "-" || Ascii.eqb c "+" = false).
    { destruct (Ascii.eqb c "-" || Ascii.eqb c "+") eqn:E; [|reflexivity].
      rewrite (sign_not_digit c E) in Hc. discriminate. }
    unfold time.ParseDuration. rewrite Sg.
    destruct (String.eqb_spec (String c t) "0") as [E0|_]; [congruence|].
    change (String c t =? "")%string with false. cbv iota.
    cbn [String.length time.ParseDuration_loop]. unfold time.ParseDuration_step.
    rewrite Hc, orb_true_r. cbn [negb].
    assert (Z0 : 0 <= 0 <= 2 ^ 63) by lia.
    rewrite (leadingInt_digits (String c t) 0 A Z0).
    destruct (digits_value (String c t) 0 <=? 2 ^ 63); reflexivity. }
  rewrite P. reflexivity.
Qed.

End BareNumber.

(** * Closed instances of the further properties *)

Lemma example_pair_built :
  @built example_tables example_checks "" example_pair [0; 1]%nat ["HOST"; "PORT"].
Proof.
  exact (@built_Int example_tables example_checks "" "PORT" "listen port" _ _ _
           (@built_String example_tables example_checks "" "HOST" "peer" _ _ _
              (@built_new example_tables example_checks "" [] []))).
Qed.

Lemma example_service_built :
  @built example_tables example_checks "my-service" example_service [0; 1]%nat
         ["HOST"; "PORT"].
Proof.
  exact (@built_Int example_tables example_checks "my-service" "PORT" "listen port" _ _ _
           (@built_StringRequired example_tables example_checks "my-service" "HOST" "peer" _ _ _
              (@built_new example_tables example_checks "my-service" [] []))).
Qed.

Lemma example_pair_handles : handles example_pair [0; 1]%nat.
Proof.
  exact (proj2 (proj2 (proj2 (@built_registry_handles example_tables example_checks ""
                                example_pair _ _ example_pair_built)))).
Qed.

(** X1, at the text "8080" and a cell that holds something else. *)
Lemma stringValue_holds_text_witness :
  Value_Set (stringValue 0) "8080" [CString "x"] = ([CString "8080"], None)
  /\ Value_String (stringValue 0) (fst (Value_Set (stringValue 0) "8080" [CString "x"])) = "8080".
Proof.
  assert (Hp : (0 < List.length [CString "x"])%nat) by (simpl; lia).
  destruct (stringValue_holds_text 0%nat "8080" [CString "x"] Hp) as (A & B & _).
  split; [exact A|exact B].
Defined.

(** X7, at the registry with HOST and PORT and the source that has
    "abc" for PORT: the pass returns one error, that of PORT. *)
Lemma Parse_summary_names_first_failure_witness :
  exists (e : error) (rest : Errors),
    fst (@VarSet_Parse example_tables example_source example_pair) = Some (Some e :: rest)
    /\ @Errors_Error example_tables (Some e :: rest)
       = ("could not set env PORT: parsing "
          ++ String dquote ("abc" ++ String dquote ": invalid syntax"))%string.
Proof.
  destruct (@Parse_summary_names_first_failure example_tables example_source example_pair
              [Some (errorString ("could not set env PORT: parsing "
                                  ++ String dquote ("abc" ++ String dquote ": invalid syntax")))]
              eq_refl) as (e & rest & E & Hd & S).
  exists e, rest. split; [now rewrite <- E|].
  rewrite <- E in *. injection E as <- <-. exact S.
Defined.

(** X8, at the same registry and source: afterwards HOST holds
    "localhost" and PORT, whose text was refused, holds zero. *)
Lemma Parse_sets_each_cell_alone_witness :
  heap (snd (@VarSet_Parse example_tables example_source example_pair)) !! 0%nat
  = Some (CString "localhost")
  /\ heap (snd (@VarSet_Parse example_tables example_source example_pair)) !! 1%nat
     = Some (CInt 0).
Proof.
  destruct (@Parse_sets_each_cell_alone example_tables example_source example_pair [0; 1]%nat
              example_pair_handles) as (_ & _ & _ & C).
  split.
  - exact (C 0%nat {| Name := "HOST"; Usage := "peer"; Var_Value := stringValue 0 |} 0%nat
             eq_refl eq_refl).
  - exact (C 1%nat {| Name := "PORT"; Usage := "listen port";
                      Var_Value := @intValue example_tables 1 |} 1%nat eq_refl eq_refl).
Defined.


(** X10, at the same registry and source. *)
Lemma Parse_twice_witness :
  heap (snd (@VarSet_Parse example_tables example_source
               (snd (@VarSet_Parse example_tables example_source example_pair))))
  = [CString "localhost"; CInt 0].
Proof.
  exact (proj2 (@Parse_twice example_tables example_source example_pair [0; 1]%nat
                  example_pair_handles)).
Defined.

(** Without that condition a second pass is not idle: the counter
    declared through [Var] goes from 1 to 2. *)
Example Parse_twice_counter :
  let g : Getter := fun _ => ("", true) in
  heap (snd (@VarSet_Parse example_tables g example_counter)) = [CInt 1]
  /\ heap (snd (@VarSet_Parse example_tables g
                  (snd (@VarSet_Parse example_tables g example_counter)))) = [CInt 2].
Proof. split; reflexivity. Qed.

(** X11, at the registry named my-service in which [StringRequired]
    declared HOST and [Int] declared PORT. *)
Lemma built_invariant_witness :
  VarSet_Name example_service = ("my-service", example_service)
  /\ VarSet_Prefix example_service = ("MY_SERVICE", example_service)
  /\ map Name (vars (registry example_service)) = ["MY_SERVICE_HOST"; "MY_SERVICE_PORT"]
  /\ handles example_service [0; 1]%nat.
Proof.
  exact (@built_invariant example_tables example_checks "my-service" example_service
           [0; 1]%nat ["HOST"; "PORT"] example_service_built).
Defined.

(** X13, at a text far out of range. *)
Lemma Set_keeps_64_bits_witness :
  - 2 ^ 63 <= read_int 0 (fst (Value_Set (@intValue example_tables 0)
                                  "99999999999999999999" [CInt 5])) < 2 ^ 63.
Proof.
  assert (Hp : (0 < List.length [CInt 5])%nat) by (simpl; lia).
  exact (proj1 (@Set_keeps_64_bits example_tables 0%nat "99999999999999999999" [CInt 5] Hp)).
Defined.

(** X14, at the registry with HOST and PORT as declared, and the source
    that has their renderings, the empty text and "0". *)
Lemma Parse_of_own_rendering_witness :
  fst (@VarSet_Parse example_tables
         (fun key => if (key =? "HOST")%string then ("", true) else ("0", true)) example_pair)
  = None
  /\ heap (snd (@VarSet_Parse example_tables
                  (fun key => if (key =? "HOST")%string then ("", true) else ("0", true))
                  example_pair))
     = heap example_pair.
Proof.
  apply (@Parse_of_own_rendering example_tables).
  intros x Hx.
  change (In x [ {| Name := "HOST"; Usage := "peer"; Var_Value := stringValue 0 |};
                 {| Name := "PORT"; Usage := "listen port";
                    Var_Value := @intValue example_tables 1 |} ]) in Hx.
  destruct Hx as [<-|[<-|[]]]; split; try reflexivity.
  - exact (@typed_string example_tables 0%nat (heap example_pair) "" eq_refl).
  - apply (@typed_int example_tables 1%nat (heap example_pair) 0 eq_refl). lia.
Defined.

(** X16, at the program path [/usr/bin/my-app]. *)
Lemma CmdName_is_program_name_witness :
  CmdName ("/usr/bin" ++ String "/" "my-app") = "my-app" /\ CmdName "my-app" = "my-app".
Proof.
  assert (Hn : "my-app" <> "") by discriminate.
  destruct (CmdName_is_program_name "/usr/bin" "my-app" Hn eq_refl) as (A & B & _).
  split; [exact A|exact B].
Defined.

Lemma example_default_built :
  @built example_tables example_checks (CmdName "/usr/bin/my-app") example_default [0%nat]
         ["PORT"].
Proof.
  exact (@built_String example_tables example_checks _ "PORT" "listen port" _ _ _
           (@built_new example_tables example_checks (CmdName "/usr/bin/my-app") [] [])).
Qed.

(** X17, at the same program, after the package-level [String] declared
    PORT: the variable is MY_APP_PORT, not PORT. *)
Lemma default_names_are_prefixed_witness :
  prefix (registry example_default) = "MY_APP"
  /\ "MY_APP" <> ""
  /\ map Name (vars (registry example_default)) = ["MY_APP_PORT"]
  /\ Forall2 (fun x N => Name x <> N) (vars (registry example_default)) ["PORT"].
Proof.
  exact (@default_names_are_prefixed example_tables example_checks "/usr/bin/my-app"
           example_default [0%nat] ["PORT"] eq_refl example_default_built).
Defined.

(** X18, at the text "30". *)
Lemma durationValue_needs_unit_witness :
  Value_Set (durationValue 0) "30" [CDuration 5] =
    ([CDuration 0],
     Some (errorString ("time: missing unit in duration "
                        ++ String dquote ("30" ++ String dquote "")))).
Proof.
  assert (Hn : "30" <> "") by discriminate.
  assert (H0 : "30" <> "0") by discriminate.
  exact (proj1 (durationValue_needs_unit 0%nat "30" [CDuration 5] eq_refl Hn H0)).
Defined.
